(** * therme: name reconciliation and schedule-text parsing

    A shallow embedding of the matching and parsing core of
    [src/generate_html.py]:

    - [activity_names] / [activity_details_map]  (lines 22-27)
    - [find_best_match]                          (lines 29-67)
    - [parse_schedule_program]                   (lines 69-117)
    - [unmatched_activities]                     (lines 126-140)

    Python strings are sequences of Unicode code points; they are modelled
    as [list N].  The services Python takes from its Unicode database
    ([str.lower], the classes [\d] and [\s]) and the four [rapidfuzz]
    scorers are parameters of the development: every theorem holds for
    whatever functions are plugged in, and the few facts a theorem needs
    about them are stated as hypotheses of that theorem.  Scores are
    rational numbers ([Q]): [rapidfuzz] returns floats between 0 and 100 and
    the code only compares them. *)

From Stdlib Require Import QArith Ascii String.
From stdpp Require Import gmap list.

Local Open Scope N_scope.

(** ** Python text *)

Abbreviation str := (list N) (only parsing).

(** An ASCII literal as a Python string. *)
Definition lit (s : string) : str :=
  List.map N_of_ascii (list_ascii_of_string s).

(** [a == b] on strings. *)
Definition str_eqb (a b : str) : bool := bool_decide (a = b).

(** [s.startswith(p)] *)
Fixpoint startswith (s p : str) {struct p} : bool :=
  match p, s with
  | [], _ => true
  | _ :: _, [] => false
  | a :: p', b :: s' => (a =? b) && startswith s' p'
  end.

(** [sub in s]: [sub] occurs in [s] as a contiguous substring. *)
Fixpoint str_in (sub s : str) : bool :=
  startswith s sub ||
  match s with
  | [] => false
  | _ :: s' => str_in sub s'
  end.

(** Python truthiness of an optional string: [None] and [''] are falsy. *)
Definition truthy (o : option str) : bool :=
  match o with
  | Some (_ :: _) => true
  | _ => false
  end.

(** ** Scores *)

(** [a >= b] and [a > b] on scores. *)
Definition ge_score (a b : Q) : bool := Qle_bool b a.
Definition gt_score (a b : Q) : bool := negb (Qle_bool a b).

(** Python's [max(a, b, c)]: the first maximal argument. *)
Definition max3 (a b c : Q) : Q :=
  let m := if gt_score b a then b else a in
  if gt_score c m then c else m.

(** A similarity scorer, [scorer(s1, s2)]. *)
Definition scorer := str -> str -> Q.

(** ** Data model *)

(** A record of the detail catalog ([activities_data['activities']]). *)
Record ActivityDetail := {
  title : str;
  description : str;
  url : str;
  tier : option str;
  program : option str
}.

(** An entry of the weekly schedule; [name] may be missing. *)
Record ScheduleEntry := {
  name : option str;
  location : str;
  time : str
}.

(** One day of the schedule; the [activities] key may be missing. *)
Record DayData := {
  theme : str;
  activities : option (list ScheduleEntry)
}.

(** A parsed row of a schedule text. *)
Record ScheduleRow := {
  row_days : str;
  row_location : str;
  row_time : str
}.

(** The result of [find_best_match]: the record (or [None]) and its score. *)
Abbreviation MatchResult := (option ActivityDetail * Q)%type (only parsing).

(** ** The name index and the resolver *)

Section Resolver.

(** [str.lower] *)
Variable lower : str -> str.

(** [fuzz.ratio], [fuzz.partial_ratio], [fuzz.token_sort_ratio],
    [fuzz.token_set_ratio] *)
Variables ratio partial_ratio token_sort_ratio token_set_ratio : scorer.

(** [activities_data['activities']] *)
Variable catalog : list ActivityDetail.

(** Lines 23-27: the ordered names and the name -> record mapping; a later
    record with the same title overwrites the earlier one. *)
Definition activity_names : list str := title <$> catalog.

Definition activity_details_map : gmap (list N) ActivityDetail :=
  foldl (fun m activity => <[title activity := activity]> m) ∅ catalog.

(** Lines 32-34: the exact stage, a loop with an early return. *)
Fixpoint exact_stage (schedule_name : str) (names : list str)
  : option MatchResult :=
  match names with
  | [] => None
  | activity_name :: rest =>
      if str_eqb (lower schedule_name) (lower activity_name)
      then Some (activity_details_map !! activity_name, 100%Q)
      else exact_stage schedule_name rest
  end.

(** Line 40: the containment test on the case-folded strings. *)
Definition contained (schedule_name activity_name : str) : bool :=
  str_in (lower schedule_name) (lower activity_name)
  || str_in (lower activity_name) (lower schedule_name).

(** Lines 42-46: the containment score, on the strings as given. *)
Definition partial_score (schedule_name activity_name : str) : Q :=
  max3 (ratio schedule_name activity_name)
       (partial_ratio schedule_name activity_name)
       (token_sort_ratio schedule_name activity_name).

(** Lines 37-48: the containment stage. *)
Fixpoint partial_stage (schedule_name : str) (threshold : Q)
    (names : list str) : option MatchResult :=
  match names with
  | [] => None
  | activity_name :: rest =>
      if contained schedule_name activity_name
         && ge_score (partial_score schedule_name activity_name) threshold
      then Some (activity_details_map !! activity_name,
                 partial_score schedule_name activity_name)
      else partial_stage schedule_name threshold rest
  end.

(** Modelled from the spec: [process.extractOne(query, choices, scorer=sc,
    score_cutoff=cutoff)] belongs to the [rapidfuzz] library, which is not
    part of the repository.  The specification (4.1, stage 3) has it search
    the entire ordered sequence for the single highest-scoring candidate at
    or above the threshold.  The choices are scored in order, the scorer
    being applied to the query and the choice as they are; a choice
    replaces the current result when its score is at least the cutoff and
    strictly greater than the score of the current result, so that of
    several choices of the same best score the first one is kept, as in
    the library.  The result is [(choice, score, index)] or [None]. *)
Fixpoint extractOne_loop (sc : scorer) (query : str) (cutoff : Q)
    (choices : list str) (i : nat) (result : option (str * Q * nat))
  : option (str * Q * nat) :=
  match choices with
  | [] => result
  | choice :: rest =>
      let s := sc query choice in
      let better :=
        match result with
        | None => true
        | Some (_, best, _) => gt_score s best
        end in
      extractOne_loop sc query cutoff rest (S i)
        (if ge_score s cutoff && better then Some (choice, s, i) else result)
  end.

Definition extractOne (sc : scorer) (query : str) (choices : list str)
    (cutoff : Q) : option (str * Q * nat) :=
  extractOne_loop sc query cutoff choices 0%nat None.

(** Line 54: the scorers of the best-effort stage, in order. *)
Definition scorers : list scorer :=
  [ratio; partial_ratio; token_sort_ratio; token_set_ratio].

(** Lines 55-65: one iteration of the loop over the scorers. *)
Definition fuzzy_step (schedule_name : str) (threshold : Q)
    (best : MatchResult) (sc : scorer) : MatchResult :=
  match extractOne sc schedule_name activity_names threshold with
  | Some (matched_name, s, _) =>
      if gt_score s (snd best)
      then (activity_details_map !! matched_name, s)
      else best
  | None => best
  end.

(** Lines 51-67: the best-effort stage over a list of scorers. *)
Definition fuzzy_stage (schedule_name : str) (threshold : Q)
    (scs : list scorer) : MatchResult :=
  foldl (fuzzy_step schedule_name threshold) (None, 0%Q) scs.

(** Lines 29-67. *)
Definition find_best_match (schedule_name : str) (threshold : Q)
  : MatchResult :=
  match exact_stage schedule_name activity_names with
  | Some r => r
  | None =>
      match partial_stage schedule_name threshold activity_names with
      | Some r => r
      | None => fuzzy_stage schedule_name threshold scorers
      end
  end.

End Resolver.

(** The default [threshold=60]. *)
Definition default_threshold : Q := 60%Q.

(** ** The reconciliation report *)

Section Report.

Variable lower : str -> str.
Variables ratio partial_ratio token_sort_ratio token_set_ratio : scorer.
Variable catalog : list ActivityDetail.

(** The weekly schedule, a mapping from weekday name to day data. *)
Variable schedule : gmap (list N) DayData.

(** [activity.get('name', '')] *)
Definition entry_name (activity : ScheduleEntry) : str :=
  default [] (name activity).

(** [day_data.get('activities', [])] *)
Definition day_activities (day_data : DayData) : list ScheduleEntry :=
  default [] (activities day_data).

(** Lines 127-130. *)
Definition schedule_names : gset (list N) :=
  list_to_set
    (mjoin ((fun kv => entry_name <$> day_activities kv.2)
              <$> map_to_list schedule)).

(** Lines 132-136, for a set of schedule names. *)
Definition matched_titles (names : gset (list N)) : gset (list N) :=
  list_to_set
    (omap (fun schedule_name =>
             title <$> (find_best_match lower ratio partial_ratio
                          token_sort_ratio token_set_ratio catalog
                          schedule_name default_threshold).1)
          (elements names)).

Definition matched_activity_titles : gset (list N) :=
  matched_titles schedule_names.

(** Lines 138-140, for a set of schedule names. *)
Definition unmatched_for (names : gset (list N)) : list str :=
  filter (fun name => name ∉ matched_titles names) (activity_names catalog).

Definition unmatched_activities : list str :=
  unmatched_for schedule_names.

End Report.

(** ** Regular expressions

    The fragment of Python's [re] that the parser uses, matched with
    Brzozowski derivatives.  The classes [\d] and [\s] are given by the
    Unicode database, a parameter. *)

Inductive regex :=
| Void
| Eps
| Chr (c : N)
| Digit
| Space
| Cat (r1 r2 : regex)
| Alt (r1 r2 : regex)
| Star (r : regex).

(** [r?] *)
Definition Opt (r : regex) : regex := Alt r Eps.

Section Regex.

(** [\d] and [\s] on a code point. *)
Variables is_decimal is_space : N -> bool.

Fixpoint nullable (r : regex) : bool :=
  match r with
  | Void | Chr _ | Digit | Space => false
  | Eps | Star _ => true
  | Cat r1 r2 => nullable r1 && nullable r2
  | Alt r1 r2 => nullable r1 || nullable r2
  end.

Fixpoint deriv (c : N) (r : regex) : regex :=
  match r with
  | Void | Eps => Void
  | Chr a => if a =? c then Eps else Void
  | Digit => if is_decimal c then Eps else Void
  | Space => if is_space c then Eps else Void
  | Cat r1 r2 =>
      Alt (Cat (deriv c r1) r2) (if nullable r1 then deriv c r2 else Void)
  | Alt r1 r2 => Alt (deriv c r1) (deriv c r2)
  | Star r1 => Cat (deriv c r1) (Star r1)
  end.

(** The whole of [s] is in the language of [r]. *)
Fixpoint matches (r : regex) (s : str) : bool :=
  match s with
  | [] => nullable r
  | c :: s' => matches (deriv c r) s'
  end.

(** [re.match('^' + r + '$', s)]: [r] matches from the start of [s] up to
    its end, or up to a final newline. *)
Definition re_match_anchored (r : regex) (s : str) : bool :=
  matches (Cat r (Opt (Chr 10))) s.

End Regex.

(** ** The schedule-text parser *)

(** The state of the loop of lines 94-117. *)
Record ParseState := {
  entries : list ScheduleRow;
  current_days : option str;
  current_location : option str
}.

(** Lines 85-88, with the code points of the file as Python decodes it:
    the three tokens with diacritics are stored in the file as the
    sequences below, not as the letters with a comma or a breve. *)
Definition day_tokens : list str :=
  [ lit "luni"; lit "marti"; lit "mar" ++ [200; 8250] ++ lit "i";
    lit "miercuri"; lit "joi"; lit "vineri";
    lit "sambata";
    lit "s" ++ [195; 162] ++ lit "mb" ++ [196; 402] ++ lit "t" ++ [196; 402];
    lit "duminica"; lit "duminic" ++ [196; 402] ].

(** [\d{1,2}:\d{2}] *)
Definition hour_minute : regex :=
  Cat Digit (Cat (Opt Digit) (Cat (Chr 58) (Cat Digit Digit))).

(** [\d{1,2}:\d{2}(\s*-\s*\d{1,2}:\d{2})?] (line 83) *)
Definition time_regex : regex :=
  Cat hour_minute
      (Opt (Cat (Star Space) (Cat (Chr 45) (Cat (Star Space) hour_minute)))).

Section Parser.

(** [str.lower], [\d] and [\s] (also the whitespace of [str.strip]). *)
Variable lower : str -> str.
Variables is_decimal is_space : N -> bool.

(** [s.lstrip()], [s.rstrip()], [s.strip()] *)
Fixpoint lstrip (s : str) : str :=
  match s with
  | [] => []
  | c :: s' => if is_space c then lstrip s' else s
  end.

Definition rstrip (s : str) : str := reverse (lstrip (reverse s)).

Definition strip (s : str) : str := rstrip (lstrip s).

(** [s.split(sep)] for a one-character separator: the pieces between the
    separators, [cur] being the piece under construction (reversed). *)
Fixpoint split_loop (sep : N) (s : str) (cur : str) : list str :=
  match s with
  | [] => [reverse cur]
  | c :: s' =>
      if c =? sep then reverse cur :: split_loop sep s' []
      else split_loop sep s' (c :: cur)
  end.

Definition split (s : str) (sep : N) : list str := split_loop sep s [].

(** Lines 82-83. *)
Definition is_time_line (value : str) : bool :=
  re_match_anchored is_decimal is_space time_regex value.

(** Lines 90-92. *)
Definition is_days_line (value : str) : bool :=
  existsb (fun token => str_in token (lower value)) day_tokens.

(** Lines 98-115: the body of the loop, for one line.  [current_days or
    ''] is the current days, or the empty string when there are none. *)
Definition parse_step (st : ParseState) (line : str) : ParseState :=
  if is_days_line line then
    {| entries := entries st;
       current_days := Some line;
       current_location := None |}
  else if is_time_line line then
    if truthy (current_location st) then
      {| entries :=
           entries st ++
             [ {| row_days := default [] (current_days st);
                  row_location := default [] (current_location st);
                  row_time := line |} ];
         current_days := current_days st;
         current_location := None |}
    else st
  else
    {| entries := entries st;
       current_days := current_days st;
       current_location := Some line |}.

(** Lines 94-96. *)
Definition initial_state : ParseState :=
  {| entries := []; current_days := None; current_location := None |}.

(** Lines 98-117: the loop over the lines. *)
Definition parse_lines (lines : list str) (st : ParseState) : ParseState :=
  foldl parse_step st lines.

(** Line 73. *)
Definition clean_lines (program_text : str) : list str :=
  List.filter (fun l => match l with [] => false | _ => true end)
    (strip <$> split program_text 10).

(** Lines 77-78. *)
Definition drop_program (lines : list str) : list str :=
  match lines with
  | l :: rest => if str_eqb (lower l) (lit "program") then rest else lines
  | [] => lines
  end.

(** Lines 79-80. *)
Definition drop_title (activity_title : option str) (lines : list str)
  : list str :=
  match lines with
  | l :: rest =>
      if truthy activity_title
         && str_eqb (lower l) (lower (default [] activity_title))
      then rest else lines
  | [] => lines
  end.

(** Lines 69-117. *)
Definition parse_schedule_program (program_text : str)
    (activity_title : option str) : list ScheduleRow :=
  match program_text with
  | [] => []
  | _ =>
      match clean_lines program_text with
      | [] => []
      | lines =>
          entries
            (parse_lines (drop_title activity_title (drop_program lines))
                         initial_state)
      end
  end.

End Parser.

(** ** A concrete instance

    To run the code on concrete names the parameters have to be given.
    [Ascii] interprets [str.lower], [\d] and [\s] on ASCII text, where they
    agree with Python.  [RapidFuzz] gives executable models of the four
    scorers of the [rapidfuzz] library (which is not part of the
    repository), after the library's documentation: the normalized Indel
    similarity and its partial and token-based variants, without any
    preprocessing of the strings. *)

Module Ascii.

Definition lower_char (c : N) : N :=
  if (65 <=? c) && (c <=? 90) then c + 32 else c.

Definition lower (s : str) : str := lower_char <$> s.

Definition is_decimal (c : N) : bool := (48 <=? c) && (c <=? 57).

Definition is_space (c : N) : bool :=
  ((9 <=? c) && (c <=? 13)) || ((28 <=? c) && (c <=? 32)).

End Ascii.

Module RapidFuzz.

(** The length of a longest common subsequence. *)
Fixpoint lcs (a b : str) : nat :=
  match a with
  | [] => 0%nat
  | x :: a' =>
      (fix inner (b : str) : nat :=
         match b with
         | [] => 0%nat
         | y :: b' =>
             if x =? y then S (lcs a' b')
             else Nat.max (lcs a' b) (inner b')
         end) b
  end.

(** [100 * (1 - indel_distance / (len1 + len2))], that is
    [200 * lcs / (len1 + len2)]; 100 for two empty strings. *)
Definition ratio (s1 s2 : str) : Q :=
  match (length s1 + length s2)%nat with
  | O => 100%Q
  | S n => (Z.of_nat (200 * lcs s1 s2) # Pos.of_succ_nat n)%Q
  end.

Definition Qmax (a b : Q) : Q := if gt_score b a then b else a.

(** The substrings of [s] that an alignment of a string of length [n] can
    cover: the proper prefixes shorter than [n], the substrings of length
    [n], and the suffixes shorter than [n]. *)
Fixpoint suffix_windows (n : nat) (s : str) : list str :=
  match s with
  | [] => []
  | _ :: s' => take n s :: suffix_windows n s'
  end.

Definition windows (n : nat) (s : str) : list str :=
  ((fun k => take k s) <$> seq 1 (n - 1)) ++ suffix_windows n s.

Definition best_window (shorter longer : str) : Q :=
  foldl Qmax 0%Q (ratio shorter <$> windows (length shorter) longer).

(** [fuzz.partial_ratio]: the best [ratio] of the shorter string against
    a window of the longer one; two strings of the same length are tried
    both ways. *)
Definition partial_ratio (s1 s2 : str) : Q :=
  match s1, s2 with
  | [], [] => 100%Q
  | [], _ | _, [] => 0%Q
  | _, _ =>
      match Nat.compare (length s1) (length s2) with
      | Lt => best_window s1 s2
      | Gt => best_window s2 s1
      | Eq => Qmax (best_window s1 s2) (best_window s2 s1)
      end
  end.

(** [s.split()]: the maximal runs of non-whitespace characters. *)
Fixpoint tokens_loop (s : str) (cur : str) : list str :=
  match s with
  | [] => match cur with [] => [] | _ => [reverse cur] end
  | c :: s' =>
      if Ascii.is_space c
      then match cur with
           | [] => tokens_loop s' []
           | _ => reverse cur :: tokens_loop s' []
           end
      else tokens_loop s' (c :: cur)
  end.

Definition tokens (s : str) : list str := tokens_loop s [].

(** The order of Python on strings: lexicographic on code points. *)
Fixpoint str_leb (a b : str) : bool :=
  match a, b with
  | [], _ => true
  | _ :: _, [] => false
  | x :: a', y :: b' => (x <? y) || ((x =? y) && str_leb a' b')
  end.

Fixpoint insert_sorted (t : str) (l : list str) : list str :=
  match l with
  | [] => [t]
  | u :: l' => if str_leb t u then t :: l else u :: insert_sorted t l'
  end.

Definition sorted (l : list str) : list str := foldr insert_sorted [] l.

(** [' '.join(l)] *)
Fixpoint join (l : list str) : str :=
  match l with
  | [] => []
  | [t] => t
  | t :: l' => t ++ 32 :: join l'
  end.

(** [fuzz.token_sort_ratio]: [ratio] of the sorted tokens. *)
Definition token_sort_ratio (s1 s2 : str) : Q :=
  ratio (join (sorted (tokens s1))) (join (sorted (tokens s2))).

Definition mem (t : str) (l : list str) : bool :=
  existsb (str_eqb t) l.

Fixpoint dedup (l : list str) : list str :=
  match l with
  | [] => []
  | t :: l' => if mem t l' then dedup l' else t :: dedup l'
  end.

(** [100 - 100 * dist / lensum] *)
Definition norm_distance (dist lensum : nat) : Q :=
  match lensum with
  | O => 100%Q
  | S n => (100 - (Z.of_nat (100 * dist) # Pos.of_succ_nat n))%Q
  end.

(** [fuzz.token_set_ratio]: the token sets are split into their
    intersection and the two differences; the result is the best
    similarity among intersection+difference strings. *)
Definition token_set_ratio (s1 s2 : str) : Q :=
  let tokens_a := dedup (tokens s1) in
  let tokens_b := dedup (tokens s2) in
  match tokens_a, tokens_b with
  | [], _ | _, [] => 0%Q
  | _, _ =>
      let intersect := List.filter (fun t => mem t tokens_b) tokens_a in
      let diff_ab := List.filter (fun t => negb (mem t tokens_b)) tokens_a in
      let diff_ba := List.filter (fun t => negb (mem t tokens_a)) tokens_b in
      match intersect, diff_ab, diff_ba with
      | _ :: _, [], _ | _ :: _, _, [] => 100%Q
      | _, _, _ =>
          let ab := join (sorted diff_ab) in
          let ba := join (sorted diff_ba) in
          let sect_len := length (join (sorted intersect)) in
          let sep := match sect_len with O => 0%nat | _ => 1%nat end in
          let sect_ab_len := (sect_len + sep + length ab)%nat in
          let sect_ba_len := (sect_len + sep + length ba)%nat in
          let dist := (length ab + length ba - 2 * lcs ab ba)%nat in
          let result := norm_distance dist (sect_ab_len + sect_ba_len) in
          match sect_len with
          | O => result
          | _ =>
              Qmax (Qmax result
                      (norm_distance (sep + length ab)
                                     (sect_len + sect_ab_len)))
                   (norm_distance (sep + length ba) (sect_len + sect_ba_len))
          end
      end
  end.

End RapidFuzz.

(** The resolver and the parser on the concrete instance. *)
Definition resolve (catalog : list ActivityDetail) (schedule_name : str)
    (threshold : Q) : option ActivityDetail * Q :=
  find_best_match Ascii.lower RapidFuzz.ratio RapidFuzz.partial_ratio
    RapidFuzz.token_sort_ratio RapidFuzz.token_set_ratio
    catalog schedule_name threshold.

Definition parse (program_text : str) (activity_title : option str)
  : list ScheduleRow :=
  parse_schedule_program Ascii.lower Ascii.is_decimal Ascii.is_space
    program_text activity_title.

(** A catalog record with the given title and nothing else. *)
Definition activity (t : string) (u : string) : ActivityDetail :=
  {| title := lit t; description := []; url := lit u;
     tier := None; program := None |}.

(** A schedule entry with the given name. *)
Definition entry (n : string) : ScheduleEntry :=
  {| name := Some (lit n); location := []; time := [] |}.

(** ** Notions used in the statements *)

(** [c], with score [s], is the first choice of maximal score for the
    scorer, and its score reaches the cutoff; [pre] are the choices before
    it and [post] those after it. *)
Definition first_best_at (sc : scorer) (query : str) (cutoff : Q)
    (pre : list str) (c : str) (post : list str) (s : Q) : Prop :=
  s = sc query c /\ (cutoff <= s)%Q /\
  (forall c', c' ∈ pre -> (sc query c' < s)%Q) /\
  (forall c', c' ∈ post -> (sc query c' <= s)%Q).

(** What the loop of [extractOne] has established after the choices
    [done]. *)
Definition extract_inv (sc : scorer) (query : str) (cutoff : Q)
    (done : list str) (result : option (str * Q * nat)) : Prop :=
  match result with
  | None => forall c, c ∈ done -> (sc query c < cutoff)%Q
  | Some (c, s, i) =>
      exists pre post,
        done = pre ++ c :: post /\ i = length pre /\
        first_best_at sc query cutoff pre c post s
  end.

(** A character that some leaf of the expression accepts. *)
Fixpoint may_accept (is_decimal is_space : N -> bool) (r : regex) (c : N)
  : bool :=
  match r with
  | Void | Eps => false
  | Chr a => a =? c
  | Digit => is_decimal c
  | Space => is_space c
  | Cat r1 r2 | Alt r1 r2 =>
      may_accept is_decimal is_space r1 c || may_accept is_decimal is_space r2 c
  | Star r1 => may_accept is_decimal is_space r1 c
  end.

(** An expression that is empty by its shape. *)
Fixpoint is_void (r : regex) : bool :=
  match r with
  | Void => true
  | Cat r1 r2 => is_void r1 || is_void r2
  | Alt r1 r2 => is_void r1 && is_void r2
  | _ => false
  end.

(** The weekday tokens as the specification has them: the names of the
    days with their diacritic variants, written with the letters [ț]
    (U+021B), [â] (U+00E2) and [ă] (U+0103). *)
Definition spec_day_tokens : list str :=
  [ lit "luni"; lit "marti"; lit "mar" ++ [539] ++ lit "i";
    lit "miercuri"; lit "joi"; lit "vineri";
    lit "sambata";
    lit "s" ++ [226] ++ lit "mb" ++ [259] ++ lit "t" ++ [259];
    lit "duminica"; lit "duminic" ++ [259] ].

(** The weekday tokens of the source that are written in ASCII. *)
Definition ascii_day_tokens : list str :=
  [ lit "luni"; lit "marti"; lit "miercuri"; lit "joi"; lit "vineri";
    lit "sambata"; lit "duminica" ].

(** The three kinds of line. *)
Inductive LineKind := TimeLine | DaysLine | LocationLine.

Section Classifier.

Variable lower : str -> str.
Variables is_decimal is_space : N -> bool.

(** The classification that the loop body performs (lines 99-115): the
    days test comes first, the time test second. *)
Definition classify (line : str) : LineKind :=
  if is_days_line lower line then DaysLine
  else if is_time_line is_decimal is_space line then TimeLine
  else LocationLine.

(** The days test as the specification words it: the line contains,
    case-insensitively, a weekday name or one of its diacritic variants. *)
Definition is_days_line_spec (value : str) : bool :=
  existsb (fun token => str_in token (lower value)) spec_day_tokens.

(** The classification as the specification words it: the time test
    comes first, the days test of the specification is made only on a
    line that is not a time line. *)
Definition classify_spec (line : str) : LineKind :=
  if is_time_line is_decimal is_space line then TimeLine
  else if is_days_line_spec line then DaysLine
  else LocationLine.

(** The row that a time line emits in a state. *)
Definition emitted_row (st : ParseState) (line : str) : ScheduleRow :=
  {| row_days := default [] (current_days st);
     row_location := default [] (current_location st);
     row_time := line |}.

(** The state machine as the specification words it, on top of
    [classify_spec]. *)
Definition parse_step_spec (st : ParseState) (line : str) : ParseState :=
  match classify_spec line with
  | DaysLine =>
      {| entries := entries st;
         current_days := Some line;
         current_location := None |}
  | TimeLine =>
      if truthy (current_location st) then
        {| entries := entries st ++ [emitted_row st line];
           current_days := current_days st;
           current_location := None |}
      else st
  | LocationLine =>
      {| entries := entries st;
         current_days := current_days st;
         current_location := Some line |}
  end.

(** The line is a time line (and no days line) met while a location is
    set. *)
Definition emits (st : ParseState) (line : str) : bool :=
  negb (is_days_line lower line)
  && is_time_line is_decimal is_space line
  && truthy (current_location st).

(** The lines of a run that emit a row, in source order. *)
Fixpoint emitting_lines (lines : list str) (st : ParseState) : list str :=
  match lines with
  | [] => []
  | line :: rest =>
      (if emits st line then [line] else [])
      ++ emitting_lines rest (parse_step lower is_decimal is_space st line)
  end.

End Classifier.

(** The characters of a time line: digits, whitespace, colon, dash (and a
    final newline). *)
Definition time_char (is_decimal is_space : N -> bool) (c : N) : bool :=
  is_decimal c || is_space c || (c =? 58) || (c =? 45) || (c =? 10).

(** The ASCII lower-case letters. *)
Definition ascii_lower_letter (c : N) : bool := (97 <=? c) && (c <=? 122).

(** A row made of lines of a text: its time is a time line, its location a
    non-empty location line, its days are empty or a days line. *)
Definition row_of_lines (lower : str -> str) (is_decimal is_space : N -> bool)
    (lines : list str) (row : ScheduleRow) : Prop :=
  (row_time row ∈ lines /\
   is_time_line is_decimal is_space (row_time row) = true /\
   is_days_line lower (row_time row) = false) /\
  (row_location row ∈ lines /\
   row_location row <> [] /\
   is_time_line is_decimal is_space (row_location row) = false /\
   is_days_line lower (row_location row) = false) /\
  (row_days row = [] \/
   (row_days row ∈ lines /\ is_days_line lower (row_days row) = true)).

(** A state of the loop whose rows, location and days come from the lines
    of a text. *)
Definition state_of_lines (lower : str -> str) (is_decimal is_space : N -> bool)
    (lines : list str) (st : ParseState) : Prop :=
  Forall (row_of_lines lower is_decimal is_space lines) (entries st) /\
  (forall l, current_location st = Some l ->
             l ∈ lines /\
             is_time_line is_decimal is_space l = false /\
             is_days_line lower l = false) /\
  (forall d, current_days st = Some d ->
             d ∈ lines /\ is_days_line lower d = true).

(** The time lines and the location lines of a text. *)
Definition emitting_kind (lower : str -> str) (is_decimal is_space : N -> bool)
    (line : str) : bool :=
  negb (is_days_line lower line) && is_time_line is_decimal is_space line.

Definition location_kind (lower : str -> str) (is_decimal is_space : N -> bool)
    (line : str) : bool :=
  negb (is_days_line lower line)
  && negb (is_time_line is_decimal is_space line).

(** [1] for a location that is set, [0] otherwise. *)
Definition pending (st : ParseState) : nat :=
  if truthy (current_location st) then 1%nat else 0%nat.

(** * The statistics of [generate_html.py] *)

(** Line 369. *)
Definition days : list str :=
  [lit "Monday"; lit "Tuesday"; lit "Wednesday"; lit "Thursday";
   lit "Friday"; lit "Saturday"; lit "Sunday"].

Section Statistics.

Variable lower : str -> str.
Variables ratio partial_ratio token_sort_ratio token_set_ratio : scorer.
Variable catalog : list ActivityDetail.
Variable schedule : gmap (list N) DayData.

(** Line 760: [sum(len(schedule[day]['activities']) for day in days if day
    in schedule)].  [None] stands for the [KeyError] that a day without
    ['activities'] raises. *)
Definition total_step (acc : option nat) (day : str) : option nat :=
  match schedule !! day with
  | None => acc
  | Some day_data =>
      match acc, activities day_data with
      | Some n, Some l => Some (n + length l)%nat
      | _, _ => None
      end
  end.

Definition total_activities : option nat := foldl total_step (Some 0%nat) days.

(** Lines 764-767: the body of the inner loop; [activity['name']] raises a
    [KeyError] when the name is missing. *)
Definition count_step (acc : option nat) (activity : ScheduleEntry)
  : option nat :=
  match acc, name activity with
  | Some n, Some schedule_name =>
      match (find_best_match lower ratio partial_ratio token_sort_ratio
               token_set_ratio catalog schedule_name default_threshold).1 with
      | Some _ => Some (S n)
      | None => Some n
      end
  | _, _ => None
  end.

(** Lines 762-767: the body of the outer loop. *)
Definition day_step (acc : option nat) (day : str) : option nat :=
  match schedule !! day with
  | None => acc
  | Some day_data =>
      match acc, activities day_data with
      | Some n, Some l => foldl count_step (Some n) l
      | _, _ => None
      end
  end.

(** Lines 761-767. *)
Definition matched_count : option nat := foldl day_step (Some 0%nat) days.

End Statistics.

(** * The tier colours *)

(** [scrape_schedule.py], lines 8-12. *)
Definition COLOR_TO_TIER : gmap (list N) (list N) :=
  <[lit "#00C754" := lit "ELYSIUM"]>
    (<[lit "#43B2D2" := lit "THE PALM"]>
       (<[lit "#FE216E" := lit "GALAXY"]> ∅)).

(** [generate_html.py], lines 120-124. *)
Definition TIER_COLORS : gmap (list N) (list N) :=
  <[lit "ELYSIUM" := lit "#00C754"]>
    (<[lit "THE PALM" := lit "#43B2D2"]>
       (<[lit "GALAXY" := lit "#FE216E"]> ∅)).

(** [TIER_COLORS.get(tier, '#cccccc')] (lines 418 and 597). *)
Definition border_color (tier : str) : str :=
  default (lit "#cccccc") (TIER_COLORS !! tier).

(** * [scrape_activities.py] *)

(** [s.replace(old, new)], for a non-empty [old]: the occurrences of [old]
    are replaced from left to right; [skip] is the number of characters
    of the occurrence found last that are still to be passed over. *)
Fixpoint replace_loop (old new : str) (s : str) (skip : nat) : str :=
  match s with
  | [] => []
  | c :: s' =>
      match skip with
      | S k => replace_loop old new s' k
      | O =>
          if startswith s old
          then new ++ replace_loop old new s' (length old - 1)
          else c :: replace_loop old new s' 0
      end
  end.

(** [s.replace(old, new)]; an empty [old] matches between the characters. *)
Definition replace (s old new : str) : str :=
  match old with
  | [] => new ++ mjoin ((fun c => c :: new) <$> s)
  | _ => replace_loop old new s 0
  end.

(** What the scraper reads of an activity container: the text of its [h3]
    heading, if it has one, and its whole text. *)
Record Container := {
  heading : option str;
  all_text : str
}.

(** An entry of the list of all activities; the tier may be missing. *)
Record ActivityItem := {
  item_name : str;
  item_location : str;
  item_tier : option str
}.

Section ScrapeActivities.

Variable is_space : N -> bool.

(** Lines 40-66: the tier and the location in the rest of the text; an
    empty tier stands for none. *)
Definition tier_and_location (remaining_text : str) : str * str :=
  match remaining_text with
  | [] => ([], [])
  | _ =>
      if str_in (lit "THE PALM") remaining_text then
        (lit "THE PALM",
         strip is_space (replace remaining_text (lit "THE PALM") []))
      else if str_in (lit "GALAXY") remaining_text then
        (lit "GALAXY",
         strip is_space (replace remaining_text (lit "GALAXY") []))
      else if str_in (lit "ELYSIUM") remaining_text then
        (lit "ELYSIUM",
         strip is_space (replace remaining_text (lit "ELYSIUM") []))
      else ([], remaining_text)
  end.

(** Lines 32-75: the body of the loop, for one container; a container
    without heading is passed over. *)
Definition parse_container (container : Container) : option ActivityItem :=
  match heading container with
  | None => None
  | Some activity_name =>
      let remaining_text :=
        strip is_space (replace (all_text container) activity_name []) in
      let (tier, location) := tier_and_location remaining_text in
      Some {| item_name := activity_name;
              item_location := location;
              item_tier := match tier with [] => None | _ => Some tier end |}
  end.

(** Lines 24-77, on the containers that the page holds. *)
Definition scrape_all_activities (containers : list Container)
  : list ActivityItem :=
  omap parse_container containers.

End ScrapeActivities.

(** * [scrape_activity_details.py] *)

Section DetailTier.

Variable lower : str -> str.

(** Lines 116-126: the tier that the style of one [div] shows. *)
Definition style_tier (style : str) : option str :=
  if str_in (lit "#6141f3") (lower style)
     || str_in (lit "rgb(97, 65, 243)") style
  then Some (lit "THE PALM")
  else if str_in (lit "#FE216E") (lower style)
          || str_in (lit "rgb(254, 33, 110)") style
  then Some (lit "GALAXY")
  else if str_in (lit "#00C754") (lower style)
          || str_in (lit "rgb(0, 199, 84)") style
  then Some (lit "ELYSIUM")
  else None.

(** Line 114: [lambda x: x and 'border-left' in str(x)], on the [style]
    attribute of a [div] ([None] when it has none). *)
Definition has_border_left (x : option str) : bool :=
  truthy x && str_in (lit "border-left") (default [] x).

(** Lines 115-126: the loop over the [div]s, left at the first one that
    shows a tier. *)
Fixpoint tier_loop (tier_divs : list str) : option str :=
  match tier_divs with
  | [] => None
  | style :: rest =>
      match style_tier style with
      | Some tier => Some tier
      | None => tier_loop rest
      end
  end.

(** Lines 112-126, on the [style] attributes of the [div]s of the page. *)
Definition page_tier (styles : list (option str)) : option str :=
  tier_loop (omap (fun x => if has_border_left x then x else None) styles).

End DetailTier.

(** A slice index: a negative index counts from the end, and every index
    is brought into [0 .. len]. *)
Definition slice_index (len i : Z) : Z :=
  if (i <? 0)%Z then Z.max 0 (i + len) else Z.min i len.

(** [l[start:stop]] *)
Definition py_slice {A} (l : list A) (start stop : Z) : list A :=
  let len := Z.of_nat (length l) in
  let a := slice_index len start in
  let b := slice_index len stop in
  take (Z.to_nat (b - a)) (drop (Z.to_nat a) l).

(** The truth value of an optional integer argument. *)
Definition truthy_int (o : option Z) : bool :=
  match o with
  | Some z => negb (z =? 0)%Z
  | None => false
  end.

(** Lines 155-167 of [main]: the activities selected by the optional
    arguments [start] and [end]. *)
Definition select_range {A} (activities : list A) (start stop : option Z)
  : list A :=
  let (start_idx, end_idx) :=
    if truthy_int start && truthy_int stop
    then ((default 0 start - 1)%Z, default 0%Z stop)
    else (0%Z, Z.of_nat (length activities)) in
  py_slice activities start_idx end_idx.

(** * [scrape_schedule.py] *)

(** [s.rsplit(sep, 1)] for a one-character separator: the text before the
    last separator and the text after it; [None] stands for the list of
    one part that a text without separator gives. *)
Fixpoint rsplit1 (sep : N) (s : str) : option (str * str) :=
  match s with
  | [] => None
  | c :: s' =>
      match rsplit1 sep s' with
      | Some (a, b) => Some (c :: a, b)
      | None => if c =? sep then Some ([], s') else None
      end
  end.

(** The search of the regular-expression engine, written out for the
    quantifiers of line 114.  [k] is the match of the rest of the
    pattern; it gets the text that is left. *)

(** [p*], greedy: one more character is tried first, and the rest of the
    pattern here if that fails. *)
Fixpoint greedy_star {R} (p : N -> bool) (s : str) (k : str -> option R)
  : option R :=
  match s with
  | c :: s' =>
      if p c
      then match greedy_star p s' k with
           | Some r => Some r
           | None => k s
           end
      else k s
  | [] => k s
  end.

(** [(p* )], greedy, in a group: [acc] is the text of the group so far. *)
Fixpoint greedy_star_group {R} (p : N -> bool) (acc s : str)
    (k : str -> str -> option R) : option R :=
  match s with
  | c :: s' =>
      if p c
      then match greedy_star_group p (acc ++ [c]) s' k with
           | Some r => Some r
           | None => k acc s
           end
      else k acc s
  | [] => k acc s
  end.

(** [(p+?)], lazy, in a group: after each character the rest of the
    pattern is tried first, and one more character if that fails. *)
Fixpoint lazy_plus_group {R} (p : N -> bool) (acc s : str)
    (k : str -> str -> option R) : option R :=
  match s with
  | c :: s' =>
      if p c
      then match k (acc ++ [c]) s' with
           | Some r => Some r
           | None => lazy_plus_group p (acc ++ [c]) s' k
           end
      else None
  | [] => None
  end.

(** [$]: the end of the text, or the place before its final newline. *)
Definition at_end (s : str) : bool :=
  match s with
  | [] => true
  | [c] => c =? 10
  | _ => false
  end.

(** An activity of the schedule; the key ['tier'] may be missing. *)
Record Activity := {
  act_name : str;
  act_location : str;
  act_time : str;
  act_tier : option str
}.

(** What the scraper reads of a [div] of an activity: the colour that the
    regular expression of line 95 finds in its style, if any, and its
    text. *)
Record ActivityDiv := {
  div_color : option str;
  div_text : str
}.

(** What the scraper reads of a tab panel: its [data-tab-id], the text of
    its first heading (empty without heading), the text of the navigation
    link of the tab (if there is one), and its activity [div]s. *)
Record TabPanel := {
  tab_id : option str;
  tab_theme : str;
  tab_nav : option str;
  tab_divs : list ActivityDiv
}.

(** A day of the schedule. *)
Record DaySchedule := {
  day_theme : str;
  day_list : list Activity
}.

(** Lines 44-52, in the order of the dictionary. *)
Definition day_mapping : list (str * str) :=
  [(lit "luni", lit "Monday"); (lit "marti", lit "Tuesday");
   (lit "miercuri", lit "Wednesday"); (lit "joi", lit "Thursday");
   (lit "vineri", lit "Friday"); (lit "sambata", lit "Saturday");
   (lit "duminica", lit "Sunday")].

(** Line 33; the days of line 32 are those of [days]. *)
Definition empty_schedule : gmap (list N) DaySchedule :=
  list_to_map ((fun day => (day, {| day_theme := []; day_list := [] |}))
                 <$> days).

Section ScrapeSchedule.

(** [str.lower], [str.upper] and [\s] (also the whitespace of
    [str.strip]). *)
Variables lower upper : str -> str.
Variable is_space : N -> bool.

(** Line 114: [re.match(r'^(.+?)\s*\(([^)]+)\)\s*$', s)], the groups 1 and
    2 of the match. *)
Definition name_location_match (s : str) : option (str * str) :=
  lazy_plus_group (fun c => negb (c =? 10)) [] s (fun name rest =>
    greedy_star is_space rest (fun rest =>
      match rest with
      | c :: rest =>
          if c =? 40 then
            match rest with
            | d :: rest =>
                if negb (d =? 41) then
                  greedy_star_group (fun c => negb (c =? 41)) [d] rest
                    (fun location rest =>
                       match rest with
                       | e :: rest =>
                           if e =? 41 then
                             greedy_star is_space rest (fun rest =>
                               if at_end rest
                               then Some (name, location)
                               else None)
                           else None
                       | [] => None
                       end)
                else None
            | [] => None
            end
          else None
      | [] => None
      end)).

(** Lines 96-99: the tier of the colour. *)
Definition color_tier (color : option str) : option str :=
  match color with
  | Some color => COLOR_TO_TIER !! upper color
  | None => None
  end.

(** Lines 104-111: the part of the activity and the part of the time. *)
Definition activity_and_time (text : str) : str * str :=
  match rsplit1 41 text with
  | Some (before, after) => (before ++ [41], strip is_space after)
  | None => (text, [])
  end.

(** Lines 93-128: the body of the loop, for one [div]; [None] when no
    activity is appended. *)
Definition parse_activity_div (activity_div : ActivityDiv)
  : option Activity :=
  let tier := color_tier (div_color activity_div) in
  let (activity_part, time_part) :=
    activity_and_time (div_text activity_div) in
  match name_location_match activity_part with
  | Some (name, location) =>
      Some {| act_name := strip is_space name;
              act_location := strip is_space location;
              act_time := time_part;
              act_tier := if truthy tier then tier else None |}
  | None => None
  end.

(** Lines 66-70: the first day whose name is in the theme. *)
Definition theme_day (theme : str) : option str :=
  List.find (fun day => str_in day theme) days.

(** Lines 77-81: the day of the first Romanian name in the text of the
    navigation link. *)
Definition nav_day (nav_text : str) : option str :=
  snd <$> List.find (fun item => str_in (fst item) nav_text) day_mapping.

(** Lines 66-81. *)
Definition current_day (tab : TabPanel) : option str :=
  match theme_day (tab_theme tab) with
  | Some day => Some day
  | None =>
      if truthy (tab_id tab) then
        match tab_nav tab with
        | Some text => nav_day (lower text)
        | None => None
        end
      else None
  end.

(** Lines 54-128: the body of the loop, for one tab panel; [None] stands
    for a [KeyError]. *)
Definition scrape_tab (schedule : gmap (list N) DaySchedule)
    (tab : TabPanel) : option (gmap (list N) DaySchedule) :=
  match tab_theme tab with
  | [] => Some schedule
  | theme =>
      match current_day tab with
      | None => Some schedule
      | Some day =>
          match schedule !! day with
          | None => None
          | Some data =>
              Some (<[day := {| day_theme := theme;
                                day_list :=
                                  day_list data
                                  ++ omap parse_activity_div (tab_divs tab)
                             |}]> schedule)
          end
      end
  end.

(** Lines 33-128: the schedule after the tab panels. *)
Definition scrape_tabs (tabs : list TabPanel)
  : option (gmap (list N) DaySchedule) :=
  foldl (fun acc tab => acc ≫= fun schedule => scrape_tab schedule tab)
        (Some empty_schedule) tabs.

End ScrapeSchedule.

(** ** The second way of reading the page (lines 130-190) *)

(** The comparison of two activities in [activity not in ...]: they are
    dictionaries with the same keys and values. *)
#[global] Instance Activity_eq_dec : EqDecision Activity :=
  ltac:(solve_decision).

(** Line 144: the names of the days in small letters. *)
Definition day_keywords : list str :=
  [lit "monday"; lit "tuesday"; lit "wednesday"; lit "thursday";
   lit "friday"; lit "saturday"; lit "sunday"].

(** A minimum of a list, with the value for the empty list. *)
Definition min_or (default_value : nat) (l : list nat) : nat :=
  match l with
  | [] => default_value
  | i :: rest => foldl Nat.min i rest
  end.

Section Fallback.

Variable lower : str -> str.
Variables is_decimal is_space : N -> bool.

(** [re.match(r, s)] without a group: some text at the start of [s] is in
    the language of [r]. *)
Fixpoint re_match_start (r : regex) (s : str) : bool :=
  nullable r
  || match s with
     | [] => false
     | c :: s' => re_match_start (deriv is_decimal is_space c r) s'
     end.

(** Line 176: [re.match(r'^\d{1,2}:\d{2}', next_line)]. *)
Definition starts_with_time (next_line : str) : bool :=
  re_match_start hour_minute next_line.

(** Line 144: the test of a heading of a day. *)
Definition is_heading (day line : str) : bool :=
  str_in day line
  && (length line <? 50)%nat
  && existsb (fun keyword => str_in keyword (lower line)) day_keywords.

(** Lines 142-149: the body of the inner loop of the first pass, for the
    line [line] of index [idx] and one day; the state is
    [section_start_index] and the schedule, and [None] stands for a
    [KeyError]. *)
Definition mark_day (idx : nat) (line : str)
    (state : gmap (list N) nat * gmap (list N) DaySchedule) (day : str)
  : option (gmap (list N) nat * gmap (list N) DaySchedule) :=
  let (section_start_index, schedule) := state in
  if is_heading day line then
    match section_start_index !! day with
    | Some _ => Some state
    | None =>
        match schedule !! day with
        | None => None
        | Some data =>
            Some (<[day := idx]> section_start_index,
                  if truthy (Some (day_theme data)) then schedule
                  else <[day := {| day_theme := line;
                                   day_list := day_list data |}]> schedule)
        end
    end
  else Some state.

(** Lines 141-149: the first pass, from the line of index [idx] on. *)
Fixpoint first_pass (idx : nat) (lines : list str)
    (state : gmap (list N) nat * gmap (list N) DaySchedule)
  : option (gmap (list N) nat * gmap (list N) DaySchedule) :=
  match lines with
  | [] => Some state
  | line :: rest =>
      match foldl (fun acc day => acc ≫= fun st => mark_day idx line st day)
                  (Some state) days with
      | None => None
      | Some state' => first_pass (S idx) rest state'
      end
  end.

(** Lines 158-159: where the section of a day ends. *)
Definition next_day_indices (section_start_index : gmap (list N) nat)
    (start_idx : nat) : list nat :=
  omap (fun d =>
          match section_start_index !! d with
          | Some i => if (start_idx <? i)%nat then Some i else None
          | None => None
          end) days.

Definition section_end (section_start_index : gmap (list N) nat)
    (start_idx len : nat) : nat :=
  min_or len (next_day_indices section_start_index start_idx).

(** Lines 163-189: the loop over the lines of a section.  [n] is
    [end_idx - i], [rest] are the lines from the index [i] on, and
    [activities] is the list of the day; [None] stands for an
    [IndexError]. *)
Fixpoint section_loop (n : nat) (rest : list str)
    (activities : list Activity) : option (list Activity) :=
  match n with
  | O => Some activities
  | S n' =>
      match rest with
      | [] => None
      | line :: rest' =>
          match name_location_match is_space line with
          | None => section_loop n' rest' activities
          | Some (name, location) =>
              let next_time :=
                match rest' with
                | next_line :: _ =>
                    if starts_with_time (strip is_space next_line)
                    then Some (strip is_space next_line) else None
                | [] => None
                end in
              let activity :=
                {| act_name := strip is_space name;
                   act_location := strip is_space location;
                   act_time := default [] next_time;
                   act_tier := None |} in
              let activities' :=
                if bool_decide (activity ∈ activities) then activities
                else activities ++ [activity] in
              match next_time with
              | None => section_loop n' rest' activities'
              | Some _ =>
                  match n' with
                  | O => Some activities'
                  | S n'' => section_loop n'' (tail rest') activities'
                  end
              end
          end
      end
  end.

(** Lines 152-189: the body of the second pass, for one day.  The day of a
    section has been looked up in the schedule by the first pass. *)
Definition fallback_day (lines : list str)
    (section_start_index : gmap (list N) nat)
    (schedule : gmap (list N) DaySchedule) (day : str)
  : option (gmap (list N) DaySchedule) :=
  match section_start_index !! day with
  | None => Some schedule
  | Some start_idx =>
      let end_idx :=
        section_end section_start_index start_idx (length lines) in
      match schedule !! day with
      | None => None
      | Some data =>
          match section_loop (end_idx - (start_idx + 1))
                  (drop (start_idx + 1) lines) (day_list data) with
          | None => None
          | Some activities =>
              Some (<[day := {| day_theme := day_theme data;
                                day_list := activities |}]> schedule)
          end
      end
  end.

(** Lines 132-189, on the text of the page. *)
Definition fallback (text_content : str)
    (schedule : gmap (list N) DaySchedule)
  : option (gmap (list N) DaySchedule) :=
  let lines := clean_lines is_space text_content in
  match first_pass 0 lines (∅, schedule) with
  | None => None
  | Some (section_start_index, schedule') =>
      foldl (fun acc day =>
               acc ≫= fun sched =>
                 fallback_day lines section_start_index sched day)
            (Some schedule') days
  end.

(** Line 131: the number of the activities of the seven days. *)
Definition activity_total (schedule : gmap (list N) DaySchedule)
  : option nat :=
  foldl (fun acc day =>
           acc ≫= fun n =>
             (fun data => (n + length (day_list data))%nat)
               <$> schedule !! day)
        (Some 0%nat) days.

(** Lines 31-191, on what the page holds: its tab panels and its text. *)
Definition parse_therme_schedule (upper : str -> str)
    (tabs : list TabPanel) (text_content : str)
  : option (gmap (list N) DaySchedule) :=
  match scrape_tabs lower upper is_space tabs with
  | None => None
  | Some schedule =>
      match activity_total schedule with
      | None => None
      | Some total =>
          if (total <? 10)%nat then fallback text_content schedule
          else Some schedule
      end
  end.

End Fallback.

(** What the second way of reading may do to the schedule: the keys stay,
    a theme that is not empty stays, and a day gets new activities after
    those it has, each of them once, none that it has already, and all
    without tier. *)
Definition day_extended (data data' : DaySchedule) : Prop :=
  (day_theme data <> [] -> day_theme data' = day_theme data) /\
  exists added,
    day_list data' = day_list data ++ added /\
    NoDup added /\
    forall a, a ∈ added -> (a ∉ day_list data) /\ act_tier a = None.

Definition schedule_extended
    (schedule schedule' : gmap (list N) DaySchedule) : Prop :=
  forall day,
    match schedule !! day, schedule' !! day with
    | Some data, Some data' => day_extended data data'
    | None, None => True
    | _, _ => False
    end.

(** [str.upper] on ASCII text. *)
Definition ascii_upper (s : str) : str :=
  (fun c => if (97 <=? c) && (c <=? 122) then c - 32 else c) <$> s.

Section TabNotions.

Variable lower : str -> str.

(** The tab panels that the loop files under a day: those with a theme
    whose day it is. *)
Definition tab_of_day (day : str) (tab : TabPanel) : bool :=
  truthy (Some (tab_theme tab))
  && bool_decide (current_day lower tab = Some day).

Definition day_tabs (day : str) (tabs : list TabPanel) : list TabPanel :=
  List.filter (tab_of_day day) tabs.

(** The content of a day after these tab panels, for a loop that starts
    from the content [data]. *)
Definition day_after (upper : str -> str) (is_space : N -> bool)
    (day : str) (tabs : list TabPanel) (data : DaySchedule) : DaySchedule :=
  {| day_theme :=
       default (day_theme data) (tab_theme <$> last (day_tabs day tabs));
     day_list :=
       day_list data
       ++ omap (parse_activity_div upper is_space)
               (mjoin (tab_divs <$> day_tabs day tabs)) |}.

End TabNotions.

(** A [div] of the schedule page and the activity it holds. *)
Definition aqua_gym_div : ActivityDiv :=
  {| div_color := Some (lit "#fe216e");
     div_text := lit "Aqua Gym (Wave Pool)10:00 - 10:30" |}.

Definition aqua_gym : Activity :=
  {| act_name := lit "Aqua Gym";
     act_location := lit "Wave Pool";
     act_time := lit "10:00 - 10:30";
     act_tier := Some (lit "GALAXY") |}.

(** The tab panel of a Monday. *)
Definition monday_tab : TabPanel :=
  {| tab_id := Some (lit "1");
     tab_theme := lit "Monday Relax";
     tab_nav := Some (lit "Luni");
     tab_divs := [aqua_gym_div] |}.

(** The text of a page with the sections of a Monday and a Tuesday. *)
Definition sample_page : str :=
  lit "Monday Relax" ++ [10] ++ lit "Aqua Gym (Wave Pool)" ++ [10]
  ++ lit "10:00 - 10:30" ++ [10] ++ lit "Yoga (Garden)" ++ [10]
  ++ lit "Tuesday Fun" ++ [10] ++ lit "Sauna Ritual (Himalaya)" ++ [10]
  ++ lit "9:30".

(** The schedule after the tab panel of the Monday, and the schedule that
    the scraper makes of this panel and of the text. *)
Definition sample_primary : gmap (list N) DaySchedule :=
  <[lit "Monday" := {| day_theme := lit "Monday Relax";
                       day_list := [aqua_gym] |}]> empty_schedule.

Definition sample_final : gmap (list N) DaySchedule :=
  <[lit "Monday" :=
      {| day_theme := lit "Monday Relax";
         day_list :=
           [aqua_gym;
            {| act_name := lit "Aqua Gym"; act_location := lit "Wave Pool";
               act_time := lit "10:00 - 10:30"; act_tier := None |};
            {| act_name := lit "Yoga"; act_location := lit "Garden";
               act_time := []; act_tier := None |}] |}]>
    (<[lit "Tuesday" :=
         {| day_theme := lit "Tuesday Fun";
            day_list :=
              [{| act_name := lit "Sauna Ritual";
                  act_location := lit "Himalaya";
                  act_time := lit "9:30"; act_tier := None |}] |}]>
       empty_schedule).

(** [str.isspace] on a code point: the whitespace of Unicode, at which
    [str.split] cuts a text into its tokens. *)
Definition unicode_space (c : N) : bool :=
  ((9 <=? c) && (c <=? 13)) || ((28 <=? c) && (c <=? 32))
  || (c =? 133) || (c =? 160) || (c =? 5760)
  || ((8192 <=? c) && (c <=? 8202))
  || (c =? 8232) || (c =? 8233) || (c =? 8239) || (c =? 8287)
  || (c =? 12288).

(** The ASCII capital letters. *)
Definition ascii_upper_letter (c : N) : bool := (65 <=? c) && (c <=? 90).

(** The three tiers. *)
Definition tiers : list str := [lit "THE PALM"; lit "GALAXY"; lit "ELYSIUM"].

(** * Facts *)

(** Case analysis on a membership in an explicit list. *)
Ltac elem_cases H :=
  repeat (apply elem_of_cons in H as [->|H]);
  try (by apply elem_of_nil in H).

(** ** Scores *)

Lemma ge_score_true (a b : Q) : ge_score a b = true <-> (b <= a)%Q.
Proof. unfold ge_score. apply Qle_bool_iff. Qed.

Lemma ge_score_false (a b : Q) : ge_score a b = false <-> (a < b)%Q.
Proof.
  unfold ge_score. split; intros H.
  - apply Qnot_le_lt. intros Hle. apply Qle_bool_iff in Hle. congruence.
  - destruct (Qle_bool b a) eqn:E; [|done].
    apply Qle_bool_iff in E. exfalso. by apply (Qlt_not_le a b).
Qed.

Lemma gt_score_true (a b : Q) : gt_score a b = true <-> (b < a)%Q.
Proof.
  unfold gt_score. rewrite negb_true_iff. apply (ge_score_false b a).
Qed.

Lemma gt_score_false (a b : Q) : gt_score a b = false <-> (a <= b)%Q.
Proof.
  unfold gt_score. rewrite negb_false_iff. apply (ge_score_true b a).
Qed.

(** ** Substrings *)

Lemma startswith_app (p s : str) : startswith (p ++ s) p = true.
Proof.
  induction p as [|a p IH]; simpl; [done|].
  by rewrite N.eqb_refl, IH.
Qed.

Lemma startswith_inv (s p : str) :
  startswith s p = true -> exists s', s = p ++ s'.
Proof.
  revert s. induction p as [|a p IH]; intros s H.
  - by exists s.
  - destruct s as [|b s]; simpl in H; [done|].
    apply andb_true_iff in H as [Hab Hs].
    apply N.eqb_eq in Hab as ->.
    destruct (IH _ Hs) as [s' ->]. by exists s'.
Qed.

(** [str_in sub s] holds exactly when [s] is [pre ++ sub ++ post]. *)
Lemma str_in_spec (sub s : str) :
  str_in sub s = true <-> exists pre post, s = pre ++ sub ++ post.
Proof.
  split.
  - induction s as [|c s IH]; simpl; intros H.
    + rewrite orb_false_r in H. apply startswith_inv in H as [s' Hs].
      by exists [], s'.
    + apply orb_true_iff in H as [H|H].
      * apply startswith_inv in H as [s' Hs]. by exists [], s'.
      * destruct (IH H) as (pre & post & ->). by exists (c :: pre), post.
  - intros (pre & post & ->).
    induction pre as [|c pre IH]; simpl.
    + pose proof (startswith_app sub post) as Hs.
      destruct (sub ++ post); simpl; by rewrite Hs.
    + rewrite IH. apply orb_true_r.
Qed.

Lemma str_in_empty (s : str) : str_in [] s = true.
Proof. apply str_in_spec. by exists [], s. Qed.

Lemma str_eqb_true (a b : str) : str_eqb a b = true <-> a = b.
Proof. unfold str_eqb. apply bool_decide_eq_true. Qed.

Lemma str_eqb_false (a b : str) : str_eqb a b = false <-> a <> b.
Proof. unfold str_eqb. apply bool_decide_eq_false. Qed.

(** ** The name index *)

Lemma activity_details_map_snoc (l : list ActivityDetail) (r : ActivityDetail) :
  activity_details_map (l ++ [r]) = <[title r := r]> (activity_details_map l).
Proof. unfold activity_details_map. by rewrite foldl_app. Qed.

(** The mapping sends a title to the last record of the catalog with that
    title. *)
Lemma activity_details_map_last (pre post : list ActivityDetail)
    (r : ActivityDetail) :
  (forall r', r' ∈ post -> title r' <> title r) ->
  activity_details_map (pre ++ r :: post) !! title r = Some r.
Proof.
  induction post as [|x post IH] using rev_ind; intros Hpost.
  - rewrite activity_details_map_snoc. apply lookup_insert_eq.
  - replace (pre ++ r :: post ++ [x]) with ((pre ++ r :: post) ++ [x])
      by (by rewrite <- app_assoc).
    rewrite activity_details_map_snoc, lookup_insert_ne.
    + apply IH. intros r' Hr'. apply Hpost. set_solver.
    + apply Hpost. set_solver.
Qed.

(** What the mapping returns for a name is a record of the catalog with that
    title, and no later record has it. *)
Lemma activity_details_map_Some (l : list ActivityDetail) (n : str)
    (r : ActivityDetail) :
  activity_details_map l !! n = Some r ->
  title r = n /\
  exists pre post, l = pre ++ r :: post /\
                   forall r', r' ∈ post -> title r' <> n.
Proof.
  induction l as [|x l IH] using rev_ind; intros H.
  - done.
  - rewrite activity_details_map_snoc in H.
    destruct (decide (title x = n)) as [Heq|Hne].
    + subst n. rewrite lookup_insert_eq in H. injection H as <-.
      split; [done|]. exists l, []. split; [done|]. set_solver.
    + rewrite lookup_insert_ne in H by done.
      destruct (IH H) as (Ht & pre & post & -> & Hpost).
      split; [done|]. exists pre, (post ++ [x]).
      split; [by rewrite <- app_assoc|].
      intros r' [Hr'|Hr']%elem_of_app; [by apply Hpost|].
      apply list_elem_of_singleton in Hr' as ->. done.
Qed.

Lemma activity_details_map_names (l : list ActivityDetail) (n : str) :
  n ∈ activity_names l -> is_Some (activity_details_map l !! n).
Proof.
  unfold activity_names.
  induction l as [|x l IH] using rev_ind; intros H.
  - set_solver.
  - rewrite activity_details_map_snoc.
    destruct (decide (title x = n)) as [Heq|Hne].
    + subst n. rewrite lookup_insert_eq. by eexists.
    + rewrite lookup_insert_ne by done. apply IH.
      rewrite fmap_app in H. apply elem_of_app in H as [H|H]; [done|].
      apply list_elem_of_singleton in H. congruence.
Qed.

Lemma activity_details_map_None (l : list ActivityDetail) (n : str) :
  activity_details_map l !! n = None -> n ∉ activity_names l.
Proof.
  intros H Hin. apply activity_details_map_names in Hin as [r Hr]. congruence.
Qed.

(** ** The exact and the containment stage *)

Section StageFacts.

Variable lower : str -> str.
Variables ratio partial_ratio token_sort_ratio : scorer.
Variable catalog : list ActivityDetail.

Local Abbreviation details := (activity_details_map catalog).
Local Abbreviation exact := (exact_stage lower catalog).
Local Abbreviation pscore :=
  (partial_score ratio partial_ratio token_sort_ratio).
Local Abbreviation partial :=
  (partial_stage lower ratio partial_ratio token_sort_ratio catalog).

Lemma exact_stage_None (q : str) (names : list str) :
  exact q names = None <-> forall m, m ∈ names -> lower q <> lower m.
Proof.
  induction names as [|n names IH]; simpl.
  - split; [|done]. intros _ m Hm. by apply elem_of_nil in Hm.
  - destruct (str_eqb (lower q) (lower n)) eqn:E.
    + apply str_eqb_true in E. split; [done|].
      intros H. exfalso. apply (H n); [left|done].
    + apply str_eqb_false in E. rewrite IH. split.
      * intros H m [->|Hm]%elem_of_cons; auto.
      * intros H m Hm. apply H. by right.
Qed.

Lemma exact_stage_first (q : str) (pre post : list str) (n : str) :
  lower q = lower n ->
  (forall m, m ∈ pre -> lower q <> lower m) ->
  exact q (pre ++ n :: post) = Some (details !! n, 100%Q).
Proof.
  intros Hn. induction pre as [|m pre IH]; intros Hpre; simpl.
  - apply str_eqb_true in Hn. by rewrite Hn.
  - assert (str_eqb (lower q) (lower m) = false) as ->.
    { apply str_eqb_false, Hpre. left. }
    apply IH. intros m' Hm'. apply Hpre. by right.
Qed.

Lemma exact_stage_Some (q : str) (names : list str)
    (res : option ActivityDetail * Q) :
  exact q names = Some res ->
  exists pre n post,
    names = pre ++ n :: post /\ lower q = lower n /\
    (forall m, m ∈ pre -> lower q <> lower m) /\
    res = (details !! n, 100%Q).
Proof.
  induction names as [|n names IH]; simpl; [done|].
  destruct (str_eqb (lower q) (lower n)) eqn:E.
  - apply str_eqb_true in E. intros [= <-].
    exists [], n, names. split_and!; try done.
    intros m Hm. by apply elem_of_nil in Hm.
  - apply str_eqb_false in E. intros H.
    destruct (IH H) as (pre & n' & post & -> & Hn' & Hpre & ->).
    exists (n :: pre), n', post. split_and!; try done.
    intros m [->|Hm]%elem_of_cons; auto.
Qed.

Lemma partial_stage_None (q : str) (t : Q) (names : list str) :
  partial q t names = None <->
  forall m, m ∈ names -> contained lower q m = true -> (pscore q m < t)%Q.
Proof.
  induction names as [|n names IH]; simpl.
  - split; [|done]. intros _ m Hm. by apply elem_of_nil in Hm.
  - destruct (contained lower q n) eqn:Ec; simpl.
    + destruct (ge_score (pscore q n) t) eqn:Eg.
      * split; [done|]. intros H. exfalso.
        apply ge_score_true in Eg.
        apply (Qlt_not_le _ _ (H n ltac:(left) Ec) Eg).
      * apply ge_score_false in Eg. rewrite IH. split.
        -- intros H m [->|Hm]%elem_of_cons; auto.
        -- intros H m Hm. apply H. by right.
    + rewrite IH. split.
      * intros H m [->|Hm]%elem_of_cons; [congruence|auto].
      * intros H m Hm. apply H. by right.
Qed.

Lemma partial_stage_first (q : str) (t : Q) (pre post : list str)
    (a : str) :
  contained lower q a = true ->
  (t <= pscore q a)%Q ->
  (forall m, m ∈ pre -> contained lower q m = true -> (pscore q m < t)%Q) ->
  partial q t (pre ++ a :: post) = Some (details !! a, pscore q a).
Proof.
  intros Hc Ht. induction pre as [|m pre IH]; intros Hpre; simpl.
  - apply ge_score_true in Ht. by rewrite Hc, Ht.
  - assert (contained lower q m && ge_score (pscore q m) t = false) as ->.
    { destruct (contained lower q m) eqn:Ec; [|done]. simpl.
      apply ge_score_false, Hpre; [left|done]. }
    apply IH. intros m' Hm'. apply Hpre. by right.
Qed.

Lemma partial_stage_Some (q : str) (t : Q) (names : list str)
    (res : option ActivityDetail * Q) :
  partial q t names = Some res ->
  exists pre a post,
    names = pre ++ a :: post /\ contained lower q a = true /\
    (t <= pscore q a)%Q /\
    (forall m, m ∈ pre -> contained lower q m = true -> (pscore q m < t)%Q) /\
    res = (details !! a, pscore q a).
Proof.
  induction names as [|n names IH]; simpl; [done|].
  destruct (contained lower q n && ge_score (pscore q n) t) eqn:E.
  - apply andb_true_iff in E as [Ec Eg]. apply ge_score_true in Eg.
    intros [= <-]. exists [], n, names. split_and!; try done.
    intros m Hm. by apply elem_of_nil in Hm.
  - intros H.
    destruct (IH H) as (pre & a & post & -> & Ha & Hta & Hpre & ->).
    exists (n :: pre), a, post. split_and!; try done.
    intros m [->|Hm]%elem_of_cons Hc; [|auto].
    rewrite Hc in E. simpl in E. by apply ge_score_false.
Qed.

(** The containment stage is the same for two thresholds that no
    containment score separates. *)
Lemma partial_stage_same (q : str) (t1 t2 : Q) (names : list str) :
  (forall m, m ∈ names -> contained lower q m = true ->
             (t1 <= pscore q m)%Q <-> (t2 <= pscore q m)%Q) ->
  partial q t1 names = partial q t2 names.
Proof.
  induction names as [|n names IH]; intros H; simpl; [done|].
  destruct (contained lower q n) eqn:Ec; simpl.
  - assert (ge_score (pscore q n) t1 = ge_score (pscore q n) t2) as ->.
    { specialize (H n ltac:(left) Ec).
      destruct (ge_score (pscore q n) t2) eqn:E2.
      - apply ge_score_true. apply H. by apply ge_score_true.
      - destruct (ge_score (pscore q n) t1) eqn:E1; [|done].
        apply ge_score_true, H, ge_score_true in E1. congruence. }
    destruct (ge_score (pscore q n) t2); [done|].
    apply IH. intros m Hm. apply H. by right.
  - apply IH. intros m Hm. apply H. by right.
Qed.

(** The containment score is one of the three scores, hence bounded below
    by the first. *)
Lemma partial_score_ge_ratio (q a : str) : (ratio q a <= pscore q a)%Q.
Proof.
  unfold partial_score, max3.
  destruct (gt_score (partial_ratio q a) (ratio q a)) eqn:E1.
  - apply gt_score_true in E1.
    destruct (gt_score (token_sort_ratio q a) (partial_ratio q a)) eqn:E2.
    + apply gt_score_true in E2.
      apply Qlt_le_weak. by apply Qlt_trans with (partial_ratio q a).
    + by apply Qlt_le_weak.
  - destruct (gt_score (token_sort_ratio q a) (ratio q a)) eqn:E2.
    + apply gt_score_true in E2. by apply Qlt_le_weak.
    + apply Qle_refl.
Qed.

End StageFacts.

(** ** [extractOne]: the first choice of maximal score, if it reaches the
    cutoff *)

Section ExtractOneFacts.

Variable sc : scorer.
Variable query : str.

Local Abbreviation inv := (extract_inv sc query).

Lemma extractOne_loop_inv (cutoff : Q) (choices done : list str)
    (result : option (str * Q * nat)) :
  inv cutoff done result ->
  inv cutoff (done ++ choices)
    (extractOne_loop sc query cutoff choices (length done) result).
Proof.
  unfold extract_inv, first_best_at. revert done result.
  induction choices as [|c choices IH]; intros done result Hinv; simpl.
  - by rewrite app_nil_r.
  - replace (done ++ c :: choices) with ((done ++ [c]) ++ choices)
      by (by rewrite <- app_assoc).
    replace (S (length done)) with (length (done ++ [c]))
      by (rewrite length_app; simpl; lia).
    apply IH.
    destruct result as [[[c0 s0] i0]|]; simpl in *.
    + destruct Hinv as (pre & post & -> & -> & -> & Hcut & Hpre & Hpost).
      destruct (ge_score (sc query c) cutoff
                && gt_score (sc query c) (sc query c0)) eqn:E.
      * apply andb_true_iff in E as [Eg Eb].
        apply ge_score_true in Eg. apply gt_score_true in Eb.
        exists (pre ++ c0 :: post), []. split_and!; try done.
        2: { intros c' Hc'. by apply elem_of_nil in Hc'. }
        intros c' [Hc'|Hc']%elem_of_app.
        -- apply Qlt_trans with (sc query c0); auto.
        -- apply elem_of_cons in Hc' as [->|Hc']; [done|].
           apply Qle_lt_trans with (sc query c0); auto.
      * exists pre, (post ++ [c]). split_and!; try done.
        { by rewrite <- app_assoc. }
        intros c' [Hc'|Hc']%elem_of_app; [auto|].
        apply list_elem_of_singleton in Hc' as ->.
        apply andb_false_iff in E as [E|E].
        -- apply ge_score_false in E. apply Qlt_le_weak.
           by apply Qlt_le_trans with cutoff.
        -- by apply gt_score_false in E.
    + rewrite andb_true_r.
      destruct (ge_score (sc query c) cutoff) eqn:E.
      * apply ge_score_true in E.
        exists done, []. split_and!; try done.
        -- intros c' Hc'. apply Qlt_le_trans with cutoff; auto.
        -- intros c' Hc'. by apply elem_of_nil in Hc'.
      * apply ge_score_false in E.
        intros c' [Hc'|Hc']%elem_of_app; [auto|].
        by apply list_elem_of_singleton in Hc' as ->.
Qed.

Lemma extractOne_inv (choices : list str) (cutoff : Q) :
  inv cutoff choices (extractOne sc query choices cutoff).
Proof.
  apply (extractOne_loop_inv cutoff choices [] None).
  intros c Hc. by apply elem_of_nil in Hc.
Qed.

Lemma extractOne_None (choices : list str) (cutoff : Q) :
  extractOne sc query choices cutoff = None <->
  forall c, c ∈ choices -> (sc query c < cutoff)%Q.
Proof.
  pose proof (extractOne_inv choices cutoff) as Hinv.
  unfold extract_inv, first_best_at in Hinv.
  destruct (extractOne sc query choices cutoff) as [[[c s] i]|];
    simpl in Hinv.
  - split; [done|]. intros H. exfalso.
    destruct Hinv as (pre & post & -> & _ & -> & Hcut & _).
    apply (Qlt_not_le _ _ (H c ltac:(set_solver)) Hcut).
  - done.
Qed.

Lemma extractOne_Some (choices : list str) (cutoff : Q)
    (c : str) (s : Q) (i : nat) :
  extractOne sc query choices cutoff = Some (c, s, i) ->
  exists pre post,
    choices = pre ++ c :: post /\ i = length pre /\ s = sc query c /\
    (cutoff <= s)%Q /\
    (forall c', c' ∈ pre -> (sc query c' < s)%Q) /\
    (forall c', c' ∈ post -> (sc query c' <= s)%Q).
Proof.
  intros H. pose proof (extractOne_inv choices cutoff) as Hinv.
  by rewrite H in Hinv.
Qed.

(** Two positions of a first maximum coincide. *)
Lemma first_max_unique (pre post pre' post' : list str) (c c' : str) :
  pre ++ c :: post = pre' ++ c' :: post' ->
  (forall x, x ∈ pre -> (sc query x < sc query c)%Q) ->
  (forall x, x ∈ post -> (sc query x <= sc query c)%Q) ->
  (forall x, x ∈ pre' -> (sc query x < sc query c')%Q) ->
  (forall x, x ∈ post' -> (sc query x <= sc query c')%Q) ->
  pre = pre' /\ c = c'.
Proof.
  intros Heq Hpre Hpost Hpre' Hpost'.
  assert (Hc : (pre ++ c :: post) !! length pre = Some c)
    by apply list_lookup_middle, eq_refl.
  assert (Hc' : (pre' ++ c' :: post') !! length pre' = Some c')
    by apply list_lookup_middle, eq_refl.
  destruct (Nat.lt_trichotomy (length pre) (length pre')) as [Hlt|[He|Hlt]].
  - exfalso. rewrite Heq, lookup_app_l in Hc by done.
    apply list_elem_of_lookup_2 in Hc.
    rewrite <- Heq in Hc'. rewrite lookup_app_r in Hc' by lia.
    apply list_elem_of_lookup_2 in Hc'.
    apply elem_of_cons in Hc' as [->|Hc'].
    + apply (Qlt_irrefl (sc query c)). auto.
    + apply (Qlt_irrefl (sc query c)).
      apply Qlt_le_trans with (sc query c'); auto.
  - rewrite Heq, He, Hc' in Hc. injection Hc as ->.
    split; [|done].
    apply (f_equal (take (length pre))) in Heq.
    rewrite take_app_length in Heq. rewrite He in Heq.
    by rewrite take_app_length in Heq.
  - exfalso. rewrite <- Heq, lookup_app_l in Hc' by done.
    apply list_elem_of_lookup_2 in Hc'.
    rewrite Heq in Hc. rewrite lookup_app_r in Hc by lia.
    apply list_elem_of_lookup_2 in Hc.
    apply elem_of_cons in Hc as [->|Hc].
    + apply (Qlt_irrefl (sc query c')). auto.
    + apply (Qlt_irrefl (sc query c')).
      apply Qlt_le_trans with (sc query c); auto.
Qed.

Lemma extractOne_first_max (pre post : list str) (c : str) (cutoff : Q) :
  (cutoff <= sc query c)%Q ->
  (forall x, x ∈ pre -> (sc query x < sc query c)%Q) ->
  (forall x, x ∈ post -> (sc query x <= sc query c)%Q) ->
  extractOne sc query (pre ++ c :: post) cutoff
  = Some (c, sc query c, length pre).
Proof.
  intros Hcut Hpre Hpost.
  destruct (extractOne sc query (pre ++ c :: post) cutoff)
    as [[[c' s'] i']|] eqn:E.
  - apply extractOne_Some in E
      as (pre' & post' & Heq & -> & -> & _ & Hpre' & Hpost').
    destruct (first_max_unique _ _ _ _ _ _ Heq Hpre Hpost Hpre' Hpost')
      as [-> ->].
    done.
  - exfalso.
    pose proof (proj1 (extractOne_None _ _) E c ltac:(set_solver)) as Hlt.
    apply (Qlt_not_le _ _ Hlt Hcut).
Qed.

(** Raising the cutoff keeps the result when its score still reaches the
    cutoff, and loses it otherwise. *)
Lemma extractOne_raise (choices : list str) (t1 t2 : Q) :
  (t1 <= t2)%Q ->
  extractOne sc query choices t2 =
    match extractOne sc query choices t1 with
    | Some (c, s, i) => if ge_score s t2 then Some (c, s, i) else None
    | None => None
    end.
Proof.
  intros Ht.
  destruct (extractOne sc query choices t1) as [[[c s] i]|] eqn:E1.
  - apply extractOne_Some in E1
      as (pre & post & -> & -> & -> & Hcut & Hpre & Hpost).
    destruct (ge_score (sc query c) t2) eqn:E2.
    + apply ge_score_true in E2. by apply extractOne_first_max.
    + apply ge_score_false in E2. apply extractOne_None.
      intros x [Hx|Hx]%elem_of_app.
      * apply Qlt_trans with (sc query c); auto.
      * apply elem_of_cons in Hx as [->|Hx]; [done|].
        apply Qle_lt_trans with (sc query c); auto.
  - apply extractOne_None. intros x Hx.
    apply Qlt_le_trans with t1; [|done].
    by apply (proj1 (extractOne_None _ _) E1).
Qed.

End ExtractOneFacts.

(** ** The best-effort stage *)

Section FuzzyFacts.

Variable catalog : list ActivityDetail.
Variable q : str.

Local Abbreviation names := (activity_names catalog).
Local Abbreviation details := (activity_details_map catalog).
Local Abbreviation step := (fuzzy_step catalog q).

Lemma fuzzy_step_Some (t : Q) (best : option ActivityDetail * Q)
    (sc : scorer) (n : str) (s : Q) (i : nat) :
  extractOne sc q names t = Some (n, s, i) ->
  step t best sc = if gt_score s best.2 then (details !! n, s) else best.
Proof. intros E. unfold fuzzy_step. by rewrite E. Qed.

Lemma fuzzy_step_None (t : Q) (best : option ActivityDetail * Q)
    (sc : scorer) :
  extractOne sc q names t = None -> step t best sc = best.
Proof. intros E. unfold fuzzy_step. by rewrite E. Qed.

(** Scorers whose best score does not exceed the current best leave it
    as it is. *)
Lemma fuzzy_fold_keep (t : Q) (scs : list scorer)
    (best : option ActivityDetail * Q) :
  (forall sc n s i, sc ∈ scs -> extractOne sc q names t = Some (n, s, i) ->
                    (s <= best.2)%Q) ->
  foldl (step t) best scs = best.
Proof.
  induction scs as [|sc scs IH]; intros H; simpl; [done|].
  assert (step t best sc = best) as ->.
  { unfold fuzzy_step.
    destruct (extractOne sc q names t) as [[[n s] i]|] eqn:E; [|done].
    assert (gt_score s best.2 = false) as ->; [|done].
    apply gt_score_false. apply (H sc n s i); [left|done]. }
  apply IH. intros sc' n s i Hsc'. apply H. by right.
Qed.

(** Scorers whose best scores stay below a bound keep the current best
    below it. *)
Lemma fuzzy_fold_below (t : Q) (scs : list scorer)
    (best : option ActivityDetail * Q) (bound : Q) :
  (best.2 < bound)%Q ->
  (forall sc n s i, sc ∈ scs -> extractOne sc q names t = Some (n, s, i) ->
                    (s < bound)%Q) ->
  ((foldl (step t) best scs).2 < bound)%Q.
Proof.
  revert best.
  induction scs as [|sc scs IH]; intros best Hb H; simpl; [done|].
  apply IH.
  - unfold fuzzy_step.
    destruct (extractOne sc q names t) as [[[n s] i]|] eqn:E; [|done].
    destruct (gt_score s best.2); [|done].
    simpl. apply (H sc n s i); [left|done].
  - intros sc' n s i Hsc'. apply H. by right.
Qed.

(** The first scorer that reaches the greatest best score decides. *)
Lemma fuzzy_stage_first_best (t : Q) (before after : list scorer)
    (sc : scorer) (n : str) (s : Q) (i : nat) :
  extractOne sc q names t = Some (n, s, i) ->
  (0 < s)%Q ->
  (forall sc' n' s' i', sc' ∈ before ->
     extractOne sc' q names t = Some (n', s', i') -> (s' < s)%Q) ->
  (forall sc' n' s' i', sc' ∈ after ->
     extractOne sc' q names t = Some (n', s', i') -> (s' <= s)%Q) ->
  fuzzy_stage catalog q t (before ++ sc :: after) = (details !! n, s).
Proof.
  intros E Hs Hbefore Hafter. unfold fuzzy_stage.
  rewrite foldl_app. simpl.
  pose proof (fuzzy_fold_below t before (None, 0%Q) s Hs Hbefore) as Hb.
  assert (step t (foldl (step t) (None, 0%Q) before) sc = (details !! n, s))
    as ->.
  { rewrite (fuzzy_step_Some _ _ _ _ _ _ E).
    apply gt_score_true in Hb. by rewrite Hb. }
  by apply fuzzy_fold_keep.
Qed.

(** No qualifying candidate for any scorer: no match. *)
Lemma fuzzy_stage_none (t : Q) (scs : list scorer) :
  (forall sc, sc ∈ scs -> extractOne sc q names t = None) ->
  fuzzy_stage catalog q t scs = (None, 0%Q).
Proof.
  intros H. apply fuzzy_fold_keep.
  intros sc n s i Hsc E. rewrite (H sc Hsc) in E. done.
Qed.

(** The best score never goes below its initial value, 0. *)
Lemma fuzzy_fold_nonneg (t : Q) (scs : list scorer)
    (best : option ActivityDetail * Q) :
  (0 <= best.2)%Q -> (0 <= (foldl (step t) best scs).2)%Q.
Proof.
  revert best. induction scs as [|sc scs IH]; intros best Hb; simpl; [done|].
  apply IH. unfold fuzzy_step.
  destruct (extractOne sc q names t) as [[[n s] i]|]; [|done].
  destruct (gt_score s best.2) eqn:E; [|done].
  simpl. apply gt_score_true in E. apply Qlt_le_weak.
  by apply Qle_lt_trans with best.2.
Qed.

(** A best match is a record of the catalog, found under its own title. *)
Lemma fuzzy_fold_record (t : Q) (scs : list scorer)
    (best : option ActivityDetail * Q) :
  (best.1 = None -> best.2 = 0%Q) ->
  (forall r, best.1 = Some r -> r ∈ catalog) ->
  let res := foldl (step t) best scs in
  (res.1 = None -> res.2 = 0%Q) /\ (forall r, res.1 = Some r -> r ∈ catalog).
Proof.
  revert best. induction scs as [|sc scs IH]; intros best H0 Hr; simpl;
    [done|].
  apply IH.
  - unfold fuzzy_step.
    destruct (extractOne sc q names t) as [[[n s] i]|] eqn:E; [|done].
    destruct (gt_score s best.2); [|done].
    simpl. intros Hnone. exfalso.
    apply extractOne_Some in E as (pre & post & Hn & _).
    apply activity_details_map_None in Hnone. apply Hnone.
    rewrite Hn. apply elem_of_app. right. left.
  - unfold fuzzy_step.
    destruct (extractOne sc q names t) as [[[n s] i]|] eqn:E; [|done].
    destruct (gt_score s best.2); [|done].
    simpl. intros r Hsome.
    apply activity_details_map_Some in Hsome
      as (_ & pre & post & -> & _).
    apply elem_of_app. right. left.
Qed.

(** Two runs of the loop over the scorers, at thresholds [t1 <= t2]: they
    agree, or the run at [t2] has found nothing so far and the run at [t1]
    only scores below [t2]. *)
Lemma fuzzy_fold_thresholds (t1 t2 : Q) (scs : list scorer)
    (acc1 acc2 : option ActivityDetail * Q) :
  (t1 <= t2)%Q ->
  (0 <= acc1.2)%Q ->
  (acc2 = (None, 0%Q) \/ (t2 <= acc2.2)%Q) ->
  (acc1 = acc2 \/ (acc2 = (None, 0%Q) /\ (acc1.2 < t2)%Q)) ->
  foldl (step t1) acc1 scs = foldl (step t2) acc2 scs \/
  (foldl (step t2) acc2 scs = (None, 0%Q) /\
   ((foldl (step t1) acc1 scs).2 < t2)%Q).
Proof.
  intros Ht. revert acc1 acc2.
  induction scs as [|sc scs IH]; intros acc1 acc2 J1 J3 J2; simpl; [done|].
  pose proof (extractOne_raise sc q names t1 t2 Ht) as E2.
  destruct (extractOne sc q names t1) as [[[n s] i]|] eqn:E1.
  2: { rewrite !fuzzy_step_None by done. by apply IH. }
  rewrite (fuzzy_step_Some t1 _ _ _ _ _ E1).
  destruct (ge_score s t2) eqn:Eg.
  - (* the scorer's best reaches [t2]: both runs see it *)
    rewrite (fuzzy_step_Some t2 _ _ _ _ _ E2).
    apply ge_score_true in Eg.
    destruct J2 as [->|[-> Hlt]].
    + destruct (gt_score s acc2.2) eqn:Eb.
      * apply IH; simpl; [|by right|by left].
        apply gt_score_true in Eb. apply Qlt_le_weak.
        destruct J3 as [->|J3]; [done|].
        by apply Qle_lt_trans with acc2.2.
      * by apply IH; [| |left].
    + assert (gt_score s acc1.2 = true) as ->.
      { apply gt_score_true. by apply Qlt_le_trans with t2. }
      assert (gt_score s (None (A:=ActivityDetail), 0%Q).2 = true) as ->.
      { apply gt_score_true. simpl. by apply Qle_lt_trans with acc1.2,
          Qlt_le_trans with t2. }
      apply IH; simpl; [|by right|by left].
      apply Qle_trans with acc1.2; [done|]. apply Qlt_le_weak.
      by apply Qlt_le_trans with t2.
  - (* the scorer's best is below [t2]: only the run at [t1] sees it *)
    rewrite (fuzzy_step_None t2 _ _ E2).
    apply ge_score_false in Eg.
    destruct (gt_score s acc1.2) eqn:Eb.
    + apply gt_score_true in Eb.
      apply IH; simpl.
      * apply Qlt_le_weak. by apply Qle_lt_trans with acc1.2.
      * done.
      * right. split; [|done].
        destruct J2 as [->|[-> _]]; [|done].
        destruct J3 as [->|J3]; [done|]. exfalso.
        apply (Qlt_irrefl s).
        apply Qlt_trans with t2; [done|].
        by apply Qle_lt_trans with acc2.2.
    + by apply IH.
Qed.

End FuzzyFacts.

(** ** The resolver *)

Lemma max3_lt (a b c bound : Q) :
  (a < bound)%Q -> (b < bound)%Q -> (c < bound)%Q -> (max3 a b c < bound)%Q.
Proof.
  intros Ha Hb Hc. unfold max3.
  destruct (gt_score b a); destruct (gt_score c _); done.
Qed.

Section ResolverFacts.

Variable lower : str -> str.
Variables ratio partial_ratio token_sort_ratio token_set_ratio : scorer.
Variable catalog : list ActivityDetail.

Local Abbreviation names := (activity_names catalog).
Local Abbreviation details := (activity_details_map catalog).
Local Abbreviation exact := (exact_stage lower catalog).
Local Abbreviation pscore :=
  (partial_score ratio partial_ratio token_sort_ratio).
Local Abbreviation partial :=
  (partial_stage lower ratio partial_ratio token_sort_ratio catalog).
Local Abbreviation all_scorers :=
  (scorers ratio partial_ratio token_sort_ratio token_set_ratio).
Local Abbreviation resolver :=
  (find_best_match lower ratio partial_ratio token_sort_ratio
     token_set_ratio catalog).

Lemma find_best_match_exact (q : str) (t : Q)
    (res : option ActivityDetail * Q) :
  exact q names = Some res -> resolver q t = res.
Proof. intros H. unfold find_best_match. by rewrite H. Qed.

Lemma find_best_match_partial (q : str) (t : Q)
    (res : option ActivityDetail * Q) :
  exact q names = None -> partial q t names = Some res ->
  resolver q t = res.
Proof. intros H1 H2. unfold find_best_match. by rewrite H1, H2. Qed.

Lemma find_best_match_fuzzy (q : str) (t : Q) :
  exact q names = None -> partial q t names = None ->
  resolver q t = fuzzy_stage catalog q t all_scorers.
Proof. intros H1 H2. unfold find_best_match. by rewrite H1, H2. Qed.

(** The record found under a name of the index. *)
Lemma details_of_name (n : str) :
  n ∈ names ->
  exists r, details !! n = Some r /\ title r = n /\ r ∈ catalog.
Proof.
  intros Hn. destruct (activity_details_map_names _ _ Hn) as [r Hr].
  exists r. split; [done|].
  apply activity_details_map_Some in Hr as (Ht & pre & post & -> & _).
  split; [done|]. apply elem_of_app. right. left.
Qed.

(** The exact stage on an index in which every earlier name that folds to
    the query's folded form is the title [n] itself. *)
Lemma exact_stage_title (q n : str) (pre : list ActivityDetail)
    (rest : list str) :
  lower q = lower n ->
  (forall r, r ∈ pre -> lower q = lower (title r) -> title r = n) ->
  exact q ((title <$> pre) ++ n :: rest) = Some (details !! n, 100%Q).
Proof.
  intros Hn. induction pre as [|r pre IH]; intros Hpre; simpl.
  - apply str_eqb_true in Hn. by rewrite Hn.
  - destruct (str_eqb (lower q) (lower (title r))) eqn:E.
    + apply str_eqb_true in E. by rewrite (Hpre r ltac:(left) E).
    + apply IH. intros r' Hr'. apply Hpre. by right.
Qed.

(** Every result is a record of the catalog with its score, or the
    no-match result. *)
Lemma find_best_match_shape (q : str) (t : Q) :
  (exists r s, resolver q t = (Some r, s) /\ r ∈ catalog) \/
  resolver q t = (None, 0%Q).
Proof.
  destruct (exact q names) as [res|] eqn:E1.
  - left. rewrite (find_best_match_exact q t res E1).
    apply exact_stage_Some in E1 as (pre & n & post & Hn & _ & _ & ->).
    destruct (details_of_name n) as (r & -> & _ & Hr).
    { rewrite Hn. apply elem_of_app. right. left. }
    by exists r, 100%Q.
  - destruct (partial q t names) as [res|] eqn:E2.
    + left. rewrite (find_best_match_partial q t res E1 E2).
      apply partial_stage_Some in E2
        as (pre & a & post & Hn & _ & _ & _ & ->).
      destruct (details_of_name a) as (r & -> & _ & Hr).
      { rewrite Hn. apply elem_of_app. right. left. }
      by exists r, (pscore q a).
    + rewrite (find_best_match_fuzzy q t E1 E2). unfold fuzzy_stage.
      destruct (fuzzy_fold_record catalog q t all_scorers (None, 0%Q))
        as [H0 Hr]; [done|done|].
      destruct (foldl _ _ _) as [[r|] s]; simpl in *.
      * left. exists r, s. auto.
      * right. by rewrite H0.
Qed.

End ResolverFacts.

(** * The resolver: the claims *)

Section ResolverClaims.

Variable lower : str -> str.
Variables ratio partial_ratio token_sort_ratio token_set_ratio : scorer.
Variable catalog : list ActivityDetail.

Local Abbreviation names := (activity_names catalog).
Local Abbreviation details := (activity_details_map catalog).
Local Abbreviation exact := (exact_stage lower catalog).
Local Abbreviation pscore :=
  (partial_score ratio partial_ratio token_sort_ratio).
Local Abbreviation partial :=
  (partial_stage lower ratio partial_ratio token_sort_ratio catalog).
Local Abbreviation all_scorers :=
  (scorers ratio partial_ratio token_sort_ratio token_set_ratio).
Local Abbreviation resolver :=
  (find_best_match lower ratio partial_ratio token_sort_ratio
     token_set_ratio catalog).

(** C3. Exact stage.  The exact stage returns a result exactly when the
    case-folded query equals the case-folded form of some name of the
    index: the comparison is this equality and nothing else.  When it
    does, with [n] the first such name in catalog order, the stage returns
    the record mapped to [n] with score exactly 100, and this is the
    result of [find_best_match] for every threshold and whatever the
    scorers are: the containment and best-effort stages are not
    consulted. *)
Theorem exact_stage_contract (q : str) :
  (exact q names <> None <-> exists n, n ∈ names /\ lower q = lower n) /\
  ((exists n, n ∈ names /\ lower q = lower n) ->
   exists pre n post r,
     names = pre ++ n :: post /\
     lower q = lower n /\
     (forall m, m ∈ pre -> lower q <> lower m) /\
     details !! n = Some r /\ title r = n /\
     exact q names = Some (Some r, 100%Q) /\
     forall t, resolver q t = (Some r, 100%Q)).
Proof.
  assert (Hiff : exact q names <> None <->
                 exists n, n ∈ names /\ lower q = lower n).
  { split.
    - intros H. destruct (exact q names) as [res|] eqn:E; [|done].
      apply exact_stage_Some in E as (pre & n & post & Hn & Hq & _).
      exists n. split; [|done]. rewrite Hn. apply elem_of_app. right. left.
    - intros (n & Hn & Hq) E.
      by apply (proj1 (exact_stage_None _ _ _ _) E n). }
  split; [done|]. intros Hex. apply Hiff in Hex.
  destruct (exact q names) as [res|] eqn:E; [|done].
  pose proof E as E'.
  apply exact_stage_Some in E' as (pre & n & post & Hn & Hq & Hpre & ->).
  destruct (details_of_name catalog n) as (r & Hr & Ht & _).
  { rewrite Hn. apply elem_of_app. right. left. }
  exists pre, n, post, r. rewrite Hr in E. split_and!; try done.
  - by rewrite Hr.
  - intros t. by apply find_best_match_exact.
Qed.

(** C10 (amended).  Duplicate catalog titles: when the catalog holds two
    records [r1] (earlier) and [r2] (later) with the same title, [r2]
    being the last record with it, both occurrences stay in the ordered
    name sequence and the mapping keeps [r2] only.  A query that equals
    that title up to case resolves to [r2] with score 100, and never to an
    earlier duplicate different from [r2], provided the duplicated title
    is the first name in catalog order that equals the query up to case:
    every record before [r1] whose title folds to the same string carries
    that very title. *)
Theorem duplicate_title_last_record (q : str)
    (pre mid post : list ActivityDetail) (r1 r2 : ActivityDetail) :
  catalog = pre ++ r1 :: mid ++ r2 :: post ->
  title r1 = title r2 ->
  (forall r, r ∈ post -> title r <> title r2) ->
  lower q = lower (title r2) ->
  (forall r, r ∈ pre -> lower q = lower (title r) -> title r = title r2) ->
  names = (title <$> pre) ++ title r1 ::
            (title <$> mid) ++ title r2 :: (title <$> post) /\
  details !! title r2 = Some r2 /\
  (forall t, resolver q t = (Some r2, 100%Q)) /\
  (r1 <> r2 -> forall t, (resolver q t).1 <> Some r1).
Proof.
  intros Hcat Ht Hpost Hq Hpre.
  assert (Hnames : names = (title <$> pre) ++ title r1 ::
            (title <$> mid) ++ title r2 :: (title <$> post)).
  { unfold activity_names. rewrite Hcat.
    by rewrite fmap_app, fmap_cons, fmap_app, fmap_cons. }
  assert (Hdet : details !! title r2 = Some r2).
  { rewrite Hcat.
    replace (pre ++ r1 :: mid ++ r2 :: post)
      with ((pre ++ r1 :: mid) ++ r2 :: post)
      by (by rewrite <- app_assoc).
    by apply activity_details_map_last. }
  assert (Hres : forall t, resolver q t = (Some r2, 100%Q)).
  { intros t. apply find_best_match_exact.
    rewrite Hnames, Ht, <- Hdet. by apply exact_stage_title. }
  split_and!; try done.
  intros Hne t. rewrite Hres. simpl. congruence.
Qed.

(** C1.  The containment stage is greedy and order-dependent.  Let the
    query have no case-folded exact match in the index, and let [a] be a
    candidate of the index, [pre] the candidates before it and [post]
    those after it, such that the case-folded query is a substring of the
    case-folded [a] or the other way round, and the containment score of
    [a] (the maximum of the three ratios) reaches the threshold.  Then
    [find_best_match] returns the first containment candidate that reaches
    the threshold, which stands at or before [a]; the candidates after [a]
    are never looked at.  When the containment candidates before [a] score
    below the threshold they are skipped, and the result is the record of
    [a] with the score of [a], even if a later candidate [b] contains the
    query as well and scores higher. *)
Theorem containment_stage_greedy (q : str) (t : Q) (pre post : list str)
    (a : str) :
  names = pre ++ a :: post ->
  (forall m, m ∈ names -> lower q <> lower m) ->
  contained lower q a = true ->
  (t <= pscore q a)%Q ->
  (exists pre' a' post',
      names = pre' ++ a' :: post' /\
      (length pre' <= length pre)%nat /\
      contained lower q a' = true /\
      (t <= pscore q a')%Q /\
      (forall m, m ∈ pre' -> contained lower q m = true ->
                 (pscore q m < t)%Q) /\
      resolver q t = (details !! a', pscore q a')) /\
  ((forall m, m ∈ pre -> contained lower q m = true -> (pscore q m < t)%Q) ->
   (exists r, details !! a = Some r /\ title r = a /\
              resolver q t = (Some r, pscore q a)) /\
   (forall b, b ∈ post -> contained lower q b = true ->
              (pscore q a < pscore q b)%Q ->
              resolver q t <> (details !! b, pscore q b))).
Proof.
  intros Hnames Hexact Hc Ht.
  assert (E0 : exact q names = None) by (by apply exact_stage_None).
  split.
  - destruct (partial q t names) as [res|] eqn:E.
    + pose proof E as E'.
      apply partial_stage_Some in E'
        as (pre' & a' & post' & Hn' & Hc' & Ht' & Hpre' & ->).
      exists pre', a', post'. split_and!; try done.
      * destruct (decide (length pre' <= length pre)%nat) as [|Hgt]; [done|].
        exfalso.
        assert (Hl : (pre ++ a :: post) !! length pre = Some a)
          by apply list_lookup_middle, eq_refl.
        rewrite <- Hnames, Hn' in Hl. rewrite lookup_app_l in Hl by lia.
        apply list_elem_of_lookup_2 in Hl.
        apply (Qlt_not_le _ _ (Hpre' a Hl Hc) Ht).
      * by apply find_best_match_partial.
    + exfalso.
      pose proof (proj1 (partial_stage_None _ _ _ _ _ _ _ _) E a) as Hlt.
      apply (Qlt_not_le (pscore q a) t); [|done].
      apply Hlt; [|done]. rewrite Hnames. apply elem_of_app. right. left.
  - intros Hpre.
    assert (Hres : resolver q t = (details !! a, pscore q a)).
    { apply find_best_match_partial; [done|].
      rewrite Hnames. by apply partial_stage_first. }
    split.
    + destruct (details_of_name catalog a) as (r & Hr & Htitle & _).
      { rewrite Hnames. apply elem_of_app. right. left. }
      exists r. by rewrite Hres, Hr.
    + intros b _ _ Hlt Heq. rewrite Hres in Heq.
      injection Heq as _ Heq. rewrite Heq in Hlt.
      by apply Qlt_irrefl in Hlt.
Qed.

(** C4.  The best-effort stage.  When neither the exact nor the
    containment stage returns, the result is that of the loop over the
    four scorers in the order whole-string ratio, partial ratio,
    token-sort ratio, token-set ratio.  Each scorer searches the whole
    name sequence: it yields nothing exactly when every name scores below
    the threshold, and otherwise the first name of maximal score, which
    reaches the threshold.  The overall best is kept with a strict
    comparison: if a scorer's best score [s] is positive, strictly greater
    than the best score of every scorer before it and at least the best
    score of every scorer after it, the result is that scorer's candidate
    with score [s] (of two scorers with equal best scores, the one that
    ran first wins).  If no scorer yields a candidate the result is
    [(None, 0)]. *)
Theorem best_effort_contract (q : str) (t : Q) :
  exact q names = None ->
  partial q t names = None ->
  resolver q t
  = fuzzy_stage catalog q t
      [ratio; partial_ratio; token_sort_ratio; token_set_ratio] /\
  (forall sc,
      extractOne sc q names t = None <->
      forall c, c ∈ names -> (sc q c < t)%Q) /\
  (forall sc c s i,
      extractOne sc q names t = Some (c, s, i) <->
      exists pre post,
        names = pre ++ c :: post /\ i = length pre /\
        first_best_at sc q t pre c post s) /\
  (forall before sc after c s i,
      all_scorers = before ++ sc :: after ->
      extractOne sc q names t = Some (c, s, i) ->
      (0 < s)%Q ->
      (forall sc' c' s' i', sc' ∈ before ->
         extractOne sc' q names t = Some (c', s', i') -> (s' < s)%Q) ->
      (forall sc' c' s' i', sc' ∈ after ->
         extractOne sc' q names t = Some (c', s', i') -> (s' <= s)%Q) ->
      exists r, details !! c = Some r /\ title r = c /\
                resolver q t = (Some r, s)) /\
  ((forall sc, sc ∈ all_scorers -> extractOne sc q names t = None) ->
   resolver q t = (None, 0%Q)).
Proof.
  intros E1 E2.
  pose proof (find_best_match_fuzzy lower ratio partial_ratio
                token_sort_ratio token_set_ratio catalog q t E1 E2) as Hf.
  split_and!.
  - done.
  - intros sc. apply extractOne_None.
  - intros sc c s i. split.
    + intros E. apply extractOne_Some in E
        as (pre & post & Hn & Hi & Hs & Hcut & Hpre & Hpost).
      by exists pre, post.
    + intros (pre & post & -> & -> & -> & Hcut & Hpre & Hpost).
      by apply extractOne_first_max.
  - intros before sc after c s i Hsplit E Hs Hbefore Hafter.
    destruct (details_of_name catalog c) as (r & Hr & Htitle & _).
    { apply extractOne_Some in E as (pre & post & -> & _).
      apply elem_of_app. right. left. }
    exists r. split_and!; try done.
    rewrite Hf, Hsplit, <- Hr.
    by apply (fuzzy_stage_first_best catalog q t before after sc c s i).
  - intros Hnone. rewrite Hf. by apply fuzzy_stage_none.
Qed.

(** C2 (amended).  The effect of the threshold, for [t1 <= t2].  Raising
    the threshold from [t1] to [t2] never turns a non-match into a match.
    Lowering it from [t2] to [t1] leaves a match as it is, record and
    score, unless some containment candidate of the query has a
    containment score between the two thresholds (at least [t1], below
    [t2]).  And when the whole-string ratio is never negative, a non-match
    at [t2] does not become a result of lower score at [t1]. *)
Theorem threshold_monotone (q : str) (t1 t2 : Q) :
  (t1 <= t2)%Q ->
  ((resolver q t1).1 = None -> (resolver q t2).1 = None) /\
  ((resolver q t2).1 <> None ->
   (forall m, m ∈ names -> contained lower q m = true ->
              (t1 <= pscore q m)%Q -> (t2 <= pscore q m)%Q) ->
   resolver q t1 = resolver q t2) /\
  ((forall a b, (0 <= ratio a b)%Q) ->
   (resolver q t2).1 = None ->
   ((resolver q t2).2 <= (resolver q t1).2)%Q).
Proof.
  intros Ht.
  assert (Hfold :
    fuzzy_stage catalog q t1 all_scorers = fuzzy_stage catalog q t2 all_scorers
    \/ (fuzzy_stage catalog q t2 all_scorers = (None, 0%Q) /\
        ((fuzzy_stage catalog q t1 all_scorers).2 < t2)%Q)).
  { apply fuzzy_fold_thresholds; [done|done|by left|by left]. }
  split_and!.
  - (* a non-match at [t1] is a non-match at [t2] *)
    intros Hnone.
    destruct (exact q names) as [res|] eqn:E1.
    { rewrite (find_best_match_exact _ _ _ _ _ _ q t2 res E1).
      by rewrite (find_best_match_exact _ _ _ _ _ _ q t1 res E1) in Hnone. }
    destruct (partial q t1 names) as [res|] eqn:E2.
    { exfalso.
      rewrite (find_best_match_partial _ _ _ _ _ _ q t1 res E1 E2) in Hnone.
      apply partial_stage_Some in E2
        as (pre & a & post & Hn & _ & _ & _ & ->).
      destruct (details_of_name catalog a) as (r & Hr & _).
      { rewrite Hn. apply elem_of_app. right. left. }
      simpl in Hnone. congruence. }
    assert (E2' : partial q t2 names = None).
    { apply partial_stage_None. intros m Hm Hc.
      apply Qlt_le_trans with t1; [|done].
      by apply (proj1 (partial_stage_None _ _ _ _ _ _ _ _) E2). }
    rewrite (find_best_match_fuzzy _ _ _ _ _ _ q t2 E1 E2').
    rewrite (find_best_match_fuzzy _ _ _ _ _ _ q t1 E1 E2) in Hnone.
    destruct Hfold as [<-|[-> _]]; done.
  - (* a match at [t2] is the result at [t1] as well *)
    intros Hsome Hgap.
    destruct (exact q names) as [res|] eqn:E1.
    { rewrite (find_best_match_exact _ _ _ _ _ _ q t2 res E1).
      by rewrite (find_best_match_exact _ _ _ _ _ _ q t1 res E1). }
    assert (Hsame : partial q t1 names = partial q t2 names).
    { apply partial_stage_same. intros m Hm Hc. split; [by apply Hgap|].
      intros H2. by apply Qle_trans with t2. }
    destruct (partial q t2 names) as [res|] eqn:E2.
    { rewrite (find_best_match_partial _ _ _ _ _ _ q t2 res E1 E2).
      by rewrite (find_best_match_partial _ _ _ _ _ _ q t1 res E1 Hsame). }
    rewrite (find_best_match_fuzzy _ _ _ _ _ _ q t2 E1 E2).
    rewrite (find_best_match_fuzzy _ _ _ _ _ _ q t2 E1 E2) in Hsome.
    rewrite (find_best_match_fuzzy _ _ _ _ _ _ q t1 E1 Hsame).
    destruct Hfold as [->|[Hnone _]]; [done|].
    rewrite Hnone in Hsome. done.
  - (* a non-match at [t2] has score 0, and no score is negative *)
    intros Hratio Hnone.
    assert (H2 : (resolver q t2).2 = 0%Q).
    { destruct (find_best_match_shape lower ratio partial_ratio
                  token_sort_ratio token_set_ratio catalog q t2)
        as [(r & s & Hr & _)|Hr]; rewrite Hr in *; [done|done]. }
    rewrite H2.
    destruct (exact q names) as [res|] eqn:E1.
    { rewrite (find_best_match_exact _ _ _ _ _ _ q t1 res E1).
      apply exact_stage_Some in E1 as (pre & n & post & _ & _ & _ & ->).
      done. }
    destruct (partial q t1 names) as [res|] eqn:E2.
    { rewrite (find_best_match_partial _ _ _ _ _ _ q t1 res E1 E2).
      apply partial_stage_Some in E2
        as (pre & a & post & _ & _ & _ & _ & ->).
      simpl. apply Qle_trans with (ratio q a); [done|].
      apply partial_score_ge_ratio. }
    rewrite (find_best_match_fuzzy _ _ _ _ _ _ q t1 E1 E2).
    by apply fuzzy_fold_nonneg.
Qed.

(** A missing match is a normal result, and a query that every scorer
    scores below the threshold finds none.  For every query and
    threshold the result of [find_best_match] is a record of the catalog
    with a score, or [(None, 0)].  If the titles of the index are not
    empty and each of the four scorers scores the empty query below the
    default threshold against every title, the empty query loses every
    stage, although it is contained in every title.  [str.lower] maps the
    empty string, and no other, to the empty string. *)
Lemma losing_scorers_no_match :
  (forall q t,
      (exists r s, resolver q t = (Some r, s) /\ r ∈ catalog) \/
      resolver q t = (None, 0%Q)) /\
  (lower [] = [] ->
   (forall s, lower s = [] -> s = []) ->
   (forall n, n ∈ names -> n <> []) ->
   (forall sc n, sc ∈ all_scorers -> n ∈ names ->
                 (sc [] n < default_threshold)%Q) ->
   (forall n, n ∈ names -> contained lower [] n = true) /\
   exact [] names = None /\
   partial [] default_threshold names = None /\
   fuzzy_stage catalog [] default_threshold all_scorers = (None, 0%Q) /\
   resolver [] default_threshold = (None, 0%Q)).
Proof.
  split; [apply find_best_match_shape|].
  intros Hl0 Hl Hne Hsc.
  assert (E1 : exact [] names = None).
  { apply exact_stage_None. intros m Hm Heq.
    apply (Hne m Hm), Hl. by rewrite <- Heq. }
  assert (E2 : partial [] default_threshold names = None).
  { apply partial_stage_None. intros m Hm _. unfold partial_score.
    apply max3_lt; apply Hsc; try done; unfold scorers.
    - left.
    - right. left.
    - right. right. left. }
  assert (E3 : fuzzy_stage catalog [] default_threshold all_scorers
               = (None, 0%Q)).
  { apply fuzzy_stage_none. intros sc Hin. apply extractOne_None.
    intros c Hc. by apply Hsc. }
  split_and!; try done.
  - intros n _. unfold contained. by rewrite Hl0, str_in_empty.
  - by rewrite (find_best_match_fuzzy _ _ _ _ _ _ [] _ E1 E2).
Qed.

End ResolverClaims.

(** ** The resolver on concrete catalogs *)

(** The exact stage on a catalog with two case variants of a title: the
    first one is found. *)
Lemma exact_stage_contract_witness :
  let catalog := [activity "Salt Sauna" "/salt"; activity "SALT SAUNA" "/salt2";
                  activity "Salt" "/s"] in
  exists pre n post r,
    activity_names catalog = pre ++ n :: post /\
    Ascii.lower (lit "salt sauna") = Ascii.lower n /\
    (forall m, m ∈ pre -> Ascii.lower (lit "salt sauna") <> Ascii.lower m) /\
    activity_details_map catalog !! n = Some r /\ title r = n /\
    exact_stage Ascii.lower catalog (lit "salt sauna")
      (activity_names catalog) = Some (Some r, 100%Q) /\
    forall t, resolve catalog (lit "salt sauna") t = (Some r, 100%Q).
Proof.
  intros catalog.
  apply (exact_stage_contract Ascii.lower RapidFuzz.ratio
           RapidFuzz.partial_ratio RapidFuzz.token_sort_ratio
           RapidFuzz.token_set_ratio catalog (lit "salt sauna")).
  exists (lit "Salt Sauna"). split; [left|reflexivity].
Defined.

(** C10, as stated, fails: with a case variant of the duplicated title
    earlier in the catalog, a query equal to the title up to case resolves
    to the record of the variant, not to the later duplicate. *)
Lemma duplicate_title_counterexample :
  let r0 := activity "SAUNA" "/upper" in
  let r1 := activity "Sauna" "/first" in
  let r2 := activity "Sauna" "/second" in
  title r1 = title r2 /\
  Ascii.lower (lit "sauna") = Ascii.lower (title r2) /\
  resolve [r0; r1; r2] (lit "sauna") default_threshold = (Some r0, 100%Q) /\
  r0 <> r2.
Proof.
  split_and!; [reflexivity | reflexivity | by vm_compute | discriminate].
Qed.

(** A catalog with a duplicated title: the later record is found. *)
Lemma duplicate_title_last_record_witness :
  let r1 := activity "Sauna" "/first" in
  let r2 := activity "Sauna" "/second" in
  let catalog := [r1; activity "Pool" "/pool"; r2] in
  activity_names catalog = [lit "Sauna"; lit "Pool"; lit "Sauna"] /\
  activity_details_map catalog !! title r2 = Some r2 /\
  (forall t, resolve catalog (lit "SAUNA") t = (Some r2, 100%Q)) /\
  (r1 <> r2 -> forall t, (resolve catalog (lit "SAUNA") t).1 <> Some r1).
Proof.
  intros r1 r2 catalog.
  apply (duplicate_title_last_record Ascii.lower RapidFuzz.ratio
           RapidFuzz.partial_ratio RapidFuzz.token_sort_ratio
           RapidFuzz.token_set_ratio catalog (lit "SAUNA")
           [] [activity "Pool" "/pool"] [] r1 r2).
  - reflexivity.
  - reflexivity.
  - intros r Hr. elem_cases Hr.
  - reflexivity.
  - intros r Hr. elem_cases Hr.
Defined.

(** Three containment candidates of the query: the first is skipped
    (score 0), the second is returned (score 80), the third is never
    reached although it scores 100. *)
Lemma containment_stage_greedy_witness :
  let catalog := [activity "SAUNA BIG" "/1"; activity "Sauna big" "/2";
                  activity "sauna big" "/3"] in
  let score := partial_score RapidFuzz.ratio RapidFuzz.partial_ratio
                 RapidFuzz.token_sort_ratio (lit "sauna") in
  (score (lit "SAUNA BIG") < 60)%Q /\
  (60 <= score (lit "Sauna big"))%Q /\
  (score (lit "Sauna big") < score (lit "sauna big"))%Q /\
  (exists r, activity_details_map catalog !! lit "Sauna big" = Some r /\
             title r = lit "Sauna big" /\
             resolve catalog (lit "sauna") 60
             = (Some r, score (lit "Sauna big"))) /\
  (forall b, b ∈ [lit "sauna big"] ->
             contained Ascii.lower (lit "sauna") b = true ->
             (score (lit "Sauna big") < score b)%Q ->
             resolve catalog (lit "sauna") 60
             <> (activity_details_map catalog !! b, score b)).
Proof.
  intros catalog score.
  split; [reflexivity|]. split; [by vm_compute|]. split; [reflexivity|].
  apply (containment_stage_greedy Ascii.lower RapidFuzz.ratio
           RapidFuzz.partial_ratio RapidFuzz.token_sort_ratio
           RapidFuzz.token_set_ratio catalog (lit "sauna") 60
           [lit "SAUNA BIG"] [lit "sauna big"] (lit "Sauna big")).
  - reflexivity.
  - intros m Hm. elem_cases Hm; by vm_compute.
  - reflexivity.
  - by vm_compute.
  - intros m Hm _. elem_cases Hm. reflexivity.
Defined.

(** A query with the words of a title in another order: the whole-string
    ratio finds nothing, the partial ratio is beaten by the token-sort
    ratio, and the token-set ratio, which ties with it, comes too late. *)
Lemma best_effort_contract_witness :
  let catalog := [activity "Salt Sauna" "/1"; activity "Pool Yoga" "/2"] in
  let q := lit "Sauna Salt" in
  let names := activity_names catalog in
  extractOne RapidFuzz.ratio q names 60 = None /\
  (exists r, activity_details_map catalog !! lit "Salt Sauna" = Some r /\
             title r = lit "Salt Sauna" /\
             resolve catalog q 60
             = (Some r, RapidFuzz.token_sort_ratio q (lit "Salt Sauna"))).
Proof.
  intros catalog q names. split; [reflexivity|].
  refine (proj1 (proj2 (proj2 (proj2
            (best_effort_contract Ascii.lower RapidFuzz.ratio
               RapidFuzz.partial_ratio RapidFuzz.token_sort_ratio
               RapidFuzz.token_set_ratio catalog q 60 _ _))))
            [RapidFuzz.ratio; RapidFuzz.partial_ratio]
            RapidFuzz.token_sort_ratio [RapidFuzz.token_set_ratio]
            (lit "Salt Sauna") _ 0%nat _ _ _ _ _).
  - reflexivity.
  - reflexivity.
  - reflexivity.
  - by vm_compute.
  - reflexivity.
  - intros sc' c' s' i' Hin E. elem_cases Hin.
    + vm_compute in E. discriminate E.
    + vm_compute in E. injection E as <- <- <-. reflexivity.
  - intros sc' c' s' i' Hin E. elem_cases Hin.
    vm_compute in E. injection E as <- <- <-. by vm_compute.
Defined.

(** C2, as stated, fails: lowering the threshold from 90 to 60 lowers the
    score of the returned match from 100 to 80, because at 60 the
    containment stage stops at the earlier candidate. *)
Lemma threshold_monotone_counterexample :
  let a := activity "Sauna big" "/1" in
  let b := activity "sauna big" "/2" in
  let high := resolve [a; b] (lit "sauna") 90 in
  let low := resolve [a; b] (lit "sauna") 60 in
  (60 < 90)%Q /\
  high.1 = Some b /\ (high.2 == 100)%Q /\
  low.1 = Some a /\ (low.2 == 80)%Q /\
  (low.2 < high.2)%Q.
Proof. by vm_compute. Qed.

(** Between the thresholds 85 and 90 no containment score lies: the result
    is the same. *)
Lemma threshold_monotone_witness :
  let catalog := [activity "Sauna big" "/1"; activity "sauna big" "/2"] in
  (85 <= 90)%Q /\
  (resolve catalog (lit "sauna") 90).1 <> None /\
  resolve catalog (lit "sauna") 85 = resolve catalog (lit "sauna") 90.
Proof.
  intros catalog. split; [by vm_compute|]. split; [by vm_compute|].
  refine (proj1 (proj2
            (threshold_monotone Ascii.lower RapidFuzz.ratio
               RapidFuzz.partial_ratio RapidFuzz.token_sort_ratio
               RapidFuzz.token_set_ratio catalog (lit "sauna") 85 90 _)) _ _).
  - by vm_compute.
  - by vm_compute.
  - intros m Hm _. elem_cases Hm.
    + intros H. by vm_compute in H.
    + intros _. by vm_compute.
Defined.

(** ** The empty query and the scorers of the library *)

Lemma ascii_space_unicode (c : N) :
  Ascii.is_space c = true -> unicode_space c = true.
Proof.
  unfold Ascii.is_space, unicode_space. intros ->. done.
Qed.

Lemma tokens_loop_nonempty (s cur : str) :
  Forall (fun t => t <> []) (RapidFuzz.tokens_loop s cur).
Proof.
  assert (Hrev : forall (x : N) l, reverse (x :: l) <> []).
  { intros x l. rewrite reverse_cons. by destruct (reverse l). }
  revert cur. induction s as [|c s IH]; intros cur; simpl.
  - destruct cur as [|x cur]; [done|]. by repeat constructor.
  - destruct (Ascii.is_space c); [|done].
    destruct cur as [|x cur]; [done|]. by constructor.
Qed.

Lemma tokens_loop_some (s cur : str) :
  cur <> [] \/ (exists c, c ∈ s /\ Ascii.is_space c = false) ->
  RapidFuzz.tokens_loop s cur <> [].
Proof.
  revert cur. induction s as [|c s IH]; intros cur H; simpl.
  - destruct H as [H|(c & Hc & _)]; [by destruct cur|].
    by apply elem_of_nil in Hc.
  - destruct (Ascii.is_space c) eqn:E; [|by apply IH; left].
    destruct cur as [|x cur]; [|done]. apply IH. right.
    destruct H as [H|(d & Hd & Hs)]; [done|]. exists d. split; [|done].
    apply elem_of_cons in Hd as [->|Hd]; [congruence|done].
Qed.

Lemma insert_sorted_Forall (P : str -> Prop) (t : str) (l : list str) :
  P t -> Forall P l -> Forall P (RapidFuzz.insert_sorted t l).
Proof.
  intros Ht Hl. induction Hl as [|u l Hu Hl IH]; simpl.
  - by repeat constructor.
  - destruct (RapidFuzz.str_leb t u); by repeat constructor.
Qed.

Lemma sorted_Forall (P : str -> Prop) (l : list str) :
  Forall P l -> Forall P (RapidFuzz.sorted l).
Proof.
  induction 1 as [|t l Ht Hl IH]; [done|].
  by apply insert_sorted_Forall.
Qed.

Lemma sorted_not_nil (l : list str) : l <> [] -> RapidFuzz.sorted l <> [].
Proof.
  destruct l as [|t l]; [done|]. intros _. simpl.
  destruct (RapidFuzz.sorted l) as [|u l']; simpl; [done|].
  by destruct (RapidFuzz.str_leb t u).
Qed.

Lemma join_not_nil (l : list str) :
  l <> [] -> Forall (fun t => t <> []) l -> RapidFuzz.join l <> [].
Proof.
  destruct l as [|t l]; [done|]. intros _ [Ht _]%Forall_cons.
  destruct t as [|c t]; [done|]. by destruct l.
Qed.

(** The text that [token_sort_ratio] compares is not empty when the title
    has a character that is no whitespace. *)
Lemma sorted_tokens_not_nil (n : str) :
  (exists c, c ∈ n /\ unicode_space c = false) ->
  RapidFuzz.join (RapidFuzz.sorted (RapidFuzz.tokens n)) <> [].
Proof.
  intros (c & Hc & Hsp). apply join_not_nil.
  - apply sorted_not_nil, tokens_loop_some. right. exists c.
    split; [done|]. destruct (Ascii.is_space c) eqn:E; [|done].
    apply ascii_space_unicode in E. congruence.
  - apply sorted_Forall, tokens_loop_nonempty.
Qed.

Lemma ratio_empty_query (n : str) :
  n <> [] -> (RapidFuzz.ratio [] n < default_threshold)%Q.
Proof.
  destruct n as [|c n]; [done|]. intros _. by vm_compute.
Qed.

Lemma scorers_empty_query (sc : scorer) (n : str) :
  sc ∈ scorers RapidFuzz.ratio RapidFuzz.partial_ratio
        RapidFuzz.token_sort_ratio RapidFuzz.token_set_ratio ->
  (exists c, c ∈ n /\ unicode_space c = false) ->
  (sc [] n < default_threshold)%Q.
Proof.
  intros Hsc Hn.
  assert (n <> []) as Hne.
  { destruct Hn as (c & Hc & _). intros ->. by apply elem_of_nil in Hc. }
  unfold scorers in Hsc. elem_cases Hsc.
  - by apply ratio_empty_query.
  - destruct n; [done|]. by vm_compute.
  - unfold RapidFuzz.token_sort_ratio.
    apply ratio_empty_query. by apply sorted_tokens_not_nil.
  - unfold RapidFuzz.token_set_ratio. simpl.
    by destruct (RapidFuzz.dedup (RapidFuzz.tokens n)).
Qed.

Section EmptyQuery.

Variable lower : str -> str.
Variable catalog : list ActivityDetail.

Local Abbreviation names := (activity_names catalog).
Local Abbreviation library_scorers :=
  (scorers RapidFuzz.ratio RapidFuzz.partial_ratio
     RapidFuzz.token_sort_ratio RapidFuzz.token_set_ratio).
Local Abbreviation resolver :=
  (find_best_match lower RapidFuzz.ratio RapidFuzz.partial_ratio
     RapidFuzz.token_sort_ratio RapidFuzz.token_set_ratio catalog).

(** C9.  [find_best_match] raises no error and a missing match is a
    normal result: for every query and threshold the result is a record
    of the catalog with a score, or [(None, 0)].  In particular, at the
    default threshold 60 and for an index whose titles each have a
    character that is no whitespace, the empty query loses every stage
    and yields [(None, 0)], although it is contained in every title.
    The scorers are those of the library, in the model of [RapidFuzz];
    [str.lower] maps the empty string, and no other, to the empty
    string. *)
Theorem empty_query_no_match :
  (forall q t,
      (exists r s, resolver q t = (Some r, s) /\ r ∈ catalog) \/
      resolver q t = (None, 0%Q)) /\
  (lower [] = [] ->
   (forall s, lower s = [] -> s = []) ->
   (forall n, n ∈ names -> exists c, c ∈ n /\ unicode_space c = false) ->
   (forall n, n ∈ names -> contained lower [] n = true) /\
   exact_stage lower catalog [] names = None /\
   partial_stage lower RapidFuzz.ratio RapidFuzz.partial_ratio
     RapidFuzz.token_sort_ratio catalog [] default_threshold names = None /\
   fuzzy_stage catalog [] default_threshold library_scorers = (None, 0%Q) /\
   resolver [] default_threshold = (None, 0%Q)).
Proof.
  destruct (losing_scorers_no_match lower RapidFuzz.ratio
              RapidFuzz.partial_ratio RapidFuzz.token_sort_ratio
              RapidFuzz.token_set_ratio catalog) as [Hshape Hempty].
  split; [exact Hshape|]. intros Hl0 Hl Hvisible.
  apply Hempty; [done|done| |].
  - intros n Hn ->. destruct (Hvisible [] Hn) as (c & Hc & _).
    by apply elem_of_nil in Hc.
  - intros sc n Hsc Hn. apply scorers_empty_query; [done|].
    by apply Hvisible.
Qed.

End EmptyQuery.

(** A title of one space is not empty, and the empty query finds it: its
    sorted tokens make the empty text, which [token_sort_ratio] scores 100
    against the empty query. *)
Lemma empty_query_counterexample :
  let catalog := [activity " " "/1"; activity "Sauna" "/2"] in
  (forall n, n ∈ activity_names catalog -> n <> []) /\
  RapidFuzz.token_sort_ratio [] (lit " ") = 100%Q /\
  resolve catalog [] default_threshold
  = (Some (activity " " "/1"), 100%Q) /\
  resolve catalog [] default_threshold <> (None, 0%Q).
Proof.
  intros catalog. split_and!.
  - intros n Hn. elem_cases Hn; discriminate.
  - reflexivity.
  - reflexivity.
  - discriminate.
Qed.

(** The empty query on a catalog of two titles. *)
Lemma empty_query_no_match_witness :
  let catalog := [activity "Sauna" "/1"; activity "Pool Yoga" "/2"] in
  (forall n, n ∈ activity_names catalog ->
             contained Ascii.lower [] n = true) /\
  resolve catalog [] default_threshold = (None, 0%Q).
Proof.
  intros catalog.
  assert (H := proj2 (empty_query_no_match Ascii.lower catalog)).
  destruct H as (Hc & _ & _ & _ & Hr).
  - reflexivity.
  - intros [|c s]; [reflexivity|discriminate].
  - intros n Hn. elem_cases Hn.
    + exists 83. split; [left|reflexivity].
    + exists 80. split; [left|reflexivity].
  - split; [exact Hc|exact Hr].
Defined.

(** * The parser *)

(** ** Regular expressions *)

Section RegexFacts.

Variables is_decimal is_space : N -> bool.

Local Abbreviation nullable := nullable.
Local Abbreviation deriv := (deriv is_decimal is_space).
Local Abbreviation matches := (matches is_decimal is_space).
Local Abbreviation may_accept := (may_accept is_decimal is_space).

Lemma void_not_nullable (r : regex) : is_void r = true -> nullable r = false.
Proof.
  induction r as [| | | | |r1 IH1 r2 IH2|r1 IH1 r2 IH2|]; simpl; try done.
  - intros [H|H]%orb_true_iff.
    + by rewrite (IH1 H).
    + rewrite (IH2 H). apply andb_false_r.
  - intros [H1 H2]%andb_true_iff. by rewrite (IH1 H1), (IH2 H2).
Qed.

Lemma void_deriv (c : N) (r : regex) :
  is_void r = true -> is_void (deriv c r) = true.
Proof.
  induction r as [| | | | |r1 IH1 r2 IH2|r1 IH1 r2 IH2|]; simpl; try done.
  - intros [H|H]%orb_true_iff.
    + rewrite (IH1 H), (void_not_nullable r1 H). done.
    + rewrite H, orb_true_r. simpl.
      destruct (nullable r1); [by apply IH2|done].
  - intros [H1 H2]%andb_true_iff. by rewrite (IH1 H1), (IH2 H2).
Qed.

Lemma void_no_match (r : regex) (s : str) :
  is_void r = true -> matches r s = false.
Proof.
  revert r. induction s as [|c s IH]; intros r H; simpl.
  - by apply void_not_nullable.
  - by apply IH, void_deriv.
Qed.

(** The derivative by a character that no leaf accepts is empty. *)
Lemma deriv_reject (c : N) (r : regex) :
  may_accept r c = false -> is_void (deriv c r) = true.
Proof.
  induction r as [| |a| | |r1 IH1 r2 IH2|r1 IH1 r2 IH2|r1 IH1]; simpl;
    try done.
  - by intros ->.
  - by intros ->.
  - by intros ->.
  - intros [H1 H2]%orb_false_iff. rewrite (IH1 H1). simpl.
    destruct (nullable r1); [by apply IH2|done].
  - intros [H1 H2]%orb_false_iff. by rewrite (IH1 H1), (IH2 H2).
  - intros H. by rewrite (IH1 H).
Qed.

(** A derivative accepts no new character. *)
Lemma deriv_may_accept (c c' : N) (r : regex) :
  may_accept (deriv c r) c' = true -> may_accept r c' = true.
Proof.
  induction r as [| |a| | |r1 IH1 r2 IH2|r1 IH1 r2 IH2|r1 IH1]; simpl;
    try done.
  - by destruct (a =? c).
  - by destruct (is_decimal c).
  - by destruct (is_space c).
  - intros [[H|H]%orb_true_iff|H]%orb_true_iff.
    + by rewrite (IH1 H).
    + rewrite H. apply orb_true_r.
    + destruct (nullable r1); [|done]. rewrite (IH2 H). apply orb_true_r.
  - intros [H|H]%orb_true_iff.
    + by rewrite (IH1 H).
    + rewrite (IH2 H). apply orb_true_r.
  - intros [H|H]%orb_true_iff; [by apply IH1|done].
Qed.

(** Every character of a matched string is accepted by a leaf. *)
Lemma matches_alphabet (r : regex) (s : str) :
  matches r s = true -> forall c, c ∈ s -> may_accept r c = true.
Proof.
  revert r. induction s as [|c s IH]; intros r H c' Hc'.
  - by apply elem_of_nil in Hc'.
  - simpl in H. apply elem_of_cons in Hc' as [->|Hc'].
    + destruct (may_accept r c) eqn:E; [done|].
      apply deriv_reject in E. by rewrite (void_no_match _ s E) in H.
    + eapply deriv_may_accept, IH; done.
Qed.

(** The characters of a time line. *)
Lemma is_time_line_chars (line : str) :
  is_time_line is_decimal is_space line = true ->
  forall c, c ∈ line -> time_char is_decimal is_space c = true.
Proof.
  intros H c Hc. unfold is_time_line, re_match_anchored in H.
  pose proof (matches_alphabet _ _ H c Hc) as Ha.
  unfold time_char.
  rewrite (N.eqb_sym c 58), (N.eqb_sym c 45), (N.eqb_sym c 10).
  cbn -[N.eqb] in Ha.
  by destruct (is_decimal c), (is_space c), (58 =? c), (45 =? c), (10 =? c).
Qed.

End RegexFacts.

(** ** Lines and the loop *)

Lemma day_token_head (token : str) :
  In token day_tokens ->
  exists f rest, token = f :: rest /\ ascii_lower_letter f = true.
Proof.
  intros H. vm_compute in H.
  repeat (destruct H as [<-|H]; [by eexists _, _|]). done.
Qed.

Section ParserFacts.

Variable lower : str -> str.
Variables is_decimal is_space : N -> bool.

Local Abbreviation is_time := (is_time_line is_decimal is_space).
Local Abbreviation is_days := (is_days_line lower).
Local Abbreviation step := (parse_step lower is_decimal is_space).
Local Abbreviation run := (parse_lines lower is_decimal is_space).
Local Abbreviation emit := (emits lower is_decimal is_space).
Local Abbreviation emitting := (emitting_lines lower is_decimal is_space).

(** No ASCII letter is a character of a time line. *)
Lemma letter_not_time_char (c : N) :
  (forall c, ascii_lower_letter c = true -> is_decimal c = false) ->
  (forall c, ascii_lower_letter c = true -> is_space c = false) ->
  ascii_lower_letter c = true -> time_char is_decimal is_space c = false.
Proof.
  intros Hd Hs Hc. unfold time_char. rewrite (Hd c Hc), (Hs c Hc). simpl.
  unfold ascii_lower_letter in Hc.
  apply andb_true_iff in Hc as [H1%N.leb_le H2%N.leb_le].
  destruct (N.eqb_spec c 58), (N.eqb_spec c 45), (N.eqb_spec c 10);
    simpl; lia || done.
Qed.

(** A line of the shape of a time line contains no weekday token. *)
Lemma time_line_not_days (line : str) :
  (forall c, ascii_lower_letter c = true -> is_decimal c = false) ->
  (forall c, ascii_lower_letter c = true -> is_space c = false) ->
  (forall s, (forall c, c ∈ s -> time_char is_decimal is_space c = true) ->
             lower s = s) ->
  is_time line = true -> is_days line = false.
Proof.
  intros Hd Hs Hl Ht.
  pose proof (is_time_line_chars _ _ _ Ht) as Hchars.
  destruct (is_days line) eqn:E; [exfalso|done].
  unfold is_days_line in E. apply existsb_exists in E as (token & Hin & Hsub).
  rewrite (Hl line Hchars) in Hsub.
  apply str_in_spec in Hsub as (pre & post & Hline).
  destruct (day_token_head token Hin) as (f & rest & -> & Hf).
  pose proof (letter_not_time_char f Hd Hs Hf) as Hno.
  rewrite (Hchars f) in Hno; [done|].
  rewrite Hline. apply elem_of_app. right. left.
Qed.

Lemma parse_step_entries (st : ParseState) (line : str) :
  entries (step st line)
  = entries st ++ (if emit st line then [emitted_row st line] else []).
Proof.
  unfold parse_step, emits, emitted_row.
  destruct (is_days line), (is_time line), (truthy (current_location st));
    simpl; by rewrite ?app_nil_r.
Qed.

Lemma parse_step_clears (st : ParseState) (line : str) :
  emit st line = true \/ is_days line = true ->
  current_location (step st line) = None.
Proof.
  unfold parse_step, emits.
  destruct (is_days line), (is_time line), (truthy (current_location st));
    simpl; intros [H|H]; done.
Qed.

Lemma parse_lines_app (l1 l2 : list str) (st : ParseState) :
  run (l1 ++ l2) st = run l2 (run l1 st).
Proof. unfold parse_lines. apply foldl_app. Qed.

(** The times of the rows are the emitting lines, in source order. *)
Lemma parse_lines_times (lines : list str) (st : ParseState) :
  row_time <$> entries (run lines st)
  = (row_time <$> entries st) ++ emitting lines st.
Proof.
  revert st. induction lines as [|line lines IH]; intros st; simpl.
  - by rewrite app_nil_r.
  - unfold parse_lines in *. simpl. rewrite IH, parse_step_entries.
    rewrite fmap_app, <- app_assoc. f_equal. f_equal.
    by destruct (emit st line).
Qed.

Lemma emitting_lines_sublist (lines : list str) (st : ParseState) :
  sublist (emitting lines st) lines.
Proof.
  revert st. induction lines as [|line lines IH]; intros st; simpl.
  - constructor.
  - destruct (emit st line); simpl.
    + apply sublist_skip, IH.
    + apply sublist_cons, IH.
Qed.

Lemma emitting_lines_time (lines : list str) (st : ParseState) :
  Forall (fun l => is_time l = true /\ is_days l = false)
         (emitting lines st).
Proof.
  revert st. induction lines as [|line lines IH]; intros st; simpl.
  - constructor.
  - destruct (emit st line) eqn:E; simpl; [|apply IH].
    constructor; [|apply IH]. unfold emits in E.
    apply andb_true_iff in E as [[E1 E2]%andb_true_iff _].
    by apply negb_true_iff in E1.
Qed.

(** A days line or a location line makes the states of two runs equal as
    soon as they agree on the rows and on the days. *)
Lemma parse_step_forgets_location (st st' : ParseState) (line : str) :
  entries st = entries st' ->
  current_days st = current_days st' ->
  is_days line = true \/ is_time line = false ->
  step st line = step st' line.
Proof.
  intros He Hd H. unfold parse_step.
  destruct (is_days line); [by rewrite He|].
  destruct H as [H|H]; [done|]. rewrite H. by rewrite He, Hd.
Qed.

(** A location line changes neither the rows nor the days. *)
Lemma parse_step_location (st : ParseState) (line : str) :
  is_days line = false -> is_time line = false ->
  entries (step st line) = entries st /\
  current_days (step st line) = current_days st.
Proof. intros H1 H2. unfold parse_step. by rewrite H1, H2. Qed.

(** A location line that no time line follows before the next days line
    or the end of the input leaves the rows as they are without it. *)
Lemma dangling_location (st : ParseState) (pre locs rest : list str)
    (loc : str) :
  is_days loc = false -> is_time loc = false ->
  Forall (fun l => is_days l = false /\ is_time l = false) locs ->
  (rest = [] \/ exists d rest', rest = d :: rest' /\ is_days d = true) ->
  entries (run (pre ++ loc :: locs ++ rest) st)
  = entries (run (pre ++ locs ++ rest) st).
Proof.
  intros Hd Ht Hlocs Hrest.
  rewrite !parse_lines_app. generalize (run pre st). clear st. intros st.
  change (loc :: locs ++ rest) with ([loc] ++ locs ++ rest).
  rewrite parse_lines_app.
  destruct (parse_step_location st loc Hd Ht) as [He Hdays].
  change (run [loc] st) with (step st loc).
  generalize dependent (step st loc). intros st' He Hdays.
  destruct locs as [|l locs].
  - simpl. destruct Hrest as [->|(d & rest' & -> & Hdd)]; [done|].
    unfold parse_lines. simpl.
    by rewrite (parse_step_forgets_location st' st d He Hdays
                  (or_introl Hdd)).
  - apply Forall_cons in Hlocs as [[_ Hl] _].
    unfold parse_lines. simpl.
    by rewrite (parse_step_forgets_location st' st l He Hdays
                  (or_intror Hl)), foldl_app.
Qed.

End ParserFacts.

(** ** ASCII text *)

(** On ASCII text the Unicode services of Python are those of [Ascii]. *)
Section AsciiText.

Variable lower : str -> str.
Variables is_decimal is_space : N -> bool.

Hypothesis lower_ascii :
  forall s, Forall (fun c => c < 128) s -> lower s = Ascii.lower s.
Hypothesis is_decimal_ascii :
  forall c, c < 128 -> is_decimal c = Ascii.is_decimal c.
Hypothesis is_space_ascii :
  forall c, c < 128 -> is_space c = Ascii.is_space c.

Lemma deriv_ascii (c : N) (r : regex) :
  c < 128 ->
  deriv is_decimal is_space c r = deriv Ascii.is_decimal Ascii.is_space c r.
Proof.
  intros Hc.
  induction r as [| | | | |r1 IH1 r2 IH2|r1 IH1 r2 IH2|r1 IH1]; simpl;
    rewrite ?IH1, ?IH2, ?is_decimal_ascii, ?is_space_ascii by done; done.
Qed.

Lemma matches_ascii (r : regex) (s : str) :
  Forall (fun c => c < 128) s ->
  matches is_decimal is_space r s
  = matches Ascii.is_decimal Ascii.is_space r s.
Proof.
  intros Hs. revert r.
  induction Hs as [|c s Hc Hs IH]; intros r; simpl; [done|].
  by rewrite deriv_ascii, IH.
Qed.

Lemma is_time_line_ascii (line : str) :
  Forall (fun c => c < 128) line ->
  is_time_line is_decimal is_space line
  = is_time_line Ascii.is_decimal Ascii.is_space line.
Proof.
  intros H. unfold is_time_line, re_match_anchored. by apply matches_ascii.
Qed.

Lemma is_days_line_ascii (line : str) :
  Forall (fun c => c < 128) line ->
  is_days_line lower line = is_days_line Ascii.lower line.
Proof. intros H. unfold is_days_line. by rewrite lower_ascii. Qed.

Lemma parse_step_ascii (st : ParseState) (line : str) :
  Forall (fun c => c < 128) line ->
  parse_step lower is_decimal is_space st line
  = parse_step Ascii.lower Ascii.is_decimal Ascii.is_space st line.
Proof.
  intros H. unfold parse_step.
  by rewrite is_days_line_ascii, is_time_line_ascii.
Qed.

Lemma parse_lines_ascii (lines : list str) (st : ParseState) :
  Forall (Forall (fun c => c < 128)) lines ->
  parse_lines lower is_decimal is_space lines st
  = parse_lines Ascii.lower Ascii.is_decimal Ascii.is_space lines st.
Proof.
  intros H. revert st. unfold parse_lines.
  induction H as [|line lines Hl Hls IH]; intros st; simpl; [done|].
  by rewrite parse_step_ascii, IH.
Qed.

Lemma lstrip_ascii (s : str) :
  Forall (fun c => c < 128) s -> lstrip is_space s = lstrip Ascii.is_space s.
Proof.
  induction 1 as [|c s Hc Hs IH]; simpl; [done|].
  by rewrite is_space_ascii, IH.
Qed.

Lemma lstrip_Forall (P : N -> Prop) (sp : N -> bool) (s : str) :
  Forall P s -> Forall P (lstrip sp s).
Proof.
  induction 1 as [|c s Hc Hs IH]; simpl; [done|].
  destruct (sp c); [done|by constructor].
Qed.

Lemma strip_ascii (s : str) :
  Forall (fun c => c < 128) s -> strip is_space s = strip Ascii.is_space s.
Proof.
  intros H. unfold strip, rstrip.
  rewrite (lstrip_ascii s H), lstrip_ascii; [done|].
  by apply Forall_reverse, lstrip_Forall.
Qed.

Lemma split_loop_Forall (P : N -> Prop) (sep : N) (s cur : str) :
  Forall P s -> Forall P cur -> Forall (Forall P) (split_loop sep s cur).
Proof.
  intros Hs. revert cur.
  induction Hs as [|c s Hc Hs IH]; intros cur Hcur; simpl.
  - constructor; [|done]. by apply Forall_reverse.
  - destruct (c =? sep).
    + constructor; [|by apply IH]. by apply Forall_reverse.
    + apply IH. by constructor.
Qed.

Lemma clean_lines_ascii (program_text : str) :
  Forall (fun c => c < 128) program_text ->
  clean_lines is_space program_text = clean_lines Ascii.is_space program_text
  /\ Forall (Forall (fun c => c < 128))
            (clean_lines Ascii.is_space program_text).
Proof.
  intros H. unfold clean_lines, split.
  pose proof (split_loop_Forall _ 10 program_text [] H
                (List.Forall_nil _)) as Hp.
  induction Hp as [|l ls Hl Hls IH]; [done|].
  destruct IH as [IH1 IH2]. rewrite !fmap_cons. cbn [List.filter].
  rewrite (strip_ascii l Hl), IH1.
  split; [done|].
  destruct (strip Ascii.is_space l) eqn:E; [done|].
  constructor; [|done]. rewrite <- E. unfold strip, rstrip.
  by apply Forall_reverse, lstrip_Forall, Forall_reverse, lstrip_Forall.
Qed.

(** The parser on an ASCII text with an ASCII title (or none). *)
Lemma parse_schedule_program_ascii (program_text : str)
    (activity_title : option str) :
  Forall (fun c => c < 128) program_text ->
  Forall (fun c => c < 128) (default [] activity_title) ->
  parse_schedule_program lower is_decimal is_space
    program_text activity_title
  = parse_schedule_program Ascii.lower Ascii.is_decimal Ascii.is_space
      program_text activity_title.
Proof.
  intros Htext Htitle. unfold parse_schedule_program.
  destruct program_text as [|c0 text0]; [done|].
  destruct (clean_lines_ascii _ Htext) as [-> Hlines].
  destruct (clean_lines Ascii.is_space (c0 :: text0)) as [|l ls]; [done|].
  apply Forall_cons in Hlines as [Hl Hls].
  assert (Hdp : drop_program lower (l :: ls)
                = drop_program Ascii.lower (l :: ls)).
  { unfold drop_program. by rewrite lower_ascii. }
  rewrite Hdp.
  assert (Hdp' : Forall (Forall (fun c => c < 128))
                   (drop_program Ascii.lower (l :: ls))).
  { unfold drop_program. destruct (str_eqb _ _); [done|by constructor]. }
  destruct (drop_program Ascii.lower (l :: ls)) as [|l' ls'].
  - done.
  - apply Forall_cons in Hdp' as [Hl' Hls'].
    assert (Hdt : drop_title lower activity_title (l' :: ls')
                  = drop_title Ascii.lower activity_title (l' :: ls')).
    { unfold drop_title. by rewrite !lower_ascii. }
    rewrite Hdt. f_equal. apply parse_lines_ascii.
    unfold drop_title. destruct (_ && _); [done|by constructor].
Qed.

End AsciiText.

(** The [Ascii] instance has the properties of the Unicode services that
    the parser relies on. *)

Lemma ascii_letter_not_decimal (c : N) :
  ascii_lower_letter c = true -> Ascii.is_decimal c = false.
Proof.
  unfold ascii_lower_letter, Ascii.is_decimal.
  intros [H1%N.leb_le H2%N.leb_le]%andb_true_iff.
  apply andb_false_iff. right. apply N.leb_gt. lia.
Qed.

Lemma ascii_letter_not_space (c : N) :
  ascii_lower_letter c = true -> Ascii.is_space c = false.
Proof.
  unfold ascii_lower_letter, Ascii.is_space.
  intros [H1%N.leb_le H2%N.leb_le]%andb_true_iff.
  apply orb_false_iff. split; apply andb_false_iff; right; apply N.leb_gt; lia.
Qed.

Lemma ascii_lower_time_chars (s : str) :
  (forall c, c ∈ s -> time_char Ascii.is_decimal Ascii.is_space c = true) ->
  Ascii.lower s = s.
Proof.
  induction s as [|c s IH]; intros H; [done|].
  unfold Ascii.lower in *. rewrite fmap_cons. f_equal.
  - specialize (H c ltac:(left)).
    unfold time_char, Ascii.is_decimal, Ascii.is_space in H.
    unfold Ascii.lower_char.
    destruct (65 <=? c) eqn:E1; [|done].
    destruct (c <=? 90) eqn:E2; [|done]. exfalso.
    apply N.leb_le in E1, E2.
    repeat (apply orb_true_iff in H as [H|H]);
      try (apply andb_true_iff in H as [H3%N.leb_le H4%N.leb_le]);
      try (apply N.eqb_eq in H); lia.
  - apply IH. intros c' Hc'. apply H. by right.
Qed.

(** ** The parser: the claims *)

Section ParserClaims.

Variable lower : str -> str.
Variables is_decimal is_space : N -> bool.

Local Abbreviation is_time := (is_time_line is_decimal is_space).
Local Abbreviation is_days := (is_days_line lower).
Local Abbreviation step := (parse_step lower is_decimal is_space).
Local Abbreviation run := (parse_lines lower is_decimal is_space).
Local Abbreviation parser := (parse_schedule_program lower is_decimal is_space).

(** The order of the two tests does not matter, and the loop body is the
    state machine of the specification wherever the two days tests agree.
    The loop body tests for a days line first and for a time line second;
    a line of the shape of a time line (digits, whitespace, a colon and a
    dash) contains no weekday token, so that no such line is ever a days
    line or a location line.  On a line on which the days test of the
    code and the days test of the specification agree, the classification
    of the code is that of the specification, and so is the step.  The
    Unicode services enter through three facts: no ASCII letter is a
    decimal digit or a whitespace character, and [str.lower] leaves a
    string of digits, whitespace, colons and dashes as it is. *)
Lemma classify_where_days_agree :
  (forall c, ascii_lower_letter c = true -> is_decimal c = false) ->
  (forall c, ascii_lower_letter c = true -> is_space c = false) ->
  (forall s, (forall c, c ∈ s -> time_char is_decimal is_space c = true) ->
             lower s = s) ->
  forall line,
    (is_time line = true ->
     is_days line = false /\
     classify lower is_decimal is_space line = TimeLine) /\
    (is_days line = is_days_line_spec lower line ->
     classify lower is_decimal is_space line
     = classify_spec lower is_decimal is_space line /\
     forall st, step st line
                = parse_step_spec lower is_decimal is_space st line).
Proof.
  intros Hd Hs Hl line.
  pose proof (time_line_not_days lower is_decimal is_space line Hd Hs Hl)
    as Hexcl.
  unfold parse_step_spec, classify, classify_spec, parse_step, emitted_row.
  split.
  - intros Et. by rewrite (Hexcl Et), Et.
  - intros <-. destruct (is_time line) eqn:Et.
    + by rewrite (Hexcl eq_refl).
    + by destruct (is_days line).
Qed.

(** The three tokens of the source with diacritics are dead.  They are
    stored with the capital letters [È] (U+00C8), [Ã] (U+00C3) and [Ä]
    (U+00C4); on a line whose lower-cased form has none of these letters
    the days test of the code is the test for the seven tokens written in
    ASCII. *)
Lemma diacritic_tokens_dead (value : str) :
  200 ∉ lower value -> 195 ∉ lower value -> 196 ∉ lower value ->
  is_days value
  = existsb (fun token => str_in token (lower value)) ascii_day_tokens.
Proof.
  intros H200 H195 H196.
  assert (Hdead : forall token c,
             c ∈ token -> c ∉ lower value ->
             str_in token (lower value) = false).
  { intros token c Hc Hnot.
    destruct (str_in token (lower value)) eqn:E; [|done].
    apply str_in_spec in E as (pre & post & E). exfalso. apply Hnot.
    rewrite E. apply elem_of_app. right. apply elem_of_app. by left. }
  unfold is_days_line, day_tokens, ascii_day_tokens. cbn [existsb].
  rewrite (Hdead (lit "mar" ++ [200; 8250] ++ lit "i") 200);
    [|apply (bool_decide_unpack _); by vm_compute|done].
  rewrite (Hdead (lit "s" ++ [195; 162] ++ lit "mb" ++ [196; 402]
                  ++ lit "t" ++ [196; 402]) 195);
    [|apply (bool_decide_unpack _); by vm_compute|done].
  rewrite (Hdead (lit "duminic" ++ [196; 402]) 196);
    [|apply (bool_decide_unpack _); by vm_compute|done].
  by rewrite !orb_false_l, !orb_false_r.
Qed.

(** C6.  The emission invariant of the parser.  A step of the loop adds
    a row exactly when the line is a time line met while the current
    location is set: it adds that one row, made of the current days, the
    current location and the line, at the end of the rows.  The current
    location is cleared by such a step and by every days line.  As a
    consequence a location line that is followed by no time line before
    the next days line or the end of the input leaves the rows as they
    would be without it, and the times of the rows of a run are the lines
    that emitted them, in their order in the source. *)
Theorem emission_invariant :
  (forall st line,
      entries (step st line)
      = entries st
        ++ (if emits lower is_decimal is_space st line
            then [emitted_row st line] else [])) /\
  (forall st line,
      emits lower is_decimal is_space st line = true ->
      is_days line = false /\ is_time line = true /\
      truthy (current_location st) = true) /\
  (forall st line,
      emits lower is_decimal is_space st line = true \/ is_days line = true ->
      current_location (step st line) = None) /\
  (forall st pre loc locs rest,
      is_days loc = false -> is_time loc = false ->
      Forall (fun l => is_days l = false /\ is_time l = false) locs ->
      (rest = [] \/ exists d rest', rest = d :: rest' /\ is_days d = true) ->
      entries (run (pre ++ loc :: locs ++ rest) st)
      = entries (run (pre ++ locs ++ rest) st)) /\
  (forall st lines,
      row_time <$> entries (run lines st)
      = (row_time <$> entries st)
        ++ emitting_lines lower is_decimal is_space lines st /\
      sublist (emitting_lines lower is_decimal is_space lines st) lines /\
      Forall (fun l => is_time l = true /\ is_days l = false)
             (emitting_lines lower is_decimal is_space lines st)).
Proof.
  split_and!.
  - apply parse_step_entries.
  - intros st line H. unfold emits in H.
    apply andb_true_iff in H as [[H1 H2]%andb_true_iff H3].
    by apply negb_true_iff in H1.
  - apply parse_step_clears.
  - intros st pre loc locs rest. apply dangling_location.
  - intros st lines. split_and!.
    + apply parse_lines_times.
    + apply emitting_lines_sublist.
    + apply emitting_lines_time.
Qed.

(** C7.  Concrete parses.  The empty text parses to the empty list,
    whatever the title.  The four lines "Program", "Luni", "Sauna",
    "18:00 - 19:00", parsed with no title, give exactly one row with days
    "Luni", location "Sauna" and time "18:00 - 19:00"; the first line is
    dropped by the preprocessing, which compares it with "program" after
    case folding.  The Unicode services are those of Python on ASCII
    text. *)
Theorem parse_examples :
  let text :=
    lit "Program" ++ 10 :: lit "Luni" ++ 10 :: lit "Sauna" ++ 10
      :: lit "18:00 - 19:00" in
  (forall activity_title, parser [] activity_title = []) /\
  ((forall s, Forall (fun c => c < 128) s -> lower s = Ascii.lower s) ->
   (forall c, c < 128 -> is_decimal c = Ascii.is_decimal c) ->
   (forall c, c < 128 -> is_space c = Ascii.is_space c) ->
   drop_program lower (clean_lines is_space text)
   = [lit "Luni"; lit "Sauna"; lit "18:00 - 19:00"] /\
   parser text None
   = [ {| row_days := lit "Luni";
          row_location := lit "Sauna";
          row_time := lit "18:00 - 19:00" |} ]).
Proof.
  intros text. split; [done|]. intros Hl Hd Hs.
  assert (Htext : Forall (fun c => c < 128) text).
  { apply Forall_forall. intros c Hc. vm_compute in Hc.
    elem_cases Hc; reflexivity. }
  split.
  - destruct (clean_lines_ascii is_space Hs text Htext) as [-> _].
    unfold drop_program.
    replace (clean_lines Ascii.is_space text)
      with [lit "Program"; lit "Luni"; lit "Sauna"; lit "18:00 - 19:00"]
      by (by vm_compute).
    rewrite Hl; [by vm_compute|].
    apply Forall_forall. intros c Hc. vm_compute in Hc.
    elem_cases Hc; reflexivity.
  - rewrite (parse_schedule_program_ascii lower is_decimal is_space
               Hl Hd Hs text None Htext); [by vm_compute|constructor].
Qed.

End ParserClaims.

(** C5.  The line classifier misses the weekday names with diacritics.
    The specification counts a line as a days line when it contains a
    weekday name or one of its diacritic variants; the list of tokens of
    the code names these variants, but holds them as mis-encoded
    sequences that no lower-cased line contains.  On the line [marți]
    the days test of the specification holds and the days test of the
    code fails, so that the code takes the line for a location line: of
    the text [marți], [Sauna 1], [18:00] it makes a row without days,
    where the state machine of the specification makes the row of the
    days [marți]. *)
Theorem diacritic_days_line_missed :
  let line := lit "mar" ++ [539] ++ lit "i" in
  let text := line ++ [10] ++ lit "Sauna 1" ++ [10] ++ lit "18:00" in
  Ascii.lower line = line /\
  is_days_line_spec Ascii.lower line = true /\
  is_days_line Ascii.lower line = false /\
  classify_spec Ascii.lower Ascii.is_decimal Ascii.is_space line
  = DaysLine /\
  classify Ascii.lower Ascii.is_decimal Ascii.is_space line
  = LocationLine /\
  parse text None
  = [{| row_days := [];
        row_location := lit "Sauna 1"; row_time := lit "18:00" |}] /\
  entries (foldl (parse_step_spec Ascii.lower Ascii.is_decimal
                    Ascii.is_space)
                 initial_state (clean_lines Ascii.is_space text))
  = [{| row_days := line;
        row_location := lit "Sauna 1"; row_time := lit "18:00" |}].
Proof. by vm_compute. Qed.

(** The location "Sauna" is overwritten by "Pool", which the days line
    "Joi" clears: the rows are those of the text without "Sauna". *)
Lemma emission_invariant_witness :
  let lines := [lit "Luni"; lit "Sauna"; lit "Pool"; lit "Joi"; lit "Bar";
                lit "18:00"] in
  entries (parse_lines Ascii.lower Ascii.is_decimal Ascii.is_space lines
             initial_state)
  = entries (parse_lines Ascii.lower Ascii.is_decimal Ascii.is_space
               [lit "Luni"; lit "Pool"; lit "Joi"; lit "Bar"; lit "18:00"]
               initial_state).
Proof.
  apply (proj1 (proj2 (proj2 (proj2
           (emission_invariant Ascii.lower Ascii.is_decimal Ascii.is_space))))
           initial_state [lit "Luni"] (lit "Sauna") [lit "Pool"]
           [lit "Joi"; lit "Bar"; lit "18:00"]).
  - reflexivity.
  - reflexivity.
  - repeat constructor.
  - right. exists (lit "Joi"), [lit "Bar"; lit "18:00"].
    split; reflexivity.
Defined.

(** The four-line text, with the ASCII services. *)
Lemma parse_examples_witness :
  parse (lit "Program" ++ 10 :: lit "Luni" ++ 10 :: lit "Sauna" ++ 10
           :: lit "18:00 - 19:00") None
  = [ {| row_days := lit "Luni";
         row_location := lit "Sauna";
         row_time := lit "18:00 - 19:00" |} ].
Proof.
  apply (proj2 (parse_examples Ascii.lower Ascii.is_decimal Ascii.is_space)).
  - reflexivity.
  - reflexivity.
  - reflexivity.
Defined.

(** * The reconciliation report *)

Section ReportFacts.

Variable lower : str -> str.
Variables ratio partial_ratio token_sort_ratio token_set_ratio : scorer.
Variable catalog : list ActivityDetail.

Local Abbreviation names := (activity_names catalog).
Local Abbreviation resolver :=
  (find_best_match lower ratio partial_ratio token_sort_ratio
     token_set_ratio catalog).
Local Abbreviation matched :=
  (matched_titles lower ratio partial_ratio token_sort_ratio
     token_set_ratio catalog).
Local Abbreviation unmatched :=
  (unmatched_for lower ratio partial_ratio token_sort_ratio
     token_set_ratio catalog).

(** The matched titles are the titles of the records that some schedule
    name resolves to. *)
Lemma elem_of_matched_titles (S : gset (list N)) (n : str) :
  n ∈ matched S <->
  exists s r sc, s ∈ S /\ resolver s default_threshold = (Some r, sc)
                 /\ title r = n.
Proof.
  unfold matched_titles.
  rewrite elem_of_list_to_set, list_elem_of_omap. split.
  - intros (s & Hs & Hr). apply elem_of_elements in Hs.
    destruct (resolver s default_threshold) as [[r|] sc] eqn:E;
      simpl in Hr; [|done].
    injection Hr as <-. by exists s, r, sc.
  - intros (s & r & sc & Hs & Hr & <-). exists s.
    split; [by apply elem_of_elements|]. by rewrite Hr.
Qed.

Lemma matched_titles_empty : matched ∅ = ∅.
Proof. unfold matched_titles. by rewrite elements_empty. Qed.

(** A title of the index resolves to itself when no other title of the
    index equals it up to case. *)
Lemma resolve_own_title (n : str) (t : Q) :
  (forall m, m ∈ names -> lower n = lower m -> m = n) ->
  n ∈ names ->
  exists r, resolver n t = (Some r, 100%Q) /\ title r = n.
Proof.
  intros Hinj Hn.
  destruct (exact_stage lower catalog n names) as [res|] eqn:E.
  - pose proof E as E'.
    apply exact_stage_Some in E' as (pre & m & post & Hm & Hl & _ & ->).
    assert (m = n) as ->.
    { apply Hinj; [|done]. rewrite Hm. apply elem_of_app. right. left. }
    destruct (details_of_name catalog n Hn) as (r & Hr & Ht & _).
    exists r. split; [|done].
    rewrite (find_best_match_exact _ _ _ _ _ _ n t _ E). by rewrite Hr.
  - exfalso. by apply (proj1 (exact_stage_None _ _ _ _) E n Hn).
Qed.

Lemma filter_all (P : str -> Prop) `{!forall x, Decision (P x)}
    (l : list str) :
  (forall x, x ∈ l -> P x) -> filter P l = l.
Proof.
  induction l as [|x l IH]; intros Hall; [done|].
  rewrite filter_cons_True by (apply Hall; left).
  f_equal. apply IH. intros y Hy. apply Hall. by right.
Qed.

Lemma filter_none (P : str -> Prop) `{!forall x, Decision (P x)}
    (l : list str) :
  (forall x, x ∈ l -> ~ P x) -> filter P l = [].
Proof.
  induction l as [|x l IH]; intros Hall; [done|].
  rewrite filter_cons_False by (apply Hall; left).
  apply IH. intros y Hy. apply Hall. by right.
Qed.

Lemma schedule_names_empty : schedule_names ∅ = ∅.
Proof. unfold schedule_names. by rewrite map_to_list_empty. Qed.

(** C8 (amended).  [unmatched_activities] is the sequence of the names of
    the index, in catalog order, that are the title of no record matched
    by a schedule name.  For a schedule without names it is the whole
    name sequence.  For a schedule that contains every title of the index
    verbatim it is empty, provided no two different titles of the index
    are equal up to case. *)
Theorem unmatched_contract (schedule : gmap (list N) DayData) :
  let S := schedule_names schedule in
  let result :=
    unmatched_activities lower ratio partial_ratio token_sort_ratio
      token_set_ratio catalog schedule in
  (forall n, n ∈ result <->
             n ∈ names /\
             ~ exists s r sc, s ∈ S /\
                 resolver s default_threshold = (Some r, sc) /\
                 title r = n) /\
  result = filter (fun n => n ∉ matched S) names /\
  sublist result names /\
  (S = ∅ -> result = names) /\
  (schedule = ∅ -> result = names) /\
  ((forall n m, n ∈ names -> m ∈ names -> lower n = lower m -> m = n) ->
   (forall n, n ∈ names -> n ∈ S) ->
   result = []).
Proof.
  intros S result. unfold result, unmatched_activities, unmatched_for.
  fold S.
  assert (Hempty : S = ∅ -> filter (fun n => n ∉ matched S) names = names).
  { intros ->. apply filter_all. intros n _.
    rewrite matched_titles_empty. apply not_elem_of_empty. }
  split_and!.
  - intros n. rewrite list_elem_of_filter, elem_of_matched_titles. tauto.
  - done.
  - apply sublist_filter.
  - done.
  - intros ->. apply Hempty. apply schedule_names_empty.
  - intros Hinj Hall. apply filter_none. intros n Hn Hnot. apply Hnot.
    apply elem_of_matched_titles.
    destruct (resolve_own_title n default_threshold) as (r & Hr & Ht);
      [by intros m Hm; apply Hinj|done|].
    exists n, r, 100%Q. split_and!; [by apply Hall|done|done].
Qed.

End ReportFacts.

(** C8, as stated, fails: two titles of the catalog that differ in case
    only both resolve to the first of them, so that the second stays
    unmatched although the schedule contains it verbatim. *)
Lemma unmatched_counterexample :
  let catalog := [activity "SAUNA" "/1"; activity "Sauna" "/2"] in
  let schedule : gmap (list N) DayData :=
    {[ lit "Luni" :=
         {| theme := [];
            activities := Some [entry "SAUNA"; entry "Sauna"] |} ]} in
  (forall n, n ∈ activity_names catalog -> n ∈ schedule_names schedule) /\
  unmatched_activities Ascii.lower RapidFuzz.ratio RapidFuzz.partial_ratio
    RapidFuzz.token_sort_ratio RapidFuzz.token_set_ratio catalog schedule
  = [lit "Sauna"].
Proof.
  split.
  - intros n Hn. vm_compute in Hn.
    elem_cases Hn; apply (bool_decide_unpack _); by vm_compute.
  - by vm_compute.
Qed.

(** A schedule that names both records of the catalog. *)
Lemma unmatched_contract_witness :
  let catalog := [activity "Salt Sauna" "/1"; activity "Pool Yoga" "/2"] in
  let schedule : gmap (list N) DayData :=
    {[ lit "Luni" := {| theme := [];
                        activities :=
                          Some [entry "Pool Yoga"; entry "Salt Sauna"] |} ]} in
  unmatched_activities Ascii.lower RapidFuzz.ratio RapidFuzz.partial_ratio
    RapidFuzz.token_sort_ratio RapidFuzz.token_set_ratio catalog schedule
  = [].
Proof.
  intros catalog schedule.
  apply (proj2 (proj2 (proj2 (proj2 (proj2
           (unmatched_contract Ascii.lower RapidFuzz.ratio
              RapidFuzz.partial_ratio RapidFuzz.token_sort_ratio
              RapidFuzz.token_set_ratio catalog schedule)))))).
  - intros n m Hn Hm. vm_compute in Hn, Hm.
    elem_cases Hn; elem_cases Hm; intros H; by vm_compute in H.
  - intros n Hn. vm_compute in Hn.
    elem_cases Hn; apply (bool_decide_unpack _); by vm_compute.
Defined.

(** * Further properties of the resolver *)

Section ResolverExtras.

Variable lower : str -> str.
Variables ratio partial_ratio token_sort_ratio token_set_ratio : scorer.
Variable catalog : list ActivityDetail.

Local Abbreviation names := (activity_names catalog).
Local Abbreviation details := (activity_details_map catalog).
Local Abbreviation pscore :=
  (partial_score ratio partial_ratio token_sort_ratio).
Local Abbreviation all_scorers :=
  (scorers ratio partial_ratio token_sort_ratio token_set_ratio).
Local Abbreviation resolver :=
  (find_best_match lower ratio partial_ratio token_sort_ratio
     token_set_ratio catalog).

(** The loop over the scorers returns its initial value or the best
    candidate of one of the scorers, whose score is greater. *)
Lemma fuzzy_fold_provenance (q : str) (t : Q) (scs : list scorer)
    (best : option ActivityDetail * Q) :
  foldl (fuzzy_step catalog q t) best scs = best \/
  exists sc n s i,
    sc ∈ scs /\ extractOne sc q names t = Some (n, s, i) /\
    (best.2 < s)%Q /\
    foldl (fuzzy_step catalog q t) best scs = (details !! n, s).
Proof.
  revert best. induction scs as [|sc scs IH]; intros best; simpl; [by left|].
  destruct (extractOne sc q names t) as [[[n s] i]|] eqn:E.
  - rewrite (fuzzy_step_Some catalog q t best sc n s i E).
    destruct (gt_score s best.2) eqn:Eg.
    + apply gt_score_true in Eg.
      destruct (IH (details !! n, s)) as [->|(sc' & n' & s' & i' & Hin & E' & Hlt & ->)].
      * right. exists sc, n, s, i. split_and!; try done. left.
      * right. exists sc', n', s', i'. split_and!; try done; [by right|].
        by apply Qlt_trans with s.
    + destruct (IH best) as [->|(sc' & n' & s' & i' & Hin & E' & Hlt & ->)].
      * by left.
      * right. exists sc', n', s', i'. split_and!; try done. by right.
  - rewrite (fuzzy_step_None catalog q t best sc E).
    destruct (IH best) as [->|(sc' & n' & s' & i' & Hin & E' & Hlt & ->)].
    + by left.
    + right. exists sc', n', s', i'. split_and!; try done. by right.
Qed.

(** The record of a match is the one the mapping holds for its title. *)
Lemma find_best_match_lookup (q : str) (t : Q) (r : ActivityDetail) (s : Q) :
  resolver q t = (Some r, s) -> details !! title r = Some r.
Proof.
  intros Hres.
  assert (Hkey : forall n, details !! n = Some r -> details !! title r = Some r).
  { intros n Hd. by destruct (activity_details_map_Some _ _ _ Hd) as [<- _]. }
  destruct (exact_stage lower catalog q names) as [res|] eqn:E1.
  - rewrite (find_best_match_exact _ _ _ _ _ _ q t res E1) in Hres. subst res.
    apply exact_stage_Some in E1 as (_ & n & _ & _ & _ & _ & [= Hd _]).
    by apply (Hkey n).
  - destruct (partial_stage lower ratio partial_ratio token_sort_ratio
                catalog q t names) as [res|] eqn:E2.
    + rewrite (find_best_match_partial _ _ _ _ _ _ q t res E1 E2) in Hres.
      subst res.
      apply partial_stage_Some in E2 as (_ & a & _ & _ & _ & _ & _ & [= Hd _]).
      by apply (Hkey a).
    + rewrite (find_best_match_fuzzy _ _ _ _ _ _ q t E1 E2) in Hres.
      unfold fuzzy_stage in Hres.
      destruct (fuzzy_fold_provenance q t all_scorers (None, 0%Q))
        as [Heq|(sc & n & s' & i & _ & _ & _ & Heq)];
        rewrite Heq in Hres; [done|].
      injection Hres as Hd _. by apply (Hkey n).
Qed.

(** X1.  Every match is accounted for.  When [find_best_match] returns a
    record [r] with score [s], the title of [r] is a name of the index and
    [r] is the record the mapping holds for it, and one of three cases
    applies: the query equals the title up to case and [s] is exactly 100;
    or the title is a containment candidate, [s] is its containment score
    and reaches the threshold; or [s] is the score one of the four scorers
    gives to the title, is positive and reaches the threshold. *)
Theorem match_provenance (q : str) (t : Q) (r : ActivityDetail) (s : Q) :
  resolver q t = (Some r, s) ->
  title r ∈ names /\
  details !! title r = Some r /\
  ((s = 100%Q /\ lower q = lower (title r)) \/
   (contained lower q (title r) = true /\
    s = pscore q (title r) /\ (t <= s)%Q) \/
   (exists sc, sc ∈ all_scorers /\ s = sc q (title r) /\
               (t <= s)%Q /\ (0 < s)%Q)).
Proof.
  intros Hres.
  assert (Hkey : forall n pre post,
             names = pre ++ n :: post -> Some r = details !! n ->
             title r = n /\ title r ∈ names /\ details !! title r = Some r).
  { intros n pre post Hn Hd. symmetry in Hd.
    destruct (activity_details_map_Some _ _ _ Hd) as [<- _].
    split_and!; try done. rewrite Hn. apply elem_of_app. right. left. }
  destruct (exact_stage lower catalog q names) as [res|] eqn:E1.
  - rewrite (find_best_match_exact _ _ _ _ _ _ q t res E1) in Hres. subst res.
    apply exact_stage_Some in E1 as (pre & n & post & Hn & Hq & _ & [= Hd ->]).
    destruct (Hkey n pre post Hn Hd) as (<- & Hin & Hd').
    split_and!; try done. by left.
  - destruct (partial_stage lower ratio partial_ratio token_sort_ratio
                catalog q t names) as [res|] eqn:E2.
    + rewrite (find_best_match_partial _ _ _ _ _ _ q t res E1 E2) in Hres.
      subst res.
      apply partial_stage_Some in E2
        as (pre & a & post & Hn & Hc & Ht & _ & [= Hd ->]).
      destruct (Hkey a pre post Hn Hd) as (<- & Hin & Hd').
      split_and!; try done. right. left. done.
    + rewrite (find_best_match_fuzzy _ _ _ _ _ _ q t E1 E2) in Hres.
      unfold fuzzy_stage in Hres.
      destruct (fuzzy_fold_provenance q t all_scorers (None, 0%Q))
        as [Heq|(sc & n & s' & i & Hin & E & Hlt & Heq)];
        rewrite Heq in Hres; [done|].
      injection Hres as Hd ->.
      apply extractOne_Some in E
        as (pre & post & Hn & _ & Hs & Hcut & _).
      destruct (Hkey n pre post Hn (eq_sym Hd)) as (<- & Hin' & Hd').
      split_and!; try done. right. right. by exists sc.
Qed.

(** X2.  No overwritten duplicate is ever returned: the record that
    [find_best_match] returns is the last record of the catalog with its
    title. *)
Theorem match_is_last_record (q : str) (t : Q) (r : ActivityDetail) (s : Q) :
  resolver q t = (Some r, s) ->
  exists pre post,
    catalog = pre ++ r :: post /\
    forall r', r' ∈ post -> title r' <> title r.
Proof.
  intros Hres. apply find_best_match_lookup in Hres.
  by destruct (activity_details_map_Some _ _ _ Hres) as [_ H].
Qed.

End ResolverExtras.

(** The match of "sauna" in a catalog of three candidates, as in the
    containment example. *)
Lemma match_provenance_witness :
  let catalog := [activity "SAUNA BIG" "/1"; activity "Sauna big" "/2";
                  activity "sauna big" "/3"] in
  let r := activity "Sauna big" "/2" in
  let s := (resolve catalog (lit "sauna") 60).2 in
  resolve catalog (lit "sauna") 60 = (Some r, s) /\
  contained Ascii.lower (lit "sauna") (title r) = true /\
  (60 <= s)%Q.
Proof.
  intros catalog r s.
  assert (Hres : resolve catalog (lit "sauna") 60 = (Some r, s))
    by (by vm_compute).
  split; [exact Hres|].
  destruct (match_provenance Ascii.lower RapidFuzz.ratio
              RapidFuzz.partial_ratio RapidFuzz.token_sort_ratio
              RapidFuzz.token_set_ratio catalog (lit "sauna") 60 r s Hres)
    as (_ & _ & _).
  split; by vm_compute.
Defined.

(** A duplicated title: the record found is the last one. *)
Lemma match_is_last_record_witness :
  let r1 := activity "Sauna" "/first" in
  let r2 := activity "Sauna" "/second" in
  exists pre post,
    [r1; activity "Pool" "/pool"; r2] = pre ++ r2 :: post /\
    forall r', r' ∈ post -> title r' <> title r2.
Proof.
  intros r1 r2.
  apply (match_is_last_record Ascii.lower RapidFuzz.ratio
           RapidFuzz.partial_ratio RapidFuzz.token_sort_ratio
           RapidFuzz.token_set_ratio [r1; activity "Pool" "/pool"; r2]
           (lit "sauna") 60 r2 100%Q).
  reflexivity.
Defined.

(** * Further properties of the parser *)

Section ParserExtras.

Variable lower : str -> str.
Variables is_decimal is_space : N -> bool.

Local Abbreviation is_time := (is_time_line is_decimal is_space).
Local Abbreviation is_days := (is_days_line lower).
Local Abbreviation step := (parse_step lower is_decimal is_space).
Local Abbreviation run := (parse_lines lower is_decimal is_space).

(** [lstrip] removes a prefix of whitespace and stops at a character that
    is none. *)
Lemma lstrip_spec (s : str) :
  exists pre,
    s = pre ++ lstrip is_space s /\
    Forall (fun c => is_space c = true) pre /\
    match lstrip is_space s with
    | [] => True
    | c :: _ => is_space c = false
    end.
Proof.
  induction s as [|c s (pre & Hs & Hpre & Hhead)]; simpl.
  - by exists [].
  - destruct (is_space c) eqn:E.
    + exists (c :: pre). split_and!; try done.
      * simpl. by f_equal.
      * by constructor.
    + by exists [].
Qed.

Lemma lstrip_id (s : str) :
  match s with [] => True | c :: _ => is_space c = false end ->
  lstrip is_space s = s.
Proof. destruct s as [|c s]; simpl; [done|]. by intros ->. Qed.

(** [strip] removes whitespace at both ends; what is left is empty or
    begins and ends with a character that is no whitespace. *)
Lemma strip_spec (s : str) :
  exists pre post,
    s = pre ++ strip is_space s ++ post /\
    Forall (fun c => is_space c = true) pre /\
    Forall (fun c => is_space c = true) post /\
    match strip is_space s with
    | [] => True
    | c :: _ => is_space c = false
    end /\
    match reverse (strip is_space s) with
    | [] => True
    | c :: _ => is_space c = false
    end.
Proof.
  unfold strip, rstrip.
  destruct (lstrip_spec s) as (pre & Hs & Hpre & Hhead).
  destruct (lstrip_spec (reverse (lstrip is_space s)))
    as (post & Hr & Hpost & Hlast).
  exists pre, (reverse post).
  assert (Hl : lstrip is_space s
               = reverse (lstrip is_space (reverse (lstrip is_space s)))
                 ++ reverse post).
  { rewrite <- reverse_app, <- Hr. by rewrite reverse_involutive. }
  split_and!.
  - by rewrite <- Hl.
  - done.
  - by apply Forall_reverse.
  - destruct (reverse (lstrip is_space (reverse (lstrip is_space s))))
      as [|c w] eqn:E; [done|].
    rewrite Hl in Hhead. by simpl in Hhead.
  - by rewrite reverse_involutive.
Qed.

(** A string that begins and ends with no whitespace is left as it is. *)
Lemma strip_id (s : str) :
  match s with [] => True | c :: _ => is_space c = false end ->
  match reverse s with [] => True | c :: _ => is_space c = false end ->
  strip is_space s = s.
Proof.
  intros Hhead Hlast. unfold strip, rstrip.
  rewrite (lstrip_id s Hhead), (lstrip_id (reverse s) Hlast).
  apply reverse_involutive.
Qed.

Lemma strip_idemp (s : str) :
  strip is_space (strip is_space s) = strip is_space s.
Proof.
  destruct (strip_spec s) as (_ & _ & _ & _ & _ & Hhead & Hlast).
  by apply strip_id.
Qed.

(** The pieces of a split contain no separator. *)
Lemma split_loop_no_sep (sep : N) (s cur : str) :
  sep ∉ cur -> Forall (fun piece => sep ∉ piece) (split_loop sep s cur).
Proof.
  revert cur. induction s as [|c s IH]; intros cur Hcur; simpl.
  - constructor; [|done]. by rewrite elem_of_reverse.
  - destruct (N.eqb_spec c sep) as [->|Hne].
    + constructor; [by rewrite elem_of_reverse|]. apply IH.
      apply not_elem_of_nil.
    + apply IH. intros [->|H]%elem_of_cons; done.
Qed.

Lemma strip_not_elem (c : N) (s : str) : c ∉ s -> c ∉ strip is_space s.
Proof.
  intros Hc Hin. apply Hc.
  destruct (strip_spec s) as (pre & post & Hs & _).
  rewrite Hs. apply elem_of_app. right. apply elem_of_app. by left.
Qed.

(** X3.  The lines that the parser works on: every line of [clean_lines]
    is non-empty, contains no newline, begins and ends with a character
    that is no whitespace, and is left unchanged by [strip]. *)
Theorem clean_lines_stripped (program_text : str) :
  Forall (fun line =>
            line <> [] /\
            (10 ∉ line) /\
            strip is_space line = line /\
            (forall c rest, line = c :: rest -> is_space c = false) /\
            (forall c rest, line = rest ++ [c] -> is_space c = false))
         (clean_lines is_space program_text).
Proof.
  unfold clean_lines, split.
  pose proof (split_loop_no_sep 10 program_text [] (not_elem_of_nil _)) as Hp.
  induction Hp as [|piece pieces Hpiece _ IH]; [constructor|].
  rewrite fmap_cons. cbn [List.filter].
  destruct (strip is_space piece) as [|c line] eqn:E; [done|].
  constructor; [|done]. rewrite <- E.
  destruct (strip_spec piece) as (_ & _ & _ & _ & _ & Hhead & Hlast).
  split_and!.
  - by rewrite E.
  - by apply strip_not_elem.
  - apply strip_idemp.
  - intros c' rest Hc'. rewrite Hc' in Hhead. done.
  - intros c' rest Hc'. rewrite Hc', reverse_app in Hlast. done.
Qed.

Lemma parse_step_of_lines (lines : list str) (st : ParseState) (line : str) :
  line ∈ lines ->
  state_of_lines lower is_decimal is_space lines st ->
  state_of_lines lower is_decimal is_space lines (step st line).
Proof.
  intros Hin (Hrows & Hloc & Hdays). unfold parse_step.
  destruct (is_days line) eqn:Ed.
  - split_and!; simpl; [done|done|]. by intros d [= <-].
  - destruct (is_time line) eqn:Et.
    + destruct (truthy (current_location st)) eqn:El; [|done].
      split_and!; simpl; [|done|done].
      apply Forall_app. split; [done|]. constructor; [|done].
      destruct (current_location st) as [[|c l]|] eqn:Ecl; try done.
      destruct (Hloc (c :: l) eq_refl) as (Hl1 & Hl2 & Hl3).
      unfold row_of_lines. simpl. split_and!; try done.
      destruct (current_days st) as [d|] eqn:Ecd; simpl; [|by left].
      right. by apply Hdays.
    + split_and!; simpl; [done| |done]. by intros l [= <-].
Qed.

Lemma parse_lines_of_lines (lines l : list str) (st : ParseState) :
  (forall x, x ∈ l -> x ∈ lines) ->
  state_of_lines lower is_decimal is_space lines st ->
  state_of_lines lower is_decimal is_space lines (run l st).
Proof.
  revert st. unfold parse_lines.
  induction l as [|x l IH]; intros st Hl Hst; simpl; [done|].
  apply IH.
  - intros y Hy. apply Hl. by right.
  - apply parse_step_of_lines; [|done]. apply Hl. left.
Qed.

Lemma drop_program_subset (lines : list str) (x : str) :
  x ∈ drop_program lower lines -> x ∈ lines.
Proof.
  unfold drop_program. destruct lines as [|l rest]; [done|].
  destruct (str_eqb _ _); [by right|done].
Qed.

Lemma drop_title_subset (activity_title : option str) (lines : list str)
    (x : str) :
  x ∈ drop_title lower activity_title lines -> x ∈ lines.
Proof.
  unfold drop_title. destruct lines as [|l rest]; [done|].
  destruct (_ && _); [by right|done].
Qed.

(** X4.  The rows are made of lines of the text.  In every row that
    [parse_schedule_program] returns, the time is one of the cleaned lines
    of the text and is a time line, the location is one of the cleaned lines,
    is not empty and is neither a days line nor a time line, and the days
    are empty or one of the cleaned lines that is a days line. *)
Theorem parse_rows_of_lines (program_text : str)
    (activity_title : option str) :
  Forall (row_of_lines lower is_decimal is_space
            (clean_lines is_space program_text))
         (parse_schedule_program lower is_decimal is_space
            program_text activity_title).
Proof.
  unfold parse_schedule_program.
  destruct program_text as [|c0 text0]; [constructor|].
  destruct (clean_lines is_space (c0 :: text0)) as [|l ls] eqn:E;
    [constructor|].
  apply parse_lines_of_lines.
  - intros x Hx. by apply drop_title_subset, drop_program_subset in Hx.
  - split_and!; [constructor|done|done].
Qed.

Lemma parse_step_time_count (st : ParseState) (line : str) :
  (length (entries (step st line))
   <= length (entries st)
      + (if emitting_kind lower is_decimal is_space line then 1 else 0))%nat.
Proof.
  rewrite parse_step_entries. unfold emits, emitting_kind.
  destruct (negb (is_days line) && is_time line); simpl.
  - destruct (truthy (current_location st)); rewrite length_app; simpl; lia.
  - rewrite app_nil_r. lia.
Qed.

Lemma parse_step_location_count (st : ParseState) (line : str) :
  (length (entries (step st line)) + pending (step st line)
   <= length (entries st) + pending st
      + (if location_kind lower is_decimal is_space line then 1 else 0))%nat.
Proof.
  unfold parse_step, location_kind, pending.
  destruct (is_days line); simpl.
  - destruct (truthy (current_location st)); lia.
  - destruct (is_time line); simpl.
    + destruct (truthy (current_location st)) eqn:E; simpl.
      * rewrite length_app. simpl. lia.
      * rewrite E. lia.
    + destruct line; destruct (truthy (current_location st)); simpl; lia.
Qed.

Lemma parse_lines_counts (l : list str) (st : ParseState) :
  (length (entries (run l st))
   <= length (entries st)
      + length (List.filter (emitting_kind lower is_decimal is_space) l))%nat
  /\
  (length (entries (run l st)) + pending (run l st)
   <= length (entries st) + pending st
      + length (List.filter (location_kind lower is_decimal is_space) l))%nat.
Proof.
  revert st. unfold parse_lines.
  induction l as [|x l IH]; intros st; simpl; [lia|].
  destruct (IH (step st x)) as [IH1 IH2].
  pose proof (parse_step_time_count st x) as H1.
  pose proof (parse_step_location_count st x) as H2.
  destruct (emitting_kind lower is_decimal is_space x),
    (location_kind lower is_decimal is_space x); simpl; lia.
Qed.

Lemma filter_length_le (f : str -> bool) (l : list str) :
  (length (List.filter f l) <= length l)%nat.
Proof. induction l as [|x l IH]; simpl; [lia|]. destruct (f x); simpl; lia. Qed.

Lemma filter_drop_program (f : str -> bool) (lines : list str) :
  (length (List.filter f (drop_program lower lines))
   <= length (List.filter f lines))%nat.
Proof.
  unfold drop_program. destruct lines as [|l rest]; [done|].
  destruct (str_eqb _ _); simpl; [|lia]. destruct (f l); simpl; lia.
Qed.

Lemma filter_drop_title (f : str -> bool) (activity_title : option str)
    (lines : list str) :
  (length (List.filter f (drop_title lower activity_title lines))
   <= length (List.filter f lines))%nat.
Proof.
  unfold drop_title. destruct lines as [|l rest]; [done|].
  destruct (_ && _); simpl; [|lia]. destruct (f l); simpl; lia.
Qed.

(** X5.  A row needs a location line and a time line of its own: the number
    of rows that [parse_schedule_program] returns is at most the number of
    time lines and at most the number of location lines among the cleaned
    lines of the text. *)
Theorem parse_rows_count (program_text : str) (activity_title : option str) :
  let rows := parse_schedule_program lower is_decimal is_space
                program_text activity_title in
  let lines := clean_lines is_space program_text in
  (length rows
   <= length (List.filter (emitting_kind lower is_decimal is_space) lines))%nat
  /\
  (length rows
   <= length (List.filter (location_kind lower is_decimal is_space) lines))%nat.
Proof.
  intros rows lines. unfold rows, parse_schedule_program.
  destruct program_text as [|c0 text0]; [simpl; lia|].
  fold lines. destruct lines as [|l ls] eqn:E; [simpl; lia|].
  pose proof (filter_drop_title (emitting_kind lower is_decimal is_space)
                activity_title (drop_program lower (l :: ls))) as T1.
  pose proof (filter_drop_program (emitting_kind lower is_decimal is_space)
                (l :: ls)) as P1.
  pose proof (filter_drop_title (location_kind lower is_decimal is_space)
                activity_title (drop_program lower (l :: ls))) as T2.
  pose proof (filter_drop_program (location_kind lower is_decimal is_space)
                (l :: ls)) as P2.
  remember (drop_title lower activity_title (drop_program lower (l :: ls)))
    as kept eqn:Hkept.
  destruct (parse_lines_counts kept initial_state) as [H1 H2].
  unfold pending in H2. cbn [initial_state entries current_location truthy
                             length] in H1, H2.
  split; lia.
Qed.

End ParserExtras.

(** * The statistics *)

Section StatisticsFacts.

Variable lower : str -> str.
Variables ratio partial_ratio token_sort_ratio token_set_ratio : scorer.
Variable catalog : list ActivityDetail.
Variable schedule : gmap (list N) DayData.

Local Abbreviation names := (activity_names catalog).
Local Abbreviation resolver :=
  (find_best_match lower ratio partial_ratio token_sort_ratio
     token_set_ratio catalog).
Local Abbreviation count :=
  (count_step lower ratio partial_ratio token_sort_ratio token_set_ratio
     catalog).
Local Abbreviation per_day :=
  (day_step lower ratio partial_ratio token_sort_ratio token_set_ratio
     catalog schedule).
Local Abbreviation total := (total_step schedule).

Lemma count_step_Some (a : nat) (e : ScheduleEntry) :
  count (Some a) e
  = match name e with
    | Some nm =>
        match (resolver nm default_threshold).1 with
        | Some _ => Some (S a)
        | None => Some a
        end
    | None => None
    end.
Proof. done. Qed.

Lemma day_step_eq (acc : option nat) (d : str) :
  per_day acc d
  = match schedule !! d with
    | None => acc
    | Some day_data =>
        match acc, activities day_data with
        | Some n, Some l => foldl count (Some n) l
        | _, _ => None
        end
    end.
Proof. done. Qed.

Lemma total_step_eq (acc : option nat) (d : str) :
  total acc d
  = match schedule !! d with
    | None => acc
    | Some day_data =>
        match acc, activities day_data with
        | Some n, Some l => Some (n + length l)%nat
        | _, _ => None
        end
    end.
Proof. done. Qed.

Lemma count_fold_None (l : list ScheduleEntry) : foldl count None l = None.
Proof. induction l as [|e l IH]; cbn [foldl]; done. Qed.

Lemma day_fold_None (ds : list str) : foldl per_day None ds = None.
Proof.
  induction ds as [|d ds IH]; cbn [foldl]; [done|].
  rewrite day_step_eq. by destruct (schedule !! d).
Qed.

Lemma total_fold_None (ds : list str) : foldl total None ds = None.
Proof.
  induction ds as [|d ds IH]; cbn [foldl]; [done|].
  rewrite total_step_eq. by destruct (schedule !! d).
Qed.

(** The inner loop: the count grows by at most one for each entry, and it
    grows only by an entry whose name is matched; no name is missing. *)
Lemma count_fold_Some (l : list ScheduleEntry) (a b : nat) :
  foldl count (Some a) l = Some b ->
  (a <= b <= a + length l)%nat /\
  (forall e, e ∈ l -> is_Some (name e)) /\
  ((a < b)%nat ->
   exists e nm r s, e ∈ l /\ name e = Some nm /\
                    resolver nm default_threshold = (Some r, s)) /\
  (b = a ->
   forall e nm, e ∈ l -> name e = Some nm ->
                (resolver nm default_threshold).1 = None).
Proof.
  revert a. induction l as [|e l IH]; intros a H; cbn [foldl] in H.
  - injection H as <-. split_and!.
    + lia.
    + simpl. lia.
    + intros e He. by apply elem_of_nil in He.
    + lia.
    + intros _ e nm He. by apply elem_of_nil in He.
  - rewrite count_step_Some in H.
    destruct (name e) as [nm|] eqn:En; [|by rewrite count_fold_None in H].
    destruct (resolver nm default_threshold) as [[r|] s] eqn:Er; simpl in H.
    + destruct (IH _ H) as (Hb & Hn & Hlt & Heq). simpl.
      split_and!; try lia.
      * intros e' [->|He']%elem_of_cons; [by rewrite En|auto].
      * intros _. exists e, nm, r, s. split_and!; try done. left.
    + destruct (IH _ H) as (Hb & Hn & Hlt & Heq). simpl.
      split_and!; try lia.
      * intros e' [->|He']%elem_of_cons; [by rewrite En|auto].
      * intros Hab. destruct (Hlt Hab) as (e' & nm' & r & s' & He' & H').
        exists e', nm', r, s'. split; [by right|done].
      * intros -> e' nm' [->|He']%elem_of_cons Hnm'.
        -- rewrite En in Hnm'. injection Hnm' as <-. by rewrite Er.
        -- by apply (Heq eq_refl e' nm').
Qed.

(** The inner loop counts every entry when every name is matched. *)
Lemma count_fold_all (l : list ScheduleEntry) (a : nat) :
  (forall e, e ∈ l ->
     exists nm, name e = Some nm /\
                (resolver nm default_threshold).1 <> None) ->
  foldl count (Some a) l = Some (a + length l)%nat.
Proof.
  revert a. induction l as [|e l IH]; intros a H; cbn [foldl].
  - simpl. f_equal. lia.
  - destruct (H e ltac:(left)) as (nm & En & Hr).
    rewrite count_step_Some, En.
    destruct (resolver nm default_threshold).1; [|done].
    rewrite IH; [simpl; f_equal; lia|]. intros e' He'. apply H. by right.
Qed.

(** The outer loops side by side: the matches never exceed the entries. *)
Lemma day_fold_le (ds : list str) (a a0 : nat) :
  (a <= a0)%nat ->
  forall b, foldl per_day (Some a) ds = Some b ->
  exists n, foldl total (Some a0) ds = Some n /\ (b <= n)%nat.
Proof.
  revert a a0. induction ds as [|d ds IH]; intros a a0 Ha b H; cbn [foldl] in *.
  - injection H as <-. by exists a0.
  - rewrite day_step_eq in H. rewrite total_step_eq.
    destruct (schedule !! d) as [day_data|]; [|by apply (IH a a0)].
    destruct (activities day_data) as [l|]; [|by rewrite day_fold_None in H].
    destruct (foldl count (Some a) l) as [b'|] eqn:Ec;
      [|by rewrite day_fold_None in H].
    apply count_fold_Some in Ec as (Hb & _).
    apply (IH b' (a0 + length l)%nat); [lia|done].
Qed.

(** X6.  The match rate is at most 100%: whenever the count of matched
    schedule entries is computed, so is the total of the entries, and the
    count does not exceed it. *)
Theorem matched_count_le_total (m : nat) :
  matched_count lower ratio partial_ratio token_sort_ratio token_set_ratio
    catalog schedule = Some m ->
  exists n, total_activities schedule = Some n /\ (m <= n)%nat.
Proof.
  intros H. by apply (day_fold_le days 0 0 (Nat.le_refl 0) m).
Qed.

Lemma total_fold_fails (ds : list str) (a : nat) :
  foldl total (Some a) ds = None <->
  exists day day_data,
    day ∈ ds /\ schedule !! day = Some day_data /\
    activities day_data = None.
Proof.
  revert a. induction ds as [|d ds IH]; intros a; cbn [foldl].
  - split; [done|]. intros (day & _ & H & _). by apply elem_of_nil in H.
  - rewrite total_step_eq.
    destruct (schedule !! d) as [day_data|] eqn:Ed.
    + destruct (activities day_data) as [l|] eqn:El.
      * rewrite IH. split.
        -- intros (day & dd & Hin & H). exists day, dd. split; [by right|done].
        -- intros (day & dd & [->|Hin]%elem_of_cons & Hs & Ha).
           ++ rewrite Ed in Hs. injection Hs as <-. congruence.
           ++ by exists day, dd.
      * rewrite total_fold_None. split; [|done]. intros _.
        exists d, day_data. split; [left|done].
    + rewrite IH. split.
      * intros (day & dd & Hin & H). exists day, dd. split; [by right|done].
      * intros (day & dd & [->|Hin]%elem_of_cons & Hs & Ha).
        -- congruence.
        -- by exists day, dd.
Qed.

(** X7.  The total fails exactly on a day without activities: the count of
    the schedule entries ends in a [KeyError] if and only if one of the
    seven days is a key of the schedule whose value has no ['activities'];
    days that the schedule does not have, and keys that are none of the
    seven days, do no harm. *)
Theorem total_activities_fails :
  total_activities schedule = None <->
  exists day day_data,
    day ∈ days /\ schedule !! day = Some day_data /\
    activities day_data = None.
Proof. apply total_fold_fails. Qed.

(** The outer loop: the count grows only by a matched entry of one of the
    days, and when it does not grow no entry of the days is matched. *)
Lemma day_fold_Some (ds : list str) (a b : nat) :
  foldl per_day (Some a) ds = Some b ->
  (a <= b)%nat /\
  ((a < b)%nat ->
   exists day day_data l e nm r s,
     day ∈ ds /\ schedule !! day = Some day_data /\
     activities day_data = Some l /\ e ∈ l /\ name e = Some nm /\
     resolver nm default_threshold = (Some r, s)) /\
  (b = a ->
   forall day day_data,
     day ∈ ds -> schedule !! day = Some day_data ->
     exists l, activities day_data = Some l /\
               forall e, e ∈ l ->
                 exists nm, name e = Some nm /\
                            (resolver nm default_threshold).1 = None).
Proof.
  revert a. induction ds as [|d ds IH]; intros a H; cbn [foldl] in H.
  - injection H as <-. split_and!; [lia|lia|].
    intros _ day dd Hin. by apply elem_of_nil in Hin.
  - rewrite day_step_eq in H.
    destruct (schedule !! d) as [day_data|] eqn:Ed.
    + destruct (activities day_data) as [l|] eqn:El;
        [|by rewrite day_fold_None in H].
      destruct (foldl count (Some a) l) as [b'|] eqn:Ec;
        [|by rewrite day_fold_None in H].
      destruct (count_fold_Some l a b' Ec) as (Hb & Hn & Hlt & Heq).
      destruct (IH b' H) as (Hb' & Hlt' & Heq').
      split_and!; [lia| |].
      * intros Hab. destruct (decide (a < b')%nat) as [Hab'|Hab'].
        -- destruct (Hlt Hab') as (e & nm & r & s & He & Hnm & Hr).
           exists d, day_data, l, e, nm, r, s. split_and!; try done. left.
        -- destruct Hlt' as (day & dd & l' & e & nm & r & s & Hin & H');
             [lia|].
           exists day, dd, l', e, nm, r, s. split; [by right|done].
      * intros -> day dd [->|Hin]%elem_of_cons Hs.
        -- rewrite Ed in Hs. injection Hs as <-. exists l. split; [done|].
           intros e He. destruct (Hn e He) as [nm Hnm]. exists nm.
           split; [done|]. apply (Heq ltac:(lia) e nm He Hnm).
        -- apply (Heq' ltac:(lia) day dd Hin Hs).
    + destruct (IH a H) as (Hb' & Hlt' & Heq').
      split_and!; [done| |].
      * intros Hab.
        destruct (Hlt' Hab) as (day & dd & l' & e & nm & r & s & Hin & H').
        exists day, dd, l', e, nm, r, s. split; [by right|done].
      * intros -> day dd [->|Hin]%elem_of_cons Hs; [congruence|].
        by apply (Heq' eq_refl day dd).
Qed.

(** The names of the schedule are the names of the entries of its days, the
    empty string standing for a missing name. *)
Lemma elem_of_schedule_names (n : str) :
  n ∈ schedule_names schedule <->
  exists day day_data e,
    schedule !! day = Some day_data /\
    e ∈ day_activities day_data /\ entry_name e = n.
Proof.
  unfold schedule_names.
  rewrite elem_of_list_to_set, list_elem_of_join. split.
  - intros (l & Hn & Hl).
    apply list_elem_of_fmap in Hl as ([day dd] & -> & Hkv).
    apply elem_of_map_to_list in Hkv.
    apply list_elem_of_fmap in Hn as (e & -> & He).
    by exists day, dd, e.
  - intros (day & dd & e & Hs & He & <-).
    exists (entry_name <$> day_activities dd). split.
    + by apply list_elem_of_fmap_2.
    + apply list_elem_of_fmap. exists (day, dd). split; [done|].
      by apply elem_of_map_to_list.
Qed.

(** X8.  The statistics and the list of the unscheduled activities agree.
    When the count of matched entries is positive, at least one title of
    the catalog is missing from [unmatched_activities]; when it is zero and
    the schedule has no other keys than the seven days, every title of the
    catalog is in [unmatched_activities]. *)
Theorem matched_count_and_unmatched (m : nat) :
  matched_count lower ratio partial_ratio token_sort_ratio token_set_ratio
    catalog schedule = Some m ->
  let unmatched :=
    unmatched_activities lower ratio partial_ratio token_sort_ratio
      token_set_ratio catalog schedule in
  ((0 < m)%nat -> (length unmatched < length names)%nat) /\
  (m = 0%nat ->
   (forall day, is_Some (schedule !! day) -> day ∈ days) ->
   unmatched = names).
Proof.
  intros H unmatched. unfold unmatched, unmatched_activities, unmatched_for.
  destruct (day_fold_Some days 0 m H) as (_ & Hpos & Hzero). split.
  - intros Hm.
    destruct (Hpos Hm) as (day & dd & l & e & nm & r & s & _ & Hs & Hl
                           & He & Hnm & Hr).
    apply (length_filter_lt _ _ (title r)).
    + pose proof (find_best_match_lookup _ _ _ _ _ _ _ _ _ _ Hr) as Hd.
      destruct (activity_details_map_Some _ _ _ Hd) as (_ & pre & post & -> & _).
      unfold activity_names. rewrite fmap_app, fmap_cons.
      apply elem_of_app. right. left.
    + intros Hnot. apply Hnot. apply elem_of_matched_titles.
      exists nm, r, s. split_and!; try done.
      apply elem_of_schedule_names. exists day, dd, e. split_and!; try done.
      * unfold day_activities. by rewrite Hl.
      * unfold entry_name. by rewrite Hnm.
  - intros -> Hkeys. apply filter_all. intros n _ Hin.
    apply elem_of_matched_titles in Hin as (q & r & s & Hq & Hr & _).
    apply elem_of_schedule_names in Hq as (day & dd & e & Hs & He & <-).
    destruct (Hzero eq_refl day dd (Hkeys day (mk_is_Some _ _ Hs)) Hs)
      as (l & Hl & Hall).
    unfold day_activities in He. rewrite Hl in He. simpl in He.
    destruct (Hall e He) as (nm & Hnm & Hnone).
    unfold entry_name in Hr. rewrite Hnm in Hr. simpl in Hr.
    by rewrite Hr in Hnone.
Qed.

(** A query that equals a name of the index up to case is matched. *)
Lemma exact_match_resolves (q n : str) (t : Q) :
  n ∈ names -> lower q = lower n -> (resolver q t).1 <> None.
Proof.
  intros Hn Hq.
  destruct (exact_stage lower catalog q names) as [res|] eqn:E.
  - rewrite (find_best_match_exact _ _ _ _ _ _ q t res E).
    apply exact_stage_Some in E as (pre & n' & post & Hn' & _ & _ & ->).
    destruct (details_of_name catalog n') as (r & -> & _); [|done].
    rewrite Hn'. apply elem_of_app. right. left.
  - exfalso. by apply (proj1 (exact_stage_None _ _ _ _) E n Hn).
Qed.

Lemma day_fold_all (ds : list str) (a : nat) :
  (forall day day_data,
     day ∈ ds -> schedule !! day = Some day_data ->
     exists l, activities day_data = Some l /\
               forall e, e ∈ l ->
                 exists nm, name e = Some nm /\
                            (resolver nm default_threshold).1 <> None) ->
  exists n, foldl total (Some a) ds = Some n /\
            foldl per_day (Some a) ds = Some n.
Proof.
  revert a. induction ds as [|d ds IH]; intros a H; cbn [foldl].
  - by exists a.
  - rewrite day_step_eq, total_step_eq.
    destruct (schedule !! d) as [day_data|] eqn:Ed.
    + destruct (H d day_data ltac:(left) Ed) as (l & -> & Hl).
      rewrite (count_fold_all l a Hl). apply IH.
      intros day dd Hin. apply H. by right.
    + apply IH. intros day dd Hin. apply H. by right.
Qed.

(** X9.  A match rate of 100%.  If every day of the week that the schedule
    has holds a list of activities, and every entry of these lists has a
    name that equals a title of the catalog up to case, the count of
    matched entries is the total of the entries. *)
Theorem matched_count_full :
  (forall day day_data,
     day ∈ days -> schedule !! day = Some day_data ->
     exists l, activities day_data = Some l /\
               forall e, e ∈ l ->
                 exists nm n, name e = Some nm /\ n ∈ names /\
                              lower nm = lower n) ->
  exists n,
    total_activities schedule = Some n /\
    matched_count lower ratio partial_ratio token_sort_ratio token_set_ratio
      catalog schedule = Some n.
Proof.
  intros H. apply day_fold_all. intros day dd Hin Hs.
  destruct (H day dd Hin Hs) as (l & Hl & Hall). exists l. split; [done|].
  intros e He. destruct (Hall e He) as (nm & n & Hnm & Hn & Hq).
  exists nm. split; [done|]. by apply (exact_match_resolves nm n).
Qed.

End StatisticsFacts.

(** A Monday with one entry that is matched and one that is not. *)
Lemma matched_count_le_total_witness :
  let catalog := [activity "Salt Sauna" "/1"; activity "Pool Yoga" "/2"] in
  let schedule : gmap (list N) DayData :=
    {[ lit "Monday" :=
         {| theme := [];
            activities := Some [entry "salt sauna"; entry "Zumba"] |} ]} in
  matched_count Ascii.lower RapidFuzz.ratio RapidFuzz.partial_ratio
    RapidFuzz.token_sort_ratio RapidFuzz.token_set_ratio catalog schedule
  = Some 1%nat /\
  exists n, total_activities schedule = Some n /\ (1 <= n)%nat.
Proof.
  intros catalog schedule.
  assert (H : matched_count Ascii.lower RapidFuzz.ratio
                RapidFuzz.partial_ratio RapidFuzz.token_sort_ratio
                RapidFuzz.token_set_ratio catalog schedule = Some 1%nat)
    by (by vm_compute).
  split; [exact H|].
  exact (matched_count_le_total Ascii.lower RapidFuzz.ratio
           RapidFuzz.partial_ratio RapidFuzz.token_sort_ratio
           RapidFuzz.token_set_ratio catalog schedule 1 H).
Defined.

(** The same Monday: one title is missing from the unscheduled ones. *)
Lemma matched_count_and_unmatched_witness :
  let catalog := [activity "Salt Sauna" "/1"; activity "Pool Yoga" "/2"] in
  let schedule : gmap (list N) DayData :=
    {[ lit "Monday" :=
         {| theme := [];
            activities := Some [entry "salt sauna"; entry "Zumba"] |} ]} in
  (length (unmatched_activities Ascii.lower RapidFuzz.ratio
             RapidFuzz.partial_ratio RapidFuzz.token_sort_ratio
             RapidFuzz.token_set_ratio catalog schedule)
   < length (activity_names catalog))%nat.
Proof.
  intros catalog schedule.
  refine (proj1 (matched_count_and_unmatched Ascii.lower RapidFuzz.ratio
                   RapidFuzz.partial_ratio RapidFuzz.token_sort_ratio
                   RapidFuzz.token_set_ratio catalog schedule 1 _) _).
  - by vm_compute.
  - lia.
Defined.

(** A Monday whose two entries are titles of the catalog in other cases. *)
Lemma matched_count_full_witness :
  let catalog := [activity "Salt Sauna" "/1"; activity "Pool Yoga" "/2"] in
  let schedule : gmap (list N) DayData :=
    {[ lit "Monday" :=
         {| theme := [];
            activities := Some [entry "salt sauna"; entry "POOL YOGA"] |} ]} in
  exists n,
    total_activities schedule = Some n /\
    matched_count Ascii.lower RapidFuzz.ratio RapidFuzz.partial_ratio
      RapidFuzz.token_sort_ratio RapidFuzz.token_set_ratio catalog schedule
    = Some n.
Proof.
  intros catalog schedule.
  apply (matched_count_full Ascii.lower RapidFuzz.ratio
           RapidFuzz.partial_ratio RapidFuzz.token_sort_ratio
           RapidFuzz.token_set_ratio catalog schedule).
  intros day dd Hday Hs. elem_cases Hday; vm_compute in Hs; try discriminate.
  injection Hs as <-.
  exists [entry "salt sauna"; entry "POOL YOGA"]. split; [reflexivity|].
  intros e He. elem_cases He.
  - exists (lit "salt sauna"), (lit "Salt Sauna").
    split_and!; [reflexivity| left |reflexivity].
  - exists (lit "POOL YOGA"), (lit "Pool Yoga").
    split_and!; [reflexivity| right; left |reflexivity].
Defined.

(** * The tier colours *)

(** X10.  The colours of the tiers make a round trip between the schedule
    scraper and the renderer: a colour that [COLOR_TO_TIER] maps to a tier
    is the border colour that [TIER_COLORS] gives to this tier, a tier
    that has a colour of its own in [TIER_COLORS] is the tier of this
    colour in [COLOR_TO_TIER], and every other tier gets the grey
    ['#cccccc']. *)
Theorem tier_colors_round_trip :
  (forall color tier,
      COLOR_TO_TIER !! color = Some tier -> border_color tier = color) /\
  (forall tier color,
      TIER_COLORS !! tier = Some color ->
      COLOR_TO_TIER !! color = Some tier) /\
  (forall tier,
      TIER_COLORS !! tier = None -> border_color tier = lit "#cccccc").
Proof.
  split_and!.
  - intros color tier H. unfold COLOR_TO_TIER in H.
    repeat (apply lookup_insert_Some in H as [[<- <-]|[_ H]];
            [by vm_compute|]).
    by rewrite lookup_empty in H.
  - intros tier color H. unfold TIER_COLORS in H.
    repeat (apply lookup_insert_Some in H as [[<- <-]|[_ H]];
            [by vm_compute|]).
    by rewrite lookup_empty in H.
  - intros tier H. unfold border_color. by rewrite H.
Qed.

(** The colour of a scraped tier comes back. *)
Lemma tier_colors_round_trip_witness :
  border_color (lit "GALAXY") = lit "#FE216E".
Proof.
  apply (proj1 tier_colors_round_trip (lit "#FE216E") (lit "GALAXY")).
  by vm_compute.
Defined.

(** * [scrape_activities.py] *)

Lemma replace_loop_skip (old new s : str) (k : nat) :
  replace_loop old new s k = replace_loop old new (drop k s) 0.
Proof.
  revert k. induction s as [|c s IH]; intros k.
  - by rewrite drop_nil.
  - destruct k as [|k]; [done|]. simpl drop. rewrite <- IH. done.
Qed.

(** An occurrence at the start is replaced, and the search goes on after
    it. *)
Lemma replace_prefix (old new rest : str) :
  old <> [] ->
  replace (old ++ rest) old new = new ++ replace rest old new.
Proof.
  intros Hold. unfold replace. destruct old as [|o old]; [done|].
  change ((o :: old) ++ rest) with (o :: (old ++ rest)).
  cbn [replace_loop].
  change (o :: (old ++ rest)) with ((o :: old) ++ rest).
  rewrite startswith_app. f_equal.
  rewrite replace_loop_skip.
  replace (length (o :: old) - 1)%nat with (length old) by (simpl; lia).
  by rewrite drop_app_length.
Qed.

(** A string without occurrence is left as it is. *)
Lemma replace_absent (s old new : str) :
  old <> [] -> str_in old s = false -> replace s old new = s.
Proof.
  intros Hold. unfold replace. destruct old as [|o old]; [done|].
  induction s as [|c s IH]; [done|].
  cbn [str_in replace_loop]. intros [H1 H2]%orb_false_iff.
  rewrite H1. f_equal. by apply IH.
Qed.

Section ScrapeActivitiesFacts.

Variable is_space : N -> bool.

(** The tier that [tier_and_location] finds is none or one of the three,
    and the location is stripped when the text was. *)
Lemma tier_and_location_shape (remaining_text : str) :
  strip is_space remaining_text = remaining_text ->
  let (tier, location) := tier_and_location is_space remaining_text in
  (tier = [] \/ tier ∈ tiers) /\
  strip is_space location = location.
Proof.
  intros Hs. unfold tier_and_location.
  destruct remaining_text as [|c text]; [split; [by left|done]|].
  destruct (str_in (lit "THE PALM") (c :: text)).
  { split; [right; left|apply strip_idemp]. }
  destruct (str_in (lit "GALAXY") (c :: text)).
  { split; [right; right; left|apply strip_idemp]. }
  destruct (str_in (lit "ELYSIUM") (c :: text)).
  { split; [right; right; right; left|apply strip_idemp]. }
  split; [by left|done].
Qed.

(** X11.  What the scraper of the activity list delivers.  Every item comes
    from a container with a heading and carries the text of this heading
    as its name; its tier is missing or one of THE PALM, GALAXY and
    ELYSIUM; its location has no whitespace at either end.  There are at
    most as many items as containers. *)
Theorem scraped_items_shape (containers : list Container) :
  Forall (fun item =>
            (exists container,
                container ∈ containers /\
                heading container = Some (item_name item)) /\
            (item_tier item = None \/
             exists tier, item_tier item = Some tier /\ tier ∈ tiers) /\
            strip is_space (item_location item) = item_location item)
         (scrape_all_activities is_space containers) /\
  (length (scrape_all_activities is_space containers)
   <= length containers)%nat.
Proof.
  split.
  - apply Forall_forall. intros item Hin.
    apply list_elem_of_omap in Hin as (container & Hc & Hp).
    unfold parse_container in Hp.
    destruct (heading container) as [activity_name|] eqn:Eh; [|done].
    pose proof (tier_and_location_shape
                  (strip is_space (replace (all_text container)
                                     activity_name []))
                  (strip_idemp is_space _)) as Hshape.
    destruct (tier_and_location is_space _) as [tier location].
    destruct Hshape as [Htier Hloc]. injection Hp as <-. simpl.
    split_and!.
    + by exists container.
    + destruct Htier as [->|Htier]; [by left|].
      destruct tier as [|c tier]; [by left|]. right. by eexists.
    + done.
  - unfold scrape_all_activities.
    induction containers as [|c cs IH]; [done|].
    cbn [omap list_omap length].
    destruct (parse_container is_space c); cbn [length]; lia.
Qed.

(** The text of a container with a tier is taken apart again. *)
Lemma tier_and_location_decode (tier loc : str) :
  (forall c, ascii_upper_letter c = true -> is_space c = false) ->
  tier ∈ tiers ->
  (forall t, t ∈ tiers -> t <> tier -> str_in t (tier ++ loc) = false) ->
  str_in tier loc = false ->
  strip is_space loc = loc ->
  strip is_space (tier ++ loc) = tier ++ loc /\
  tier_and_location is_space (tier ++ loc) = (tier, loc).
Proof.
  intros Hsp Htier Hother Habsent Hloc.
  assert (Hlast : match reverse loc with
                  | [] => True | c :: _ => is_space c = false end).
  { destruct (strip_spec is_space loc) as (pre & post & _ & _ & _ & _ & H).
    by rewrite Hloc in H. }
  assert (Hhead : match tier with
                  | [] => False | c :: _ => is_space c = false end).
  { elem_cases Htier; vm_compute; by apply Hsp. }
  assert (Hrev : match reverse tier with
                 | [] => False | c :: _ => is_space c = false end).
  { elem_cases Htier; vm_compute; by apply Hsp. }
  assert (Hstrip : strip is_space (tier ++ loc) = tier ++ loc).
  { apply strip_id.
    - by destruct tier.
    - rewrite reverse_app. destruct (reverse loc) as [|c' l']; [|done].
      simpl. by destruct (reverse tier). }
  split; [done|].
  assert (Hrep : strip is_space (replace (tier ++ loc) tier []) = loc).
  { rewrite replace_prefix by (by elem_cases Htier).
    rewrite replace_absent; [done| |done]. by elem_cases Htier. }
  assert (Hin : str_in tier (tier ++ loc) = true).
  { apply str_in_spec. by exists [], loc. }
  unfold tier_and_location.
  destruct (tier ++ loc) as [|c0 text] eqn:Etext.
  { by elem_cases Htier. }
  rewrite <- Etext in *.
  elem_cases Htier.
  - by rewrite Hin, Hrep.
  - rewrite (Hother (lit "THE PALM")); [by rewrite Hin, Hrep|left|done].
  - rewrite (Hother (lit "THE PALM")); [|left|done].
    rewrite (Hother (lit "GALAXY")); [|right; left|done].
    by rewrite Hin, Hrep.
Qed.

(** X12.  The card of an activity is taken apart again.  The whole text of
    a container is the text of its heading followed by the tier and the
    location without separators.  If the name is not empty and does not
    occur in the rest, the rest is one of the three tiers followed by a
    location without whitespace at its ends, no other tier occurs in it
    and the tier does not occur in the location, then the item carries
    this name, this tier and this location.  No capital letter counts as
    whitespace. *)
Theorem container_decoded (activity_name tier loc : str) :
  (forall c, ascii_upper_letter c = true -> is_space c = false) ->
  activity_name <> [] ->
  str_in activity_name (tier ++ loc) = false ->
  tier ∈ tiers ->
  (forall t, t ∈ tiers -> t <> tier -> str_in t (tier ++ loc) = false) ->
  str_in tier loc = false ->
  strip is_space loc = loc ->
  parse_container is_space
    {| heading := Some activity_name;
       all_text := activity_name ++ tier ++ loc |}
  = Some {| item_name := activity_name;
            item_location := loc;
            item_tier := Some tier |}.
Proof.
  intros Hsp Hname Hname_absent Htier Hother Habsent Hloc.
  destruct (tier_and_location_decode tier loc Hsp Htier Hother Habsent Hloc)
    as [Hstrip Hdec].
  unfold parse_container. simpl.
  rewrite replace_prefix by done.
  rewrite replace_absent by done. simpl.
  rewrite Hstrip, Hdec. by elem_cases Htier.
Qed.

End ScrapeActivitiesFacts.

Lemma ascii_capital_not_space (c : N) :
  ascii_upper_letter c = true -> Ascii.is_space c = false.
Proof.
  unfold ascii_upper_letter, Ascii.is_space.
  intros [H1%N.leb_le H2%N.leb_le]%andb_true_iff.
  apply orb_false_iff. split; apply andb_false_iff.
  - right. apply N.leb_gt. lia.
  - right. apply N.leb_gt. lia.
Qed.

(** The card of the salt sauna of the GALAXY tier. *)
Lemma container_decoded_witness :
  parse_container Ascii.is_space
    {| heading := Some (lit "Salt Sauna");
       all_text := lit "Salt SaunaGALAXYSauna 1" |}
  = Some {| item_name := lit "Salt Sauna";
            item_location := lit "Sauna 1";
            item_tier := Some (lit "GALAXY") |}.
Proof.
  apply (container_decoded Ascii.is_space
           (lit "Salt Sauna") (lit "GALAXY") (lit "Sauna 1")).
  - apply ascii_capital_not_space.
  - done.
  - by vm_compute.
  - right. left.
  - intros t Ht Hne. elem_cases Ht; by vm_compute.
  - by vm_compute.
  - by vm_compute.
Defined.

(** * [scrape_activity_details.py] *)

Section DetailTierFacts.

Variable lower : str -> str.

(** A lower-cased text has no capital letter of the ASCII alphabet. *)
Hypothesis lower_no_capital :
  forall s c, c ∈ lower s -> ascii_upper_letter c = false.

(** A text with a capital letter does not occur in a lower-cased text. *)
Lemma capital_not_in_lower (sub s : str) (c : N) :
  c ∈ sub -> ascii_upper_letter c = true -> str_in sub (lower s) = false.
Proof.
  intros Hc Hup. destruct (str_in sub (lower s)) eqn:E; [|done].
  apply str_in_spec in E as (pre & post & E).
  assert (c ∈ lower s) as Hin.
  { rewrite E. apply elem_of_app. right. apply elem_of_app. by left. }
  apply lower_no_capital in Hin. congruence.
Qed.

Lemma style_tier_Some (style tier : str) :
  style_tier lower style = Some tier ->
  (tier = lit "THE PALM" /\
   (str_in (lit "#6141f3") (lower style) = true \/
    str_in (lit "rgb(97, 65, 243)") style = true)) \/
  (tier = lit "GALAXY" /\
   str_in (lit "rgb(254, 33, 110)") style = true) \/
  (tier = lit "ELYSIUM" /\
   str_in (lit "rgb(0, 199, 84)") style = true).
Proof.
  unfold style_tier.
  rewrite (capital_not_in_lower (lit "#FE216E") style 70);
    [|by vm_compute; set_solver|done].
  rewrite (capital_not_in_lower (lit "#00C754") style 67);
    [|by vm_compute; set_solver|done].
  rewrite !orb_false_l.
  destruct (str_in (lit "#6141f3") (lower style)) eqn:E1.
  { intros [= <-]. left. split; [done|by left]. }
  rewrite orb_false_l.
  destruct (str_in (lit "rgb(97, 65, 243)") style) eqn:E2.
  { intros [= <-]. left. split; [done|by right]. }
  destruct (str_in (lit "rgb(254, 33, 110)") style) eqn:E3.
  { intros [= <-]. right. left. done. }
  destruct (str_in (lit "rgb(0, 199, 84)") style) eqn:E4.
  { intros [= <-]. right. right. done. }
  done.
Qed.

Lemma tier_loop_Some (tier_divs : list str) (tier : str) :
  tier_loop lower tier_divs = Some tier ->
  exists style, style ∈ tier_divs /\ style_tier lower style = Some tier.
Proof.
  induction tier_divs as [|style rest IH]; [done|]. cbn [tier_loop].
  destruct (style_tier lower style) as [t|] eqn:E.
  - intros [= <-]. exists style. split; [left|done].
  - intros H. destruct (IH H) as (s & Hs & Ht).
    exists s. split; [by right|done].
Qed.

(** X13.  The tier of a detail page comes from a [div] whose style has
    [border-left], and the hexadecimal colours of GALAXY and ELYSIUM never
    give it: they are written with capital letters and looked up in the
    lower-cased style.  A page is of the tier GALAXY or ELYSIUM only if
    this style holds the colour of the tier in the form [rgb(...)], and of
    the tier THE PALM only if it holds ['#6141f3'] in any case of the
    letters or the form [rgb(...)]; there is no other tier. *)
Theorem detail_tier_sources (styles : list (option str)) (tier : str) :
  page_tier lower styles = Some tier ->
  exists style,
    Some style ∈ styles /\
    str_in (lit "border-left") style = true /\
    ((tier = lit "THE PALM" /\
      (str_in (lit "#6141f3") (lower style) = true \/
       str_in (lit "rgb(97, 65, 243)") style = true)) \/
     (tier = lit "GALAXY" /\
      str_in (lit "rgb(254, 33, 110)") style = true) \/
     (tier = lit "ELYSIUM" /\
      str_in (lit "rgb(0, 199, 84)") style = true)).
Proof.
  unfold page_tier. intros H.
  apply tier_loop_Some in H as (style & Hin & Ht).
  apply list_elem_of_omap in Hin as (x & Hx & Hb).
  destruct (has_border_left x) eqn:E; [|done]. subst x.
  exists style. split; [done|]. split.
  - unfold has_border_left in E. by apply andb_true_iff in E as [_ E].
  - by apply style_tier_Some.
Qed.

End DetailTierFacts.

Lemma ascii_lower_no_capital (s : str) (c : N) :
  c ∈ Ascii.lower s -> ascii_upper_letter c = false.
Proof.
  unfold Ascii.lower. intros (d & -> & _)%list_elem_of_fmap.
  unfold Ascii.lower_char, ascii_upper_letter.
  destruct ((65 <=? d) && (d <=? 90)) eqn:E; [|done].
  apply andb_true_iff in E as [H1%N.leb_le H2%N.leb_le].
  apply andb_false_iff. right. apply N.leb_gt. lia.
Qed.

(** A page whose first [div] has no tier and whose second one shows the
    colour of GALAXY. *)
Lemma detail_tier_sources_witness :
  exists style,
    Some style ∈ [None; Some (lit "border-left: 3px solid #FE216E");
                  Some (lit "border-left: 3px solid rgb(254, 33, 110)")] /\
    str_in (lit "border-left") style = true /\
    ((lit "GALAXY" = lit "THE PALM" /\
      (str_in (lit "#6141f3") (Ascii.lower style) = true \/
       str_in (lit "rgb(97, 65, 243)") style = true)) \/
     (lit "GALAXY" = lit "GALAXY" /\
      str_in (lit "rgb(254, 33, 110)") style = true) \/
     (lit "GALAXY" = lit "ELYSIUM" /\
      str_in (lit "rgb(0, 199, 84)") style = true)).
Proof.
  apply (detail_tier_sources Ascii.lower ascii_lower_no_capital).
  by vm_compute.
Defined.

(** ** The range of [main] *)

Lemma py_slice_segment {A} (l : list A) (start stop : Z) :
  exists pre post, l = pre ++ py_slice l start stop ++ post.
Proof.
  unfold py_slice.
  set (a := Z.to_nat (slice_index (Z.of_nat (length l)) start)).
  set (n := Z.to_nat _).
  exists (take a l), (drop n (drop a l)).
  by rewrite (take_drop n), (take_drop a).
Qed.

(** X14.  The range of the detail scraper, with both bounds in the list.
    For [1 <= start <= end <= len(activities)] the activities of the
    positions [start] to [end], counted from 1 and both included, are
    selected, in their order: there are [end - start + 1] of them, and the
    activity of position [i] is the one selected at index [i - start]. *)
Theorem select_range_inclusive {A} (activities : list A) (first last : Z) :
  (1 <= first)%Z -> (first <= last)%Z ->
  (last <= Z.of_nat (length activities))%Z ->
  select_range activities (Some first) (Some last)
  = take (Z.to_nat (last - first + 1))
         (drop (Z.to_nat (first - 1)) activities) /\
  length (select_range activities (Some first) (Some last))
  = Z.to_nat (last - first + 1) /\
  forall i, (first <= i)%Z -> (i <= last)%Z ->
            select_range activities (Some first) (Some last)
              !! Z.to_nat (i - first)
            = activities !! Z.to_nat (i - 1).
Proof.
  intros H1 H2 H3.
  assert (select_range activities (Some first) (Some last)
          = take (Z.to_nat (last - first + 1))
              (drop (Z.to_nat (first - 1)) activities)) as ->.
  { unfold select_range, truthy_int.
    destruct (Z.eqb_spec first 0) as [?|_]; [lia|].
    destruct (Z.eqb_spec last 0) as [?|_]; [lia|].
    cbn [negb andb]. unfold py_slice, slice_index, default, id.
    destruct (Z.ltb_spec (first - 1) 0) as [?|_]; [lia|].
    destruct (Z.ltb_spec last 0) as [?|_]; [lia|].
    rewrite (Z.min_l (first - 1)), (Z.min_l last) by lia.
    f_equal. f_equal. lia. }
  split; [done|]. split.
  - rewrite length_take, length_drop. lia.
  - intros i Hi1 Hi2. rewrite lookup_take_lt by lia.
    rewrite lookup_drop. f_equal. lia.
Qed.

(** The second and the third of four. *)
Lemma select_range_inclusive_witness :
  select_range [10; 20; 30; 40]%N (Some 2%Z) (Some 3%Z) = [20; 30]%N.
Proof.
  apply (select_range_inclusive [10; 20; 30; 40]%N 2 3); simpl; lia.
Defined.

(** X15.  A range that is not given in full is not used.  When [start] or
    [end] is missing or zero, all activities are selected: a [start] alone
    selects nothing less than the whole list. *)
Theorem select_range_ignored {A} (activities : list A)
    (start stop : option Z) :
  start = None \/ start = Some 0%Z \/ stop = None \/ stop = Some 0%Z ->
  select_range activities start stop = activities.
Proof.
  intros H.
  assert (truthy_int start && truthy_int stop = false) as E.
  { destruct H as [-> | [-> | [-> | ->]]]; simpl; [done|done| |];
      by rewrite andb_false_r. }
  unfold select_range. rewrite E. unfold py_slice, slice_index.
  destruct (Z.ltb_spec 0 0) as [?|_]; [lia|].
  destruct (Z.ltb_spec (Z.of_nat (length activities)) 0) as [?|_]; [lia|].
  rewrite (Z.min_l 0) by lia. rewrite Z.min_id, Z.sub_0_r, Nat2Z.id.
  simpl. by rewrite take_ge.
Qed.

(** A start without end. *)
Lemma select_range_ignored_witness :
  select_range [10; 20; 30; 40]%N (Some 3%Z) None = [10; 20; 30; 40]%N.
Proof.
  apply (select_range_ignored [10; 20; 30; 40]%N (Some 3%Z) None).
  right. right. by left.
Defined.

(** X16.  Whatever the bounds are, and also when they are negative, in the
    wrong order or beyond the list, the scraper works on a run of
    neighbouring activities of the list, in their order, and never fails
    on the bounds. *)
Theorem select_range_segment {A} (activities : list A)
    (start stop : option Z) :
  exists pre post,
    activities = pre ++ select_range activities start stop ++ post.
Proof.
  unfold select_range.
  destruct (truthy_int start && truthy_int stop); apply py_slice_segment.
Qed.

(** * [scrape_schedule.py] *)

Lemma rsplit1_absent (sep : N) (s : str) :
  sep ∉ s -> rsplit1 sep s = None.
Proof.
  induction s as [|c s IH]; [done|]. intros H.
  apply not_elem_of_cons in H as [Hc Hs]. simpl. rewrite (IH Hs).
  destruct (N.eqb_spec c sep); [congruence|done].
Qed.

Lemma rsplit1_None (sep : N) (s : str) :
  rsplit1 sep s = None -> sep ∉ s.
Proof.
  induction s as [|c s IH]; simpl; [intros _; apply not_elem_of_nil|].
  destruct (rsplit1 sep s) as [[a b]|]; [done|].
  destruct (N.eqb_spec c sep); [done|]. intros _.
  apply not_elem_of_cons. split; [congruence|by apply IH].
Qed.

Lemma rsplit1_Some (sep : N) (s a b : str) :
  rsplit1 sep s = Some (a, b) -> s = a ++ sep :: b /\ sep ∉ b.
Proof.
  revert a. induction s as [|c s IH]; intros a; simpl; [done|].
  destruct (rsplit1 sep s) as [[a' b']|] eqn:E.
  - intros [= <- <-]. destruct (IH a' eq_refl) as [-> Hb]. done.
  - destruct (N.eqb_spec c sep) as [->|]; [|done].
    intros [= <- <-]. split; [done|]. by apply rsplit1_None.
Qed.

Lemma rsplit1_app (sep : N) (a b : str) :
  sep ∉ b -> rsplit1 sep (a ++ sep :: b) = Some (a, b).
Proof.
  intros Hb. induction a as [|c a IH]; simpl.
  - by rewrite (rsplit1_absent sep b Hb), N.eqb_refl.
  - by rewrite IH.
Qed.

(** ** The search of the pattern *)

Section SearchFacts.

Context {R : Type}.
Variable p : N -> bool.

Lemma greedy_star_Some (s : str) (k : str -> option R) (r : R) :
  greedy_star p s k = Some r ->
  exists pre post,
    s = pre ++ post /\ Forall (fun c => p c = true) pre /\ k post = Some r.
Proof.
  induction s as [|c s IH]; simpl; intros H.
  - by exists [], [].
  - destruct (p c) eqn:Ec; [|by exists [], (c :: s)].
    destruct (greedy_star p s k) as [r'|] eqn:E; [|by exists [], (c :: s)].
    destruct (IH H) as (pre & post & -> & Hpre & Hk).
    exists (c :: pre), post. split_and!; [done| |done].
    by apply Forall_cons.
Qed.

Lemma greedy_star_None (s : str) (k : str -> option R) :
  (forall pre post,
      s = pre ++ post -> Forall (fun c => p c = true) pre ->
      k post = None) ->
  greedy_star p s k = None.
Proof.
  intros H. destruct (greedy_star p s k) as [r|] eqn:E; [|done].
  apply greedy_star_Some in E as (pre & post & Hs & Hpre & Hk).
  rewrite (H pre post Hs Hpre) in Hk. done.
Qed.

Lemma greedy_star_max (ws rest : str) (k : str -> option R) (r : R) :
  Forall (fun c => p c = true) ws ->
  match rest with [] => True | c :: _ => p c = false end ->
  k rest = Some r ->
  greedy_star p (ws ++ rest) k = Some r.
Proof.
  intros Hws Hrest Hk. induction Hws as [|c ws Hc _ IH]; simpl.
  - destruct rest as [|c rest]; [done|]. simpl. by rewrite Hrest.
  - by rewrite Hc, IH.
Qed.

Lemma greedy_star_group_Some (acc s : str) (k : str -> str -> option R)
    (r : R) :
  greedy_star_group p acc s k = Some r ->
  exists pre post,
    s = pre ++ post /\ Forall (fun c => p c = true) pre /\
    k (acc ++ pre) post = Some r.
Proof.
  revert acc. induction s as [|c s IH]; intros acc; simpl; intros H.
  - exists [], []. by rewrite (app_nil_r acc).
  - destruct (p c) eqn:Ec;
      [|exists [], (c :: s); by rewrite (app_nil_r acc)].
    destruct (greedy_star_group p (acc ++ [c]) s k) as [r'|] eqn:E;
      [|exists [], (c :: s); by rewrite (app_nil_r acc)].
    injection H as ->.
    destruct (IH _ E) as (pre & post & -> & Hpre & Hk).
    exists (c :: pre), post. split_and!; [done|by apply Forall_cons|].
    by rewrite <- app_assoc in Hk.
Qed.

Lemma greedy_star_group_max (acc g rest : str)
    (k : str -> str -> option R) (r : R) :
  Forall (fun c => p c = true) g ->
  match rest with [] => True | c :: _ => p c = false end ->
  k (acc ++ g) rest = Some r ->
  greedy_star_group p acc (g ++ rest) k = Some r.
Proof.
  intros Hg Hrest. revert acc.
  induction Hg as [|c g Hc _ IH]; intros acc Hk; simpl.
  - rewrite app_nil_r in Hk. destruct rest as [|c rest]; [done|].
    simpl. by rewrite Hrest.
  - rewrite Hc, IH; [done|]. by rewrite <- app_assoc.
Qed.

Lemma lazy_plus_group_Some (acc s : str) (k : str -> str -> option R)
    (r : R) :
  lazy_plus_group p acc s k = Some r ->
  exists pre post,
    s = pre ++ post /\ pre <> [] /\ Forall (fun c => p c = true) pre /\
    k (acc ++ pre) post = Some r.
Proof.
  revert acc. induction s as [|c s IH]; intros acc; simpl; [done|].
  destruct (p c) eqn:Ec; [|done].
  destruct (k (acc ++ [c]) s) as [r'|] eqn:E.
  - intros [= <-]. exists [c], s. split_and!; [done|done| |done].
    by apply Forall_cons.
  - intros H. destruct (IH _ H) as (pre & post & -> & _ & Hpre & Hk).
    exists (c :: pre), post. split_and!; [done|done| |].
    + by apply Forall_cons.
    + by rewrite <- app_assoc in Hk.
Qed.

(** The lazy group is the shortest text after which the rest of the
    pattern matches. *)
Lemma lazy_plus_group_first (acc n rest : str)
    (k : str -> str -> option R) (r : R) :
  n <> [] ->
  Forall (fun c => p c = true) n ->
  (forall n1 n2,
      n = n1 ++ n2 -> n1 <> [] -> n2 <> [] ->
      k (acc ++ n1) (n2 ++ rest) = None) ->
  k (acc ++ n) rest = Some r ->
  lazy_plus_group p acc (n ++ rest) k = Some r.
Proof.
  intros Hne Hn. revert acc Hne.
  induction Hn as [|c n Hc Hn IH]; intros acc Hne Hshort Hk; [done|].
  simpl. rewrite Hc. destruct n as [|d n].
  - simpl. by rewrite Hk.
  - rewrite (Hshort [c] (d :: n)); [|done|done|done].
    apply IH; [done| |].
    + intros n1 n2 E Hn1 Hn2. rewrite <- app_assoc.
      apply (Hshort (c :: n1) n2); [by rewrite E|done|done].
    + by rewrite <- app_assoc.
Qed.

End SearchFacts.

Section ScrapeScheduleFacts.

Variables lower upper : str -> str.
Variable is_space : N -> bool.

Local Abbreviation blank := (Forall (fun c => is_space c = true)).

(** What a match of the pattern of line 114 says of the text. *)
Lemma name_location_match_Some (s name location : str) :
  name_location_match is_space s = Some (name, location) ->
  exists ws1 ws2 tail,
    s = name ++ ws1 ++ [40] ++ location ++ [41] ++ ws2 ++ tail /\
    name <> [] /\ (10 ∉ name) /\
    location <> [] /\ (41 ∉ location) /\
    blank ws1 /\ blank ws2 /\ at_end tail = true.
Proof.
  unfold name_location_match. intros H.
  apply lazy_plus_group_Some in H as (g1 & rest & -> & Hne & Hg1 & H).
  apply greedy_star_Some in H as (ws1 & rest1 & -> & Hws1 & H).
  destruct rest1 as [|c rest1]; [done|].
  destruct (N.eqb_spec c 40) as [->|]; [|done].
  destruct rest1 as [|d rest1]; [done|].
  destruct (N.eqb_spec d 41) as [|Hd]; [done|]. simpl in H.
  apply greedy_star_group_Some in H as (g2 & rest2 & -> & Hg2 & H).
  destruct rest2 as [|e rest2]; [done|].
  destruct (N.eqb_spec e 41) as [->|]; [|done].
  apply greedy_star_Some in H as (ws2 & tail & -> & Hws2 & H).
  destruct (at_end tail) eqn:Etail; [|done].
  injection H as <- <-. exists ws1, ws2, tail.
  split_and!; try done.
  - intros Hin. rewrite Forall_forall in Hg1.
    specialize (Hg1 10 Hin). done.
  - intros [E|Hin]%elem_of_cons; [congruence|].
    rewrite Forall_forall in Hg2. specialize (Hg2 41 Hin). done.
Qed.

(** A text of the form [name (location)] is matched with these groups. *)
Lemma name_location_match_decode (name ws location : str) :
  is_space 40 = false ->
  name <> [] -> strip is_space name = name ->
  (10 ∉ name) -> (40 ∉ name) ->
  blank ws ->
  location <> [] -> (41 ∉ location) ->
  name_location_match is_space (name ++ ws ++ [40] ++ location ++ [41])
  = Some (name, location).
Proof.
  intros Hsp Hne Hstrip Hnl Hparen Hws Hlne Hloc.
  assert (Hlast : forall n1 n2,
             name = n1 ++ n2 -> n2 <> [] ->
             ~ blank n2).
  { intros n1 n2 E Hn2 Hall.
    destruct (strip_spec is_space name) as (_ & _ & _ & _ & _ & _ & H).
    rewrite Hstrip, E in H.
    destruct (exists_last Hn2) as (l & a & ->).
    rewrite app_assoc, reverse_snoc in H.
    rewrite Forall_app, Forall_singleton in Hall. destruct Hall. congruence. }
  unfold name_location_match.
  apply lazy_plus_group_first; [done| | |].
  - apply Forall_forall. intros c Hc.
    destruct (N.eqb_spec c 10) as [->|]; done.
  - intros n1 n2 E Hn1 Hn2. apply greedy_star_None.
    intros pre post Hsplit Hpre.
    apply app_eq_inv in Hsplit as [(m & -> & ->)|(m & -> & _)].
    + destruct m as [|c m].
      { rewrite app_nil_r in E, Hn2. exfalso. by apply (Hlast n1 pre). }
      simpl. destruct (N.eqb_spec c 40) as [->|]; [|done].
      exfalso. apply Hparen. rewrite E.
      apply elem_of_app. right. apply elem_of_app. right. left.
    + exfalso. apply (Hlast n1 n2 E Hn2).
      by apply Forall_app in Hpre as [? _].
  - simpl. apply greedy_star_max; [done|done|]. simpl.
    destruct location as [|d location]; [done|].
    apply not_elem_of_cons in Hloc as [Hd Hloc]. simpl.
    destruct (N.eqb_spec d 41); [congruence|]. simpl.
    apply greedy_star_group_max.
    + apply Forall_forall. intros c Hc.
      destruct (N.eqb_spec c 41) as [->|]; done.
    + done.
    + done.
Qed.

(** The tier of a colour is one of the three, and is never empty. *)
Lemma color_tier_Some (color : option str) (tier : str) :
  color_tier upper color = Some tier -> tier ∈ tiers.
Proof.
  unfold color_tier. destruct color as [color|]; [|done].
  unfold COLOR_TO_TIER. intros H.
  apply lookup_insert_Some in H as [[_ <-]|[_ H]];
    [right; right; left|].
  apply lookup_insert_Some in H as [[_ <-]|[_ H]]; [left|].
  apply lookup_insert_Some in H as [[_ <-]|[_ H]]; [right; left|].
  by rewrite lookup_empty in H.
Qed.

Lemma color_tier_truthy (color : option str) :
  (if truthy (color_tier upper color)
   then color_tier upper color else None)
  = color_tier upper color.
Proof.
  destruct (color_tier upper color) as [tier|] eqn:E; [|done].
  apply color_tier_Some in E. by elem_cases E.
Qed.

Lemma strip_subset (s : str) (c : N) :
  c ∈ strip is_space s -> c ∈ s.
Proof.
  intros H. destruct (strip_spec is_space s) as (pre & post & E & _).
  rewrite E. apply elem_of_app. right. apply elem_of_app. by left.
Qed.

(** X17.  What the schedule scraper makes of a [div].  When an activity
    is read, its name, its location and its time have no whitespace at
    either end, the name has no newline, the location and the time have
    no closing parenthesis, and its tier is missing or one of THE PALM,
    GALAXY and ELYSIUM.  The text of the [div] then has an opening
    parenthesis followed by a closing one: a [div] whose text has no
    closing parenthesis gives no activity and is passed over without
    notice. *)
Theorem activity_div_shape (activity_div : ActivityDiv) (a : Activity) :
  parse_activity_div upper is_space activity_div = Some a ->
  strip is_space (act_name a) = act_name a /\
  (10 ∉ act_name a) /\
  strip is_space (act_location a) = act_location a /\
  (41 ∉ act_location a) /\
  strip is_space (act_time a) = act_time a /\
  (41 ∉ act_time a) /\
  (act_tier a = None \/
   exists tier, act_tier a = Some tier /\ tier ∈ tiers) /\
  exists before between after,
    div_text activity_div = before ++ [40] ++ between ++ [41] ++ after.
Proof.
  unfold parse_activity_div, activity_and_time. intros H.
  destruct (rsplit1 41 (div_text activity_div)) as [[before after]|] eqn:Er.
  - apply rsplit1_Some in Er as [Etext Hafter].
    destruct (name_location_match is_space (before ++ [41]))
      as [[name location]|] eqn:Em; [|done].
    injection H as <-. simpl.
    apply name_location_match_Some in Em
      as (ws1 & ws2 & tail & E & _ & Hname & _ & Hloc & _).
    split_and!.
    + apply strip_idemp.
    + intros Hin. by apply strip_subset in Hin.
    + apply strip_idemp.
    + intros Hin. by apply strip_subset in Hin.
    + apply strip_idemp.
    + intros Hin. by apply strip_subset in Hin.
    + rewrite color_tier_truthy.
      destruct (color_tier upper (div_color activity_div)) as [tier|] eqn:Et;
        [right|by left].
      exists tier. split; [done|]. by apply color_tier_Some in Et.
    + exists (name ++ ws1), location, (ws2 ++ tail ++ after).
      rewrite Etext.
      change (before ++ 41 :: after) with (before ++ [41] ++ after).
      rewrite (app_assoc before), E. by rewrite <- !app_assoc.
  - destruct (name_location_match is_space (div_text activity_div))
      as [[name location]|] eqn:Em; [|done].
    exfalso. apply rsplit1_None in Er. apply Er.
    apply name_location_match_Some in Em as (ws1 & ws2 & tail & -> & _).
    rewrite !elem_of_app. right. right. right. right. left. left.
Qed.

(** X18.  A [div] in the form of the page is read back.  Let the text be
    a name, whitespace, the location in parentheses and the time, where
    the name is not empty, has no whitespace at its ends, no newline and
    no opening parenthesis, the location is not empty, has no whitespace
    at its ends and no closing parenthesis, and the time has no
    whitespace at its ends and no closing parenthesis.  Then the activity
    has this name, this location and this time, and the tier of the
    colour.  The opening parenthesis is no whitespace. *)
Theorem activity_div_decoded (color : option str)
    (name ws location time : str) :
  is_space 40 = false ->
  name <> [] -> strip is_space name = name ->
  (10 ∉ name) -> (40 ∉ name) ->
  blank ws ->
  location <> [] -> strip is_space location = location ->
  (41 ∉ location) ->
  strip is_space time = time -> (41 ∉ time) ->
  parse_activity_div upper is_space
    {| div_color := color;
       div_text := name ++ ws ++ [40] ++ location ++ [41] ++ time |}
  = Some {| act_name := name;
            act_location := location;
            act_time := time;
            act_tier := color_tier upper color |}.
Proof.
  intros Hsp Hne Hstrip Hnl Hparen Hws Hlne Hlstrip Hloc Htstrip Htime.
  unfold parse_activity_div, activity_and_time. simpl.
  replace (name ++ ws ++ 40 :: location ++ 41 :: time)
    with ((name ++ ws ++ [40] ++ location) ++ 41 :: time)
    by (by rewrite <- !app_assoc).
  rewrite (rsplit1_app 41 _ time Htime).
  replace ((name ++ ws ++ [40] ++ location) ++ [41])
    with (name ++ ws ++ [40] ++ location ++ [41])
    by (by rewrite <- !app_assoc).
  rewrite name_location_match_decode by done.
  by rewrite Hstrip, Hlstrip, Htstrip, color_tier_truthy.
Qed.

End ScrapeScheduleFacts.

(** The [div] of the aqua gym. *)
Lemma activity_div_shape_witness :
  strip Ascii.is_space (act_name aqua_gym) = act_name aqua_gym /\
  (10 ∉ act_name aqua_gym) /\
  strip Ascii.is_space (act_location aqua_gym) = act_location aqua_gym /\
  (41 ∉ act_location aqua_gym) /\
  strip Ascii.is_space (act_time aqua_gym) = act_time aqua_gym /\
  (41 ∉ act_time aqua_gym) /\
  (act_tier aqua_gym = None \/
   exists tier, act_tier aqua_gym = Some tier /\ tier ∈ tiers) /\
  exists before between after,
    div_text aqua_gym_div = before ++ [40] ++ between ++ [41] ++ after.
Proof.
  apply (activity_div_shape ascii_upper Ascii.is_space aqua_gym_div aqua_gym).
  by vm_compute.
Defined.

Lemma activity_div_decoded_witness :
  parse_activity_div ascii_upper Ascii.is_space
    {| div_color := Some (lit "#fe216e");
       div_text := lit "Aqua Gym" ++ lit " " ++ [40] ++ lit "Wave Pool"
                   ++ [41] ++ lit "10:00 - 10:30" |}
  = Some {| act_name := lit "Aqua Gym";
            act_location := lit "Wave Pool";
            act_time := lit "10:00 - 10:30";
            act_tier := color_tier ascii_upper (Some (lit "#fe216e")) |}.
Proof.
  apply (activity_div_decoded ascii_upper Ascii.is_space
           (Some (lit "#fe216e")) (lit "Aqua Gym") (lit " ")
           (lit "Wave Pool") (lit "10:00 - 10:30")).
  - by vm_compute.
  - done.
  - by vm_compute.
  - apply (bool_decide_unpack _). by vm_compute.
  - apply (bool_decide_unpack _). by vm_compute.
  - by repeat constructor.
  - done.
  - by vm_compute.
  - apply (bool_decide_unpack _). by vm_compute.
  - by vm_compute.
  - apply (bool_decide_unpack _). by vm_compute.
Defined.

(** ** The loop over the tab panels *)

Lemma empty_schedule_lookup (day : str) :
  empty_schedule !! day
  = if bool_decide (day ∈ days)
    then Some {| day_theme := []; day_list := [] |} else None.
Proof.
  destruct (bool_decide_reflect (day ∈ days)) as [Hd|Hd].
  - by elem_cases Hd.
  - unfold empty_schedule. apply not_elem_of_list_to_map_1.
    intros ([k v] & -> & Hin)%list_elem_of_fmap.
    apply list_elem_of_fmap in Hin as (d & [= -> ->] & Hin). done.
Qed.

Lemma theme_day_days (theme day : str) :
  theme_day theme = Some day -> day ∈ days.
Proof.
  unfold theme_day. intros [H _]%find_some. by apply list_elem_of_In.
Qed.

Lemma nav_day_days (nav_text day : str) :
  nav_day nav_text = Some day -> day ∈ days.
Proof.
  unfold nav_day.
  destruct (find _ day_mapping) as [item|] eqn:E; [|done].
  apply find_some in E as [H%list_elem_of_In _]. intros [= <-].
  elem_cases H; apply (bool_decide_unpack _); by vm_compute.
Qed.

Section ScrapeTabsFacts.

Variables lower upper : str -> str.
Variable is_space : N -> bool.

Local Abbreviation parse_div := (parse_activity_div upper is_space).
Local Abbreviation step :=
  (fun acc tab =>
     acc ≫= fun schedule => scrape_tab lower upper is_space schedule tab).
Local Abbreviation after := (day_after lower upper is_space).

Lemma current_day_days (tab : TabPanel) (day : str) :
  current_day lower tab = Some day -> day ∈ days.
Proof.
  unfold current_day.
  destruct (theme_day (tab_theme tab)) as [d|] eqn:E.
  - intros [= <-]. by apply theme_day_days in E.
  - destruct (truthy (tab_id tab)); [|done].
    destruct (tab_nav tab) as [text|]; [|done]. apply nav_day_days.
Qed.

Lemma day_tabs_cons (day : str) (tab : TabPanel) (tabs : list TabPanel) :
  day_tabs lower day (tab :: tabs)
  = if tab_of_day lower day tab
    then tab :: day_tabs lower day tabs
    else day_tabs lower day tabs.
Proof. done. Qed.

Lemma scrape_fold (tabs : list TabPanel)
    (schedule0 : gmap (list N) DaySchedule) :
  (forall day, day ∈ days -> is_Some (schedule0 !! day)) ->
  exists schedule,
    foldl step (Some schedule0) tabs = Some schedule /\
    forall day,
      schedule !! day = after day tabs <$> schedule0 !! day.
Proof.
  revert schedule0.
  induction tabs as [|tab tabs IH]; intros schedule0 Hfull.
  - exists schedule0. split; [done|]. intros day.
    destruct (schedule0 !! day) as [[theme list]|]; [|done].
    unfold day_after. simpl. by rewrite app_nil_r.
  - cbn [foldl]. cbn [mbind option_bind].
    assert (Hskip :
              (forall day, tab_of_day lower day tab = false) ->
              exists schedule,
                foldl step (Some schedule0) tabs = Some schedule /\
                forall day,
                  schedule !! day
                  = after day (tab :: tabs) <$> schedule0 !! day).
    { intros Hno. destruct (IH schedule0 Hfull) as (schedule & Hs & Hday).
      exists schedule. split; [done|]. intros day. rewrite Hday.
      unfold day_after. by rewrite day_tabs_cons, Hno. }
    unfold scrape_tab.
    destruct (tab_theme tab) as [|c theme] eqn:Etheme.
    { apply Hskip. intros day. unfold tab_of_day. by rewrite Etheme. }
    destruct (current_day lower tab) as [d|] eqn:Eday.
    2:{ apply Hskip. intros day. unfold tab_of_day. rewrite Eday.
        rewrite bool_decide_eq_false_2 by done. apply andb_false_r. }
    destruct (Hfull d (current_day_days tab d Eday)) as [data Hdata].
    rewrite Hdata.
    destruct (IH (<[d := {| day_theme := c :: theme;
                            day_list := day_list data
                                        ++ omap parse_div (tab_divs tab) |}]>
                    schedule0)) as (schedule & Hs & Hday).
    { intros day Hin. apply lookup_insert_is_Some'. right. by apply Hfull. }
    exists schedule. split; [done|]. intros day. rewrite Hday.
    destruct (decide (d = day)) as [<-|Hne].
    + assert (tab_of_day lower d tab = true) as Htab.
      { unfold tab_of_day.
        by rewrite Etheme, Eday, bool_decide_eq_true_2 by done. }
      rewrite lookup_insert_eq, Hdata.
      cbn [fmap option_fmap option_map]. f_equal.
      unfold day_after. rewrite day_tabs_cons, Htab.
      cbn [day_theme day_list]. f_equal.
      * rewrite last_cons.
        destruct (last (day_tabs lower d tabs)); simpl; [done|].
        by rewrite Etheme.
      * change (mjoin (tab_divs <$> tab :: day_tabs lower d tabs))
          with (tab_divs tab ++ mjoin (tab_divs <$> day_tabs lower d tabs)).
        rewrite omap_app. by rewrite <- app_assoc.
    + assert (tab_of_day lower day tab = false) as Htab.
      { unfold tab_of_day.
        rewrite Eday, bool_decide_eq_false_2 by congruence.
        apply andb_false_r. }
      rewrite lookup_insert_ne by done.
      unfold day_after. by rewrite day_tabs_cons, Htab.
Qed.

Lemma scrape_tabs_full (tabs : list TabPanel)
    (schedule : gmap (list N) DaySchedule) :
  scrape_tabs lower upper is_space tabs = Some schedule ->
  forall day, day ∈ days -> is_Some (schedule !! day).
Proof.
  intros Hs day Hd.
  destruct (scrape_fold tabs empty_schedule) as (schedule' & Hs' & Hday).
  { intros d Hin. rewrite empty_schedule_lookup.
    by rewrite bool_decide_eq_true_2. }
  unfold scrape_tabs in Hs. rewrite Hs' in Hs. injection Hs as ->.
  rewrite Hday, empty_schedule_lookup.
  rewrite bool_decide_eq_true_2 by done. by eexists.
Qed.

(** X19.  The loop over the tab panels never fails, and the schedule
    always has the seven days of the week and no other key: the day of a
    tab panel, read from its theme or from its navigation link, is one of
    the seven, so that no [KeyError] arises. *)
Theorem scrape_tabs_total (tabs : list TabPanel) :
  exists schedule,
    scrape_tabs lower upper is_space tabs = Some schedule /\
    forall day, is_Some (schedule !! day) <-> day ∈ days.
Proof.
  destruct (scrape_fold tabs empty_schedule) as (schedule & Hs & Hday).
  { intros day Hin. rewrite empty_schedule_lookup.
    by rewrite bool_decide_eq_true_2. }
  exists schedule. split; [done|]. intros day.
  rewrite Hday, empty_schedule_lookup.
  destruct (bool_decide_reflect (day ∈ days)) as [Hd|Hd]; simpl.
  - split; [done|]. intros _. by eexists.
  - split; [by intros [? ?]|done].
Qed.

(** X20.  What the loop over the tab panels files under a day.  The
    activities of a day are those read from the [div]s of the tab panels
    of this day, that is of the panels with a theme whose day it is, in
    the order of the page, none lost and none added; its theme is the
    theme of the last of these panels, and is empty when there is none. *)
Theorem scrape_tabs_day (tabs : list TabPanel)
    (schedule : gmap (list N) DaySchedule) (day : str)
    (data : DaySchedule) :
  scrape_tabs lower upper is_space tabs = Some schedule ->
  schedule !! day = Some data ->
  day_list data
  = omap parse_div (mjoin (tab_divs <$> day_tabs lower day tabs)) /\
  day_theme data
  = default [] (tab_theme <$> last (day_tabs lower day tabs)).
Proof.
  intros Hs Hdata.
  destruct (scrape_fold tabs empty_schedule) as (schedule' & Hs' & Hday).
  { intros d Hin. rewrite empty_schedule_lookup.
    by rewrite bool_decide_eq_true_2. }
  unfold scrape_tabs in Hs. rewrite Hs' in Hs. injection Hs as ->.
  rewrite Hday, empty_schedule_lookup in Hdata.
  destruct (bool_decide (day ∈ days)); [|done].
  injection Hdata as <-. done.
Qed.

End ScrapeTabsFacts.

(** A page with the tab panel of a Monday. *)
Lemma scrape_tabs_day_witness :
  day_list {| day_theme := lit "Monday Relax"; day_list := [aqua_gym] |}
  = omap (parse_activity_div ascii_upper Ascii.is_space)
         (mjoin (tab_divs <$> day_tabs Ascii.lower (lit "Monday")
                                [monday_tab])) /\
  day_theme {| day_theme := lit "Monday Relax"; day_list := [aqua_gym] |}
  = default [] (tab_theme <$> last (day_tabs Ascii.lower (lit "Monday")
                                      [monday_tab])).
Proof.
  apply (scrape_tabs_day Ascii.lower ascii_upper Ascii.is_space
           [monday_tab]
           (<[lit "Monday" := {| day_theme := lit "Monday Relax";
                                 day_list := [aqua_gym] |}]>
              empty_schedule)
           (lit "Monday")).
  - by vm_compute.
  - by vm_compute.
Defined.

(** ** The second way of reading the page *)

Lemma day_extended_refl (data : DaySchedule) : day_extended data data.
Proof.
  split; [done|]. exists []. split_and!.
  - by rewrite app_nil_r.
  - apply NoDup_nil_2.
  - intros a Ha. by apply elem_of_nil in Ha.
Qed.

Lemma day_extended_trans (data1 data2 data3 : DaySchedule) :
  day_extended data1 data2 -> day_extended data2 data3 ->
  day_extended data1 data3.
Proof.
  intros [Ht1 (added1 & E1 & Hnd1 & Hnew1)] [Ht2 (added2 & E2 & Hnd2 & Hnew2)].
  split.
  - intros Hne. rewrite Ht2; [by apply Ht1|]. by rewrite Ht1.
  - exists (added1 ++ added2). split_and!.
    + by rewrite E2, E1, app_assoc.
    + apply NoDup_app. split_and!; [done| |done].
      intros a Ha1 Ha2. destruct (Hnew2 a Ha2) as [Hnot _]. apply Hnot.
      rewrite E1. apply elem_of_app. by right.
    + intros a [Ha|Ha]%elem_of_app; [by apply Hnew1|].
      destruct (Hnew2 a Ha) as [Hnot Htier]. split; [|done].
      intros Hin. apply Hnot. rewrite E1. apply elem_of_app. by left.
Qed.

Lemma schedule_extended_refl (schedule : gmap (list N) DaySchedule) :
  schedule_extended schedule schedule.
Proof.
  intros day. destruct (schedule !! day); [apply day_extended_refl|done].
Qed.

Lemma schedule_extended_trans
    (schedule1 schedule2 schedule3 : gmap (list N) DaySchedule) :
  schedule_extended schedule1 schedule2 ->
  schedule_extended schedule2 schedule3 ->
  schedule_extended schedule1 schedule3.
Proof.
  intros H1 H2 day. specialize (H1 day). specialize (H2 day).
  destruct (schedule1 !! day), (schedule2 !! day), (schedule3 !! day);
    try done.
  by eapply day_extended_trans.
Qed.

Lemma schedule_extended_insert (schedule : gmap (list N) DaySchedule)
    (day : str) (data data' : DaySchedule) :
  schedule !! day = Some data -> day_extended data data' ->
  schedule_extended schedule (<[day := data']> schedule).
Proof.
  intros Hdata Hext d. destruct (decide (day = d)) as [<-|Hne].
  - by rewrite lookup_insert_eq, Hdata.
  - rewrite lookup_insert_ne by done.
    destruct (schedule !! d); [apply day_extended_refl|done].
Qed.

Lemma schedule_extended_keys
    (schedule schedule' : gmap (list N) DaySchedule) (day : str) :
  schedule_extended schedule schedule' ->
  is_Some (schedule' !! day) <-> is_Some (schedule !! day).
Proof.
  intros H. specialize (H day).
  destruct (schedule !! day), (schedule' !! day); try done.
Qed.

Lemma foldl_min_le (i : nat) (l : list nat) : (foldl Nat.min i l <= i)%nat.
Proof.
  revert i. induction l as [|j l IH]; intros i; simpl; [lia|].
  specialize (IH (Nat.min i j)). lia.
Qed.

Lemma min_or_le (len : nat) (l : list nat) :
  Forall (fun i => (i <= len)%nat) l -> (min_or len l <= len)%nat.
Proof.
  destruct l as [|i l]; simpl; [lia|]. intros [Hi _]%Forall_cons.
  pose proof (foldl_min_le i l). lia.
Qed.

Section FallbackFacts.

Variable lower : str -> str.
Variables is_decimal is_space : N -> bool.

Local Abbreviation loop := (section_loop is_decimal is_space).
Local Abbreviation full :=
  (fun schedule : gmap (list N) DaySchedule =>
     forall day, day ∈ days -> is_Some (schedule !! day)).

(** An activity without tier is appended unless the list has it. *)
Lemma append_new_extends (a : Activity) (activities res : list Activity) :
  act_tier a = None ->
  (exists added,
      res = (if bool_decide (a ∈ activities) then activities
             else activities ++ [a]) ++ added /\
      NoDup added /\
      forall x, x ∈ added ->
                (x ∉ (if bool_decide (a ∈ activities) then activities
                      else activities ++ [a])) /\ act_tier x = None) ->
  exists added,
    res = activities ++ added /\ NoDup added /\
    forall x, x ∈ added -> (x ∉ activities) /\ act_tier x = None.
Proof.
  intros Htier (added & E & Hnd & Hnew).
  destruct (bool_decide_reflect (a ∈ activities)) as [Hin|Hin].
  - by exists added.
  - exists (a :: added). split_and!.
    + by rewrite E, <- app_assoc.
    + apply NoDup_cons. split; [|done]. intros Ha.
      destruct (Hnew a Ha) as [Hnot _]. apply Hnot.
      apply elem_of_app. right. left.
    + intros x [->|Hx]%elem_of_cons; [done|].
      destruct (Hnew x Hx) as [Hnot Hx_tier]. split; [|done].
      intros Hx_in. apply Hnot. apply elem_of_app. by left.
Qed.

Lemma section_loop_extends (n : nat) :
  forall (rest : list str) (activities res : list Activity),
    loop n rest activities = Some res ->
    exists added,
      res = activities ++ added /\ NoDup added /\
      forall a, a ∈ added -> (a ∉ activities) /\ act_tier a = None.
Proof.
  induction n as [n IH] using lt_wf_ind. intros rest activities res.
  assert (Hnil : exists added : list Activity,
             activities = activities ++ added /\ NoDup added /\
             forall a, a ∈ added -> (a ∉ activities) /\ act_tier a = None).
  { exists []. split_and!; [by rewrite app_nil_r|apply NoDup_nil_2|].
    intros a Ha. by apply elem_of_nil in Ha. }
  destruct n as [|n']; simpl; [by intros [= <-]|].
  destruct rest as [|line rest']; [done|].
  destruct (name_location_match is_space line) as [[name location]|].
  2:{ apply IH. lia. }
  set (next_time := match rest' with
                    | [] => None
                    | next_line :: _ => _
                    end).
  set (activity := {| act_name := _ |}).
  intros H. apply (append_new_extends activity); [done|].
  destruct next_time as [t|].
  - destruct n' as [|n''].
    + injection H as <-. exists []. split_and!.
      * by rewrite app_nil_r.
      * apply NoDup_nil_2.
      * intros a Ha. by apply elem_of_nil in Ha.
    + apply (IH n'') in H; [done|lia].
  - apply (IH n') in H; [done|lia].
Qed.

Lemma section_loop_total (n : nat) :
  forall (rest : list str) (activities : list Activity),
    (n <= length rest)%nat -> is_Some (loop n rest activities).
Proof.
  induction n as [n IH] using lt_wf_ind. intros rest activities Hn.
  destruct n as [|n']; simpl; [by eexists|].
  destruct rest as [|line rest']; [simpl in Hn; lia|]. simpl in Hn.
  destruct (name_location_match is_space line) as [[name location]|].
  2:{ apply IH; lia. }
  destruct rest' as [|next_line rest'']; simpl in Hn |- *.
  - apply IH; simpl; lia.
  - destruct (starts_with_time is_decimal is_space
                (strip is_space next_line)).
    + destruct n' as [|n'']; [by eexists|]. apply IH; lia.
    + apply IH; simpl; lia.
Qed.

(** The state of the first pass: the schedule is extended and every index
    of a section is below [bound]. *)
Lemma mark_day_ok (idx bound : nat) (line day : str)
    (sections : gmap (list N) nat)
    (schedule : gmap (list N) DaySchedule) :
  (idx < bound)%nat -> day ∈ days -> full schedule ->
  (forall d i, sections !! d = Some i -> (i < bound)%nat) ->
  exists sections' schedule',
    mark_day lower idx line (sections, schedule) day
    = Some (sections', schedule') /\
    schedule_extended schedule schedule' /\
    (forall d i, sections' !! d = Some i -> (i < bound)%nat).
Proof.
  intros Hidx Hday Hfull Hsec. unfold mark_day.
  destruct (is_heading lower day line).
  2:{ exists sections, schedule. split_and!; [done| |done].
      apply schedule_extended_refl. }
  destruct (sections !! day) as [i|] eqn:Ei.
  { exists sections, schedule. split_and!; [done| |done].
    apply schedule_extended_refl. }
  destruct (Hfull day Hday) as [data Hdata]. rewrite Hdata.
  eexists _, _. split_and!; [done| |].
  - destruct (day_theme data) as [|c theme] eqn:Et; simpl.
    + apply (schedule_extended_insert _ _ data); [done|].
      split; [by rewrite Et|]. exists []. split_and!.
      * by rewrite app_nil_r.
      * apply NoDup_nil_2.
      * intros a Ha. by apply elem_of_nil in Ha.
    + apply schedule_extended_refl.
  - intros d i [[_ <-]|[_ H]]%lookup_insert_Some; [done|]. by eapply Hsec.
Qed.

Lemma schedule_extended_full
    (schedule schedule' : gmap (list N) DaySchedule) :
  schedule_extended schedule schedule' -> full schedule -> full schedule'.
Proof.
  intros Hext Hfull day Hday.
  apply (schedule_extended_keys _ _ day Hext). by apply Hfull.
Qed.

Lemma mark_line_ok (idx bound : nat) (line : str) (ds : list str) :
  (idx < bound)%nat -> (forall d, d ∈ ds -> d ∈ days) ->
  forall (sections : gmap (list N) nat)
         (schedule : gmap (list N) DaySchedule),
    full schedule ->
    (forall d i, sections !! d = Some i -> (i < bound)%nat) ->
    exists sections' schedule',
      foldl (fun acc day => acc ≫= fun st => mark_day lower idx line st day)
            (Some (sections, schedule)) ds
      = Some (sections', schedule') /\
      schedule_extended schedule schedule' /\
      (forall d i, sections' !! d = Some i -> (i < bound)%nat).
Proof.
  intros Hidx. induction ds as [|day ds IH]; intros Hds sections schedule
    Hfull Hsec.
  - exists sections, schedule. split_and!; [done| |done].
    apply schedule_extended_refl.
  - cbn [foldl]. cbn [mbind option_bind].
    destruct (mark_day_ok idx bound line day sections schedule)
      as (sections1 & schedule1 & -> & Hext1 & Hsec1);
      [done|apply Hds; left|done|done|].
    destruct (IH (fun d Hd => Hds d (list_elem_of_further _ _ _ Hd))
                sections1 schedule1)
      as (sections2 & schedule2 & E & Hext2 & Hsec2);
      [by eapply schedule_extended_full|done|].
    exists sections2, schedule2. split_and!; [done| |done].
    by eapply schedule_extended_trans.
Qed.

Lemma first_pass_ok (lines : list str) :
  forall (idx : nat) (sections : gmap (list N) nat)
         (schedule : gmap (list N) DaySchedule),
    full schedule ->
    (forall d i, sections !! d = Some i -> (i < idx + length lines)%nat) ->
    exists sections' schedule',
      first_pass lower idx lines (sections, schedule)
      = Some (sections', schedule') /\
      schedule_extended schedule schedule' /\
      (forall d i, sections' !! d = Some i -> (i < idx + length lines)%nat).
Proof.
  induction lines as [|line lines IH]; intros idx sections schedule
    Hfull Hsec.
  - exists sections, schedule. split_and!; [done| |done].
    apply schedule_extended_refl.
  - cbn [first_pass]. simpl length in *.
    destruct (mark_line_ok idx (idx + S (length lines)) line days)
      with (sections := sections) (schedule := schedule)
      as (sections1 & schedule1 & -> & Hext1 & Hsec1);
      [lia|done|done|done|].
    destruct (IH (S idx) sections1 schedule1)
      as (sections2 & schedule2 & E & Hext2 & Hsec2).
    { by eapply schedule_extended_full. }
    { intros d i Hd. specialize (Hsec1 d i Hd). lia. }
    exists sections2, schedule2. split_and!; [done| |].
    + by eapply schedule_extended_trans.
    + intros d i Hd. specialize (Hsec2 d i Hd). lia.
Qed.

Lemma section_end_le (sections : gmap (list N) nat) (start_idx len : nat) :
  (forall d i, sections !! d = Some i -> (i < len)%nat) ->
  (section_end sections start_idx len <= len)%nat.
Proof.
  intros Hsec. unfold section_end. apply min_or_le.
  apply Forall_forall. intros i Hi. unfold next_day_indices in Hi.
  apply list_elem_of_omap in Hi as (d & _ & Hd).
  destruct (sections !! d) as [j|] eqn:Ej; [|done].
  destruct (start_idx <? j)%nat; [|done]. injection Hd as <-.
  specialize (Hsec d j Ej). lia.
Qed.

Lemma fallback_day_ok (lines : list str) (sections : gmap (list N) nat)
    (schedule : gmap (list N) DaySchedule) (day : str) :
  day ∈ days -> full schedule ->
  (forall d i, sections !! d = Some i -> (i < length lines)%nat) ->
  exists schedule',
    fallback_day is_decimal is_space lines sections schedule day
    = Some schedule' /\
    schedule_extended schedule schedule'.
Proof.
  intros Hday Hfull Hsec. unfold fallback_day.
  destruct (sections !! day) as [start_idx|] eqn:Es.
  2:{ exists schedule. split; [done|apply schedule_extended_refl]. }
  destruct (Hfull day Hday) as [data Hdata]. rewrite Hdata.
  pose proof (section_end_le sections start_idx (length lines) Hsec) as Hend.
  destruct (section_loop_total
              (section_end sections start_idx (length lines)
               - (start_idx + 1))
              (drop (start_idx + 1) lines) (day_list data))
    as [activities Hloop].
  { rewrite length_drop. lia. }
  rewrite Hloop. eexists. split; [done|].
  apply (schedule_extended_insert _ _ data); [done|].
  split; [done|]. simpl. by apply section_loop_extends in Hloop.
Qed.

Lemma second_pass_ok (lines : list str) (sections : gmap (list N) nat)
    (ds : list str) :
  (forall d, d ∈ ds -> d ∈ days) ->
  (forall d i, sections !! d = Some i -> (i < length lines)%nat) ->
  forall schedule : gmap (list N) DaySchedule,
    full schedule ->
    exists schedule',
      foldl (fun acc day =>
               acc ≫= fun sched =>
                 fallback_day is_decimal is_space lines sections sched day)
            (Some schedule) ds
      = Some schedule' /\
      schedule_extended schedule schedule'.
Proof.
  intros Hds Hsec. induction ds as [|day ds IH]; intros schedule Hfull.
  - exists schedule. split; [done|apply schedule_extended_refl].
  - cbn [foldl]. cbn [mbind option_bind].
    destruct (fallback_day_ok lines sections schedule day)
      as (schedule1 & -> & Hext1); [apply Hds; left|done|done|].
    destruct (IH (fun d Hd => Hds d (list_elem_of_further _ _ _ Hd))
                schedule1) as (schedule2 & E & Hext2).
    { by eapply schedule_extended_full. }
    exists schedule2. split; [done|]. by eapply schedule_extended_trans.
Qed.

Lemma fallback_ok (text_content : str)
    (schedule : gmap (list N) DaySchedule) :
  full schedule ->
  exists schedule',
    fallback lower is_decimal is_space text_content schedule
    = Some schedule' /\
    schedule_extended schedule schedule'.
Proof.
  intros Hfull. unfold fallback.
  destruct (first_pass_ok (clean_lines is_space text_content) 0 ∅ schedule)
    as (sections & schedule1 & -> & Hext1 & Hsec1); [done|done|].
  destruct (second_pass_ok (clean_lines is_space text_content) sections days)
    with (schedule := schedule1) as (schedule2 & E & Hext2);
    [done|done|by eapply schedule_extended_full|].
  exists schedule2. split; [done|]. by eapply schedule_extended_trans.
Qed.

Lemma activity_total_ok (ds : list str)
    (schedule : gmap (list N) DaySchedule) (n : nat) :
  (forall d, d ∈ ds -> is_Some (schedule !! d)) ->
  is_Some (foldl (fun acc day =>
                    acc ≫= fun n =>
                      (fun data => (n + length (day_list data))%nat)
                        <$> schedule !! day)
                 (Some n) ds).
Proof.
  revert n. induction ds as [|day ds IH]; intros n Hds; [by eexists|].
  cbn [foldl]. cbn [mbind option_bind].
  destruct (Hds day) as [data ->]; [left|]. simpl.
  apply IH. intros d Hd. apply Hds. by right.
Qed.

(** X21.  The second way of reading the page (lines 131-189), on a
    schedule that has the seven days.  It never fails, with a [KeyError]
    or with an index beyond the lines, and it only adds: the keys of the
    schedule stay; a theme that is not empty stays; the activities that a
    day has stay at the front of its list, in their order; the activities
    added to a day are pairwise different, none of them is one that the
    day had, and none of them has a tier. *)
Theorem fallback_extends (text_content : str)
    (schedule : gmap (list N) DaySchedule) :
  (forall day, day ∈ days -> is_Some (schedule !! day)) ->
  exists schedule',
    fallback lower is_decimal is_space text_content schedule
    = Some schedule' /\
    forall day,
      match schedule !! day, schedule' !! day with
      | Some data, Some data' =>
          (day_theme data <> [] -> day_theme data' = day_theme data) /\
          exists added,
            day_list data' = day_list data ++ added /\
            NoDup added /\
            forall a, a ∈ added ->
                      (a ∉ day_list data) /\ act_tier a = None
      | None, None => True
      | _, _ => False
      end.
Proof.
  intros Hfull. destruct (fallback_ok text_content schedule Hfull)
    as (schedule' & E & Hext).
  exists schedule'. split; [done|]. apply Hext.
Qed.

Lemma section_loop_tiered (n : nat) :
  forall (rest : list str) (tiered activities : list Activity),
    Forall (fun a => act_tier a <> None) tiered ->
    loop n rest (tiered ++ activities)
    = (fun l => tiered ++ l) <$> loop n rest activities.
Proof.
  induction n as [n IH] using lt_wf_ind.
  intros rest tiered activities Htiered.
  destruct n as [|n']; [done|]. cbn [section_loop].
  destruct rest as [|line rest']; [done|].
  destruct (name_location_match is_space line) as [[name location]|].
  2:{ apply IH; [lia|done]. }
  set (next_time := match rest' with
                    | [] => None
                    | next_line :: _ => _
                    end).
  set (activity := {| act_name := _ |}).
  assert ((if bool_decide (activity ∈ tiered ++ activities)
           then tiered ++ activities
           else (tiered ++ activities) ++ [activity])
          = tiered ++ (if bool_decide (activity ∈ activities)
                       then activities else activities ++ [activity]))
    as ->.
  { destruct (bool_decide_reflect (activity ∈ activities)) as [Hin|Hin].
    - rewrite bool_decide_eq_true_2; [done|]. apply elem_of_app. by right.
    - rewrite bool_decide_eq_false_2; [by rewrite app_assoc|].
      intros [Ht|Ha]%elem_of_app; [|done].
      rewrite Forall_forall in Htiered. by apply (Htiered activity Ht). }
  destruct next_time as [t|].
  - destruct n' as [|n'']; [done|]. apply IH; [lia|done].
  - apply IH; [lia|done].
Qed.

(** X24.  An activity with a tier never counts as present.  The second
    way of reading looks for the activity it has read, which has no tier,
    among the activities of the day; those that carry a tier differ from
    it.  So on a day whose activities all carry a tier the loop over the
    section adds what it would add to a day without activities: an
    activity of the tab panels that is found again in the text is listed
    a second time, without tier. *)
Theorem tiered_activities_repeated (n : nat) (rest : list str)
    (tiered : list Activity) :
  Forall (fun a => act_tier a <> None) tiered ->
  loop n rest tiered = (fun l => tiered ++ l) <$> loop n rest [].
Proof.
  intros Htiered.
  rewrite <- (section_loop_tiered n rest tiered [] Htiered).
  by rewrite app_nil_r.
Qed.

Section WholeScraper.

Variable upper : str -> str.

Local Abbreviation scraper :=
  (parse_therme_schedule lower is_decimal is_space upper).

(** X22.  [parse_therme_schedule] always delivers a schedule, whatever the
    page holds, and the schedule has the seven days of the week and no
    other key: after the page is fetched and parsed, neither way of
    reading it can fail. *)
Theorem parse_therme_schedule_total (tabs : list TabPanel)
    (text_content : str) :
  exists schedule,
    scraper tabs text_content = Some schedule /\
    forall day, is_Some (schedule !! day) <-> day ∈ days.
Proof.
  unfold parse_therme_schedule.
  destruct (scrape_fold lower upper is_space tabs empty_schedule)
    as (primary & Hs & Hday).
  { intros day Hin. rewrite empty_schedule_lookup.
    by rewrite bool_decide_eq_true_2. }
  assert (Hkeys : forall day, is_Some (primary !! day) <-> day ∈ days).
  { intros day. rewrite Hday, empty_schedule_lookup.
    destruct (bool_decide_reflect (day ∈ days)) as [Hd|Hd]; simpl.
    - split; [done|]. intros _. by eexists.
    - split; [by intros [? ?]|done]. }
  unfold scrape_tabs. rewrite Hs.
  destruct (activity_total_ok days primary 0) as [total Htotal].
  { intros d Hd. by apply Hkeys. }
  unfold activity_total. rewrite Htotal.
  destruct (total <? 10)%nat.
  - destruct (fallback_ok text_content primary) as (final & E & Hext).
    { intros d Hd. by apply Hkeys. }
    exists final. split; [done|]. intros day.
    rewrite (schedule_extended_keys _ _ day Hext). apply Hkeys.
  - by exists primary.
Qed.

(** X23.  What the tab panels gave is kept.  In the schedule that
    [parse_therme_schedule] delivers, the activities that the loop over
    the tab panels has filed under a day stand at the front of the list
    of this day, in their order, and a theme that this loop has set is
    the theme of the day; whatever follows in the list has no tier. *)
Theorem parse_therme_schedule_keeps_tabs (tabs : list TabPanel)
    (text_content : str)
    (primary final : gmap (list N) DaySchedule)
    (day : str) (data : DaySchedule) :
  scrape_tabs lower upper is_space tabs = Some primary ->
  scraper tabs text_content = Some final ->
  primary !! day = Some data ->
  exists data' added,
    final !! day = Some data' /\
    day_list data' = day_list data ++ added /\
    (forall a, a ∈ added -> act_tier a = None) /\
    (day_theme data <> [] -> day_theme data' = day_theme data).
Proof.
  intros Hp Hf Hdata. unfold parse_therme_schedule in Hf.
  rewrite Hp in Hf.
  destruct (activity_total primary) as [total|]; [|done].
  assert (schedule_extended primary final) as Hext.
  { destruct (total <? 10)%nat.
    - pose proof (scrape_tabs_full lower upper is_space tabs primary Hp)
        as Hfull.
      destruct (fallback_ok text_content primary Hfull)
        as (final' & E & Hext).
      rewrite E in Hf. by injection Hf as <-.
    - injection Hf as <-. apply schedule_extended_refl. }
  specialize (Hext day). rewrite Hdata in Hext.
  destruct (final !! day) as [data'|]; [|done].
  destruct Hext as [Htheme (added & E & _ & Hnew)].
  exists data', added. split_and!; [done|done| |done].
  intros a Ha. by apply Hnew.
Qed.

End WholeScraper.

End FallbackFacts.

(** The text of the sample page, read into the empty schedule. *)
Lemma fallback_extends_witness :
  exists schedule',
    fallback Ascii.lower Ascii.is_decimal Ascii.is_space
      sample_page empty_schedule
    = Some schedule' /\
    forall day,
      match empty_schedule !! day, schedule' !! day with
      | Some data, Some data' =>
          (day_theme data <> [] -> day_theme data' = day_theme data) /\
          exists added,
            day_list data' = day_list data ++ added /\
            NoDup added /\
            forall a, a ∈ added ->
                      (a ∉ day_list data) /\ act_tier a = None
      | None, None => True
      | _, _ => False
      end.
Proof.
  apply (fallback_extends Ascii.lower Ascii.is_decimal Ascii.is_space
           sample_page empty_schedule).
  intros day Hd. rewrite empty_schedule_lookup.
  rewrite bool_decide_eq_true_2 by done. by eexists.
Defined.

(** The aqua gym of the tab panel is found again in the text. *)
Lemma tiered_activities_repeated_witness :
  section_loop Ascii.is_decimal Ascii.is_space 2
    [lit "Aqua Gym (Wave Pool)"; lit "10:00 - 10:30"] [aqua_gym]
  = (fun l => [aqua_gym] ++ l)
      <$> section_loop Ascii.is_decimal Ascii.is_space 2
            [lit "Aqua Gym (Wave Pool)"; lit "10:00 - 10:30"] [].
Proof.
  apply (tiered_activities_repeated Ascii.is_decimal Ascii.is_space 2
           [lit "Aqua Gym (Wave Pool)"; lit "10:00 - 10:30"] [aqua_gym]).
  by repeat constructor.
Defined.

(** The Monday of the sample page. *)
Lemma parse_therme_schedule_keeps_tabs_witness :
  exists data' added,
    sample_final !! lit "Monday" = Some data' /\
    day_list data' = [aqua_gym] ++ added /\
    (forall a, a ∈ added -> act_tier a = None) /\
    (lit "Monday Relax" <> [] -> day_theme data' = lit "Monday Relax").
Proof.
  apply (parse_therme_schedule_keeps_tabs
           Ascii.lower Ascii.is_decimal Ascii.is_space ascii_upper
           [monday_tab] sample_page sample_primary sample_final
           (lit "Monday")
           {| day_theme := lit "Monday Relax"; day_list := [aqua_gym] |}).
  - by vm_compute.
  - by vm_compute.
  - by vm_compute.
Defined.
